(** * Route optimizer of the bridge router: a shallow embedding

    Source: [src/router/ai/optimizer.py].

    The Python program scores cross-chain routes with a graph neural network
    and picks the best candidate.  This development embeds

    - the scalar arithmetic of the program on IEEE-754 values ([binary64] for
      Python floats, [binary32] for the [float32] arrays and tensors), with
      every rounding written out;
    - [RouteOptimizer.encode_chain], [RouteOptimizer.create_graph_from_route],
      [RouteGNN.forward], [RouteOptimizer.score_route],
      [RouteOptimizer.optimize_route], [RouteOptimizer.train_step] and
      [cost_function];
    - the torch / torch_geometric layers the program calls as an interface
      ([Torch]), since they are third-party code: every theorem about the
      network holds for all implementations of that interface.

    The definitions come first; the facts follow, by component: the encoder,
    the graph builder, the order of floats and the sort of the selector, the
    scorer and the selector, rounding to nearest even and the monotonicity
    of the float operations, and the heuristic cost. *)

From Stdlib Require Import ZArith Lia Bool Floats.SpecFloat.
From stdpp Require Import base option list gmap sets strings sorting.

Open Scope Z_scope.

(* ===================================================================== *)
(** * Floating-point numbers                                              *)
(* ===================================================================== *)

(** Python's [float] is IEEE-754 binary64. *)
Module F64.
Definition prec : Z := 53.
Definition emax : Z := 1024.

Definition of_Z (z : Z) : spec_float := binary_normalize prec emax z 0 false.
Definition add : spec_float -> spec_float -> spec_float := SFadd prec emax.
Definition sub : spec_float -> spec_float -> spec_float := SFsub prec emax.
Definition mul : spec_float -> spec_float -> spec_float := SFmul prec emax.
Definition div : spec_float -> spec_float -> spec_float := SFdiv prec emax.

(** The value Python reads for a decimal literal [n/d] written in the
    source (for instance [0.99] is [decimal 99 100]): the binary64 number
    nearest to the quotient. *)
Definition decimal (n d : Z) : spec_float := div (of_Z n) (of_Z d).

Definition zero : spec_float := S754_zero false.
Definition one : spec_float := of_Z 1.
End F64.

(** numpy's and torch's [float32] is IEEE-754 binary32. *)
Module F32.
Definition prec : Z := 24.
Definition emax : Z := 128.

(** Storing a binary64 value in a [float32] slot rounds it to nearest
    even; values too large become infinities. *)
Definition of_f64 (x : spec_float) : spec_float :=
  match x with
  | S754_finite s m e => binary_round prec emax s m e
  | _ => x
  end.

(** Reading a [float32] back as a Python float is exact; only the
    canonical representation of the number changes. *)
Definition to_f64 (x : spec_float) : spec_float :=
  match x with
  | S754_finite s m e => binary_round F64.prec F64.emax s m e
  | _ => x
  end.

Definition zero : spec_float := S754_zero false.
End F32.

(** Both formats share the representation type; the two names record which
    format a value is held in. *)
Abbreviation f64 := spec_float (only parsing).
Abbreviation f32 := spec_float (only parsing).

Definition is_nan (x : spec_float) : bool :=
  match x with S754_nan => true | _ => false end.

Definition is_finite (x : spec_float) : bool :=
  match x with S754_zero _ | S754_finite _ _ _ => true | _ => false end.

Declare Scope f64_scope.
Delimit Scope f64_scope with f64.
Infix "+" := F64.add : f64_scope.
Infix "-" := F64.sub : f64_scope.
Infix "*" := F64.mul : f64_scope.
Infix "/" := F64.div : f64_scope.
Infix "<?" := SFltb : f64_scope.
Infix "<=?" := SFleb : f64_scope.
Infix "=?" := SFeqb : f64_scope.

(* ===================================================================== *)
(** * Exceptions and results                                              *)
(* ===================================================================== *)

Inductive exn : Type :=
  | ValueError (msg : string)
  | IndexError
  | KeyError (key : string)
  | OverflowError
  | RuntimeError (msg : string).

Inductive result (A : Type) : Type :=
  | Ok (a : A)
  | Err (e : exn).
Arguments Ok {A} a.
Arguments Err {A} e.

#[global] Instance result_ret : MRet result := fun _ a => Ok a.
#[global] Instance result_bind : MBind result := fun _ _ f m =>
  match m with
  | Ok a => f a
  | Err e => Err e
  end.
#[global] Instance result_fmap : FMap result := fun _ _ f m =>
  match m with
  | Ok a => Ok (f a)
  | Err e => Err e
  end.

Definition is_Ok {A} (r : result A) : Prop := exists a, r = Ok a.

(** [float(n)] for a Python int: OverflowError when [n] is too large. *)
Definition float_of_int (n : Z) : result spec_float :=
  let f := F64.of_Z n in
  if is_finite f then Ok f else Err OverflowError.

(* ===================================================================== *)
(** * Tensors and arrays                                                  *)
(* ===================================================================== *)

(** A tensor is a shape and its elements in row-major order. *)
Record Tensor (A : Type) : Type := mkTensor {
  shape : list nat;
  data : list A;
}.
Arguments mkTensor {A} shape data.
Arguments shape {A} t.
Arguments data {A} t.

(** [torch.tensor(rows, dtype=...)] for a list of rows; [cast] is the
    conversion to the requested dtype.  The empty list gives the empty
    1-dimensional tensor; rows of different lengths are refused. *)
Definition torch_tensor {A B} (cast : A -> B) (rows : list (list A))
    : result (Tensor B) :=
  match rows with
  | [] => Ok (mkTensor [0%nat] [])
  | r :: _ =>
      if forallb (fun r' => Nat.eqb (length r') (length r)) rows
      then Ok (mkTensor [length rows; length r] (cast <$> concat rows))
      else Err (ValueError "expected sequence of equal lengths")
  end.

(** Column [j] of a row-major [n] x [m] matrix. *)
Definition column {A} (m : nat) (d : list A) (j : nat) : list A :=
  omap (fun i => d !! (i * m + j)%nat) (seq 0 (length d / m)).

(** [Tensor.t()]: transposes a 2-dimensional tensor and returns a tensor of
    fewer dimensions as it is. *)
Definition Tensor_t {A} (a : Tensor A) : result (Tensor A) :=
  match shape a with
  | [] | [_] => Ok a
  | [n; m] => Ok (mkTensor [m; n] (concat (column m (data a) <$> seq 0 m)))
  | _ => Err (RuntimeError "t() expects a tensor with <= 2 dimensions")
  end.

(** [Tensor.size(0)]. *)
Definition size0 {A} (a : Tensor A) : result nat :=
  match shape a with
  | [] => Err IndexError
  | n :: _ => Ok n
  end.

(** [torch.zeros(n, dtype=torch.long)]. *)
Definition torch_zeros (n : nat) : Tensor Z := mkTensor [n] (replicate n 0).

(** [Tensor.item()]: the value of a one-element [float32] tensor as a
    Python float. *)
Definition item (a : Tensor spec_float) : result spec_float :=
  match data a with
  | [v] => Ok (F32.to_f64 v)
  | _ => Err (RuntimeError "a Tensor with several elements cannot be converted to Scalar")
  end.

(** [np.zeros(n, dtype=np.float32)]. *)
Definition np_zeros (n : nat) : list spec_float := replicate n F32.zero.

(** [a[i] = v] on a [float32] array: a negative index counts from the end,
    an index out of range raises IndexError, the value is rounded to
    [float32]. *)
Definition np_setitem (a : list spec_float) (i : Z) (v : spec_float)
    : result (list spec_float) :=
  let n := Z.of_nat (length a) in
  if (0 <=? i) && (i <? n) then Ok (<[Z.to_nat i := F32.of_f64 v]> a)
  else if (- n <=? i) && (i <? 0) then Ok (<[Z.to_nat (n + i) := F32.of_f64 v]> a)
  else Err IndexError.

(* ===================================================================== *)
(** * Data model                                                          *)
(* ===================================================================== *)

(** One entry of [RouteOptimizer.chain_metadata]. *)
Record ChainMeta : Type := mkChainMeta {
  id : Z;
  avg_latency : Z;
  avg_cost : Z;
  reliability : f64;
}.

(** A hop dictionary: the keys the program reads.  The cost and the
    duration are floats; a dictionary that holds an integer there is
    modelled by the float that Python converts it to before it divides.
    An integer too large for a float, on which that division raises
    OverflowError, is outside the model. *)
Record Hop : Type := mkHop {
  from_chain : string;
  to_chain : string;
  bridge_type : string;
  cost : f64;
  time_ms : f64;
}.

(** A route dictionary: the keys the program reads, its numbers as
    floats, like those of a hop. *)
Record Route : Type := mkRoute {
  source_chain : string;
  target_chain : string;
  hops : list Hop;
  estimated_cost : f64;
  estimated_time_ms : f64;
  confidence_score : f64;
}.

(** [torch_geometric.data.Data(x=..., edge_index=..., edge_attr=...)]. *)
Record Data : Type := mkData {
  x : Tensor f32;
  edge_index : Tensor Z;
  edge_attr : Tensor f32;
}.

(** The table written in [RouteOptimizer.__init__]. *)
Definition chain_metadata_init : gmap string ChainMeta :=
  <["ethereum" := mkChainMeta 0 15000 50000 (F64.decimal 99 100)]>
  (<["polkadot" := mkChainMeta 1 6000 30000 (F64.decimal 98 100)]>
  (<["bitcoin" := mkChainMeta 2 600000 100000 (F64.decimal 95 100)]>
  (<["cosmos" := mkChainMeta 3 7000 40000 (F64.decimal 97 100)]>
  (<["sentium" := mkChainMeta 4 500 10000 (F64.decimal 99 100)]> ∅)))).

(* ===================================================================== *)
(** * ChainFeatureEncoder: [encode_chain]                                 *)
(* ===================================================================== *)

Section Encoder.
(** [self.chain_metadata] *)
Variable chain_metadata : gmap string ChainMeta.

Definition encode_chain (chain_name : string) : result (list f32) :=
  match chain_metadata !! chain_name with
  | None =>
      (* Unknown chain - use default features *)
      Ok (np_zeros 16)
  | Some meta =>
      let features := np_zeros 16 in
      id_f ← float_of_int (id meta);
      features ← np_setitem features 0 (id_f / F64.of_Z 10)%f64;
      latency_f ← float_of_int (avg_latency meta);
      features ← np_setitem features 1 (latency_f / F64.of_Z 1000000)%f64;
      cost_f ← float_of_int (avg_cost meta);
      features ← np_setitem features 2 (cost_f / F64.of_Z 100000)%f64;
      features ← np_setitem features 3 (reliability meta);
      (* One-hot encoding for chain type *)
      features ← np_setitem features (4 + id meta) F64.one;
      Ok features
  end.
End Encoder.

(* ===================================================================== *)
(** * RouteGraphBuilder: [create_graph_from_route]                        *)
(* ===================================================================== *)

(** Python orders [str] values by code point, that is, for the byte strings
    of the model, by [String.leb]. *)
Definition string_le (a b : string) : Prop := String.leb a b = true.

#[global] Instance string_le_dec a b : Decision (string_le a b).
Proof. unfold string_le. apply _. Defined.

(** [sorted(list(chains))] for a set of strings. *)
Definition sorted (chains : gset string) : list string :=
  merge_sort string_le (elements chains).

(** [enumerate(l)]. *)
Definition enumerate {A} (l : list A) : list (nat * A) :=
  imap (fun i a => (i, a)) l.

(** [d[k]] on a dictionary with string keys. *)
Definition dict_get {V} (d : gmap string V) (k : string) : result V :=
  match d !! k with
  | Some v => Ok v
  | None => Err (KeyError k)
  end.

(** [l.index(v)] for a value known to be in the list. *)
Fixpoint list_index (v : string) (l : list string) : nat :=
  match l with
  | [] => 0
  | a :: l' => if decide (a = v) then 0%nat else S (list_index v l')
  end.

Definition bridge_types : list string := ["Native"; "Wrapped"; "Liquidity"; "Relay"].

Section GraphBuilder.
Variable chain_metadata : gmap string ChainMeta.

(** The body of the loop over the hops: the pair appended to
    [edge_index] and the row appended to [edge_attr]. *)
Definition hop_edge (chain_to_idx : gmap string nat) (hop : Hop)
    : result (list Z * list f64) :=
  from_idx ← dict_get chain_to_idx (from_chain hop);
  to_idx ← dict_get chain_to_idx (to_chain hop);
  (* Edge features: [cost, latency, bridge_type_onehot] *)
  let edge_features :=
    [ (cost hop / F64.of_Z 100000)%f64; (time_ms hop / F64.of_Z 1000000)%f64 ] in
  (* Bridge type one-hot (4 types) *)
  let bridge_onehot := replicate 4 F64.zero in
  let bridge_onehot :=
    if decide (bridge_type hop ∈ bridge_types)
    then <[list_index (bridge_type hop) bridge_types := F64.one]> bridge_onehot
    else bridge_onehot in
  Ok ([Z.of_nat from_idx; Z.of_nat to_idx], edge_features ++ bridge_onehot).

Definition create_graph_from_route (route : Route) : result Data :=
  let hops := hops route in
  (* Collect unique chains *)
  let chains : gset string :=
    foldl (fun chains hop => chains ∪ {[from_chain hop]} ∪ {[to_chain hop]}) ∅ hops in
  let chains := sorted chains in
  let chain_to_idx : gmap string nat :=
    foldl (fun d '(idx, chain) => <[chain := idx]> d) ∅ (enumerate chains) in
  (* Node features *)
  node_features ← mapM (encode_chain chain_metadata) chains;
  x ← torch_tensor (fun v : f32 => v) node_features;
  (* Edge index and attributes *)
  edges ← mapM (hop_edge chain_to_idx) hops;
  edge_index ← torch_tensor (fun i : Z => i) (fst <$> edges);
  edge_index ← Tensor_t edge_index;
  edge_attr ← torch_tensor F32.of_f64 (snd <$> edges);
  Ok (mkData x edge_index edge_attr).
End GraphBuilder.

(** The number of nodes and of edges of a graph, as torch_geometric's
    [Data.num_nodes] and [Data.num_edges] read them off the tensors. *)
Definition num_nodes (g : Data) : nat := hd 0%nat (shape (x g)).
Definition num_edges (g : Data) : nat := nth 1 (shape (edge_index g)) 0%nat.

(* ===================================================================== *)
(** * The torch and torch_geometric interface                             *)
(* ===================================================================== *)

(** Learnable parameters of a [GCNConv] layer and of an [nn.Linear]
    layer. *)
Record GCNConv : Type := mkGCNConv {
  lin_weight : Tensor f32;
  conv_bias : Tensor f32;
}.

Record Linear : Type := mkLinear {
  weight : Tensor f32;
  bias : Tensor f32;
}.

(** [Batch.from_data_list(graphs)]: the collated graph and the assignment
    of its nodes to the graphs of the list. *)
Record Batch : Type := mkBatch {
  batch_data : Data;
  batch_batch : Tensor Z;
}.

(** The layers and functions of torch and torch_geometric that the program
    calls.  They are third-party code: the program is embedded over an
    arbitrary implementation, each operation being a function of its
    arguments that may raise.  Dropout in training mode draws from torch's
    random generator, whose state is threaded explicitly. *)
Class Torch : Type := {
  Generator : Type;
  GCNConv_forward : GCNConv -> Tensor f32 -> Tensor Z -> result (Tensor f32);
  Linear_forward : Linear -> Tensor f32 -> result (Tensor f32);
  F_relu : Tensor f32 -> Tensor f32;
  dropout_sample : f64 -> Tensor f32 -> Generator -> Tensor f32 * Generator;
  global_mean_pool : Tensor f32 -> Tensor Z -> result (Tensor f32);
  F_mse_loss : Tensor f32 -> Tensor f32 -> result (Tensor f32);
  Batch_from_data_list : list Data -> result Batch;
}.

(** [Tensor.squeeze()]: drops the dimensions of size one. *)
Definition squeeze {A} (a : Tensor A) : Tensor A :=
  mkTensor (filter (fun n => n <> 1%nat) (shape a)) (data a).

(* ===================================================================== *)
(** * MessagePassingScorer and RouteSelector                              *)
(* ===================================================================== *)

(** [RouteGNN]: the layers, the dropout probability and the
    training/inference flag that [model.train()] and [model.eval()] set on
    the module and all its children. *)
Record RouteGNN : Type := mkRouteGNN {
  conv1 : GCNConv;
  conv2 : GCNConv;
  conv3 : GCNConv;
  fc1 : Linear;
  fc2 : Linear;
  dropout_p : f64;
  training : bool;
}.

(** [model.state_dict()]: the ModelParameters. *)
Definition state_dict (m : RouteGNN) : list (Tensor f32) :=
  [ lin_weight (conv1 m); conv_bias (conv1 m);
    lin_weight (conv2 m); conv_bias (conv2 m);
    lin_weight (conv3 m); conv_bias (conv3 m);
    weight (fc1 m); bias (fc1 m); weight (fc2 m); bias (fc2 m) ].

Definition with_training (b : bool) (m : RouteGNN) : RouteGNN :=
  mkRouteGNN (conv1 m) (conv2 m) (conv3 m) (fc1 m) (fc2 m) (dropout_p m) b.

Record RouteOptimizer : Type := mkRouteOptimizer {
  model : RouteGNN;
  chain_metadata : gmap string ChainMeta;
}.

(** [l.sort(key=key, reverse=True)].  Python's sort is stable, also with
    [reverse=True]; it is embedded as the stable insertion sort, which on
    keys that [<] orders totally returns what every stable sort returns.
    When a key is NaN, [<] is no order and Python promises a permutation
    of the list only.  The statements that depend on the order of the
    result are about keys that are numbers, but for one example with a
    NaN score, on which Python's sort and this one both leave the list as
    it is. *)
Fixpoint insert_reverse {A} (key : A -> f64) (a : A) (l : list A) : list A :=
  match l with
  | [] => [a]
  | b :: l' =>
      if (key a <? key b)%f64 then b :: insert_reverse key a l'
      else a :: b :: l'
  end.

Definition sort_reverse {A} (key : A -> f64) (l : list A) : list A :=
  foldr (insert_reverse key) [] l.

Section Optimizer.
Context `{Torch}.

(** What a method call can read and change: the optimizer object and the
    state of torch's random generator. *)
Record World : Type := mkWorld {
  self : RouteOptimizer;
  generator : Generator;
}.

(** Computations that read and update the world and may raise. *)
Definition M (A : Type) : Type := World -> result A * World.

#[global] Instance M_ret : MRet M := fun _ a w => (Ok a, w).
#[global] Instance M_bind : MBind M := fun _ _ f m w =>
  match m w with
  | (Ok a, w') => f a w'
  | (Err e, w') => (Err e, w')
  end.

Definition lift {A} (r : result A) : M A := fun w => (r, w).
Definition raise {A} (e : exn) : M A := fun w => (Err e, w).
Definition get_model : M RouteGNN := fun w => (Ok (model (self w)), w).
Definition get_chain_metadata : M (gmap string ChainMeta) :=
  fun w => (Ok (chain_metadata (self w)), w).

Definition set_training (b : bool) (w : World) : World :=
  mkWorld (mkRouteOptimizer (with_training b (model (self w)))
                            (chain_metadata (self w)))
          (generator w).

(** [self.model.eval()] *)
Definition model_eval : M () := fun w => (Ok (), set_training false w).
(** [self.model.train()] *)
Definition model_train : M () := fun w => (Ok (), set_training true w).

(** [self.dropout(x)], that is [F.dropout(x, p, self.training)]: the
    identity in inference mode, a random mask in training mode. *)
Definition dropout (x : Tensor f32) : M (Tensor f32) := fun w =>
  let m := model (self w) in
  if training m then
    let '(y, g) := dropout_sample (dropout_p m) x (generator w) in
    (Ok y, mkWorld (self w) g)
  else (Ok x, w).

(** [RouteGNN.forward] *)
Definition forward (x : Tensor f32) (edge_index : Tensor Z)
    (edge_attr : Tensor f32) (batch : Tensor Z) : M (Tensor f32) :=
  m ← get_model;
  (* Graph convolutions *)
  x ← lift (GCNConv_forward (conv1 m) x edge_index);
  let x := F_relu x in
  x ← dropout x;
  x ← lift (GCNConv_forward (conv2 m) x edge_index);
  let x := F_relu x in
  x ← dropout x;
  x ← lift (GCNConv_forward (conv3 m) x edge_index);
  let x := F_relu x in
  (* Global pooling *)
  x ← lift (global_mean_pool x batch);
  (* Output layers *)
  x ← lift (Linear_forward (fc1 m) x);
  let x := F_relu x in
  x ← dropout x;
  x ← lift (Linear_forward (fc2 m) x);
  mret x.

(** [RouteOptimizer.score_route] *)
Definition score_route (route : Route) : M f64 :=
  _ ← model_eval;
  md ← get_chain_metadata;
  graph ← lift (create_graph_from_route md route);
  n ← lift (size0 (x graph));
  (* Create batch (single graph) *)
  let batch := torch_zeros n in
  score ← forward (x graph) (edge_index graph) (edge_attr graph) batch;
  lift (item score).

(** [RouteOptimizer.optimize_route] *)
Definition optimize_route (routes : list Route) : M Route :=
  match routes with
  | [] => raise (ValueError "No routes provided")
  | [route] => mret route
  | _ =>
      (* Score all routes *)
      scored_routes ← mapM (fun route =>
                              score ← score_route route;
                              mret (score, route)) routes;
      (* Sort by score (descending) *)
      let scored_routes := sort_reverse fst scored_routes in
      match scored_routes with
      | (_, route) :: _ => mret route
      | [] => raise IndexError
      end
  end.

(** [RouteOptimizer.train_step] *)
Definition train_step (batch_graphs : list Data) (labels : Tensor f32) : M f64 :=
  _ ← model_train;
  (* Create batch *)
  batch ← lift (Batch_from_data_list batch_graphs);
  (* Forward pass *)
  let g := batch_data batch in
  predictions ← forward (x g) (edge_index g) (edge_attr g) (batch_batch batch);
  let predictions := squeeze predictions in
  (* Compute loss (MSE) *)
  loss ← lift (F_mse_loss predictions labels);
  lift (item loss).

(** The forward pass in inference mode, where dropout is the identity: a
    function of the layers and of the node features, the connectivity
    and the batch assignment. *)
Definition forward_inference (m : RouteGNN) (x : Tensor f32)
    (edge_index : Tensor Z) (batch : Tensor Z) : result (Tensor f32) :=
  x ← GCNConv_forward (conv1 m) x edge_index;
  x ← GCNConv_forward (conv2 m) (F_relu x) edge_index;
  x ← GCNConv_forward (conv3 m) (F_relu x) edge_index;
  x ← global_mean_pool (F_relu x) batch;
  x ← Linear_forward (fc1 m) x;
  Linear_forward (fc2 m) (F_relu x).

(** The score of a graph and of a route in inference mode. *)
Definition score_graph (m : RouteGNN) (graph : Data) : result f64 :=
  n ← size0 (x graph);
  score ← forward_inference m (x graph) (edge_index graph) (torch_zeros n);
  item score.

Definition score_inference (opt : RouteOptimizer) (route : Route) : result f64 :=
  graph ← create_graph_from_route (chain_metadata opt) route;
  score_graph (model opt) graph.
End Optimizer.

(* ===================================================================== *)
(** * The heuristic [cost_function]                                       *)
(* ===================================================================== *)

Definition cost_function (route : Route) : f64 :=
  let w1 := F64.decimal 4 10 in
  let w2 := F64.decimal 3 10 in
  let w3 := F64.decimal 3 10 in
  let financial_cost := (estimated_cost route / F64.of_Z 100000)%f64 in
  let time_cost := (estimated_time_ms route / F64.of_Z 1000000)%f64 in
  let reliability_penalty := (F64.one - confidence_score route)%f64 in
  let total_cost :=
    (w1 * financial_cost + w2 * time_cost + w3 * reliability_penalty)%f64 in
  total_cost.

(* ===================================================================== *)
(** * Training: [train]                                                 *)
(* ===================================================================== *)

(** The learnable layers of a model: what [model.parameters()] ranges
    over. *)
Record Parameters : Type := mkParameters {
  p_conv1 : GCNConv;
  p_conv2 : GCNConv;
  p_conv3 : GCNConv;
  p_fc1 : Linear;
  p_fc2 : Linear;
}.

Definition parameters (m : RouteGNN) : Parameters :=
  mkParameters (conv1 m) (conv2 m) (conv3 m) (fc1 m) (fc2 m).

(** The model after an update of its parameters in place. *)
Definition with_parameters (p : Parameters) (m : RouteGNN) : RouteGNN :=
  mkRouteGNN (p_conv1 p) (p_conv2 p) (p_conv3 p) (p_fc1 p) (p_fc2 p)
             (dropout_p m) (training m).

(** The optimizer and the automatic differentiation of torch, third-party
    code as the layers are.  [loss.backward()] differentiates the
    computation that produced the loss: the forward pass of the model, from
    a state of the random generator, on a batch, and the mean squared error
    against the labels. *)
Class TorchOptim `{Torch} : Type := {
  Adam : Type;
  Gradients : Type;
  Adam_init : Parameters -> f64 -> result Adam;
  backward : RouteGNN -> Generator -> Batch -> Tensor f32 -> result Gradients;
  Adam_step : Adam -> Parameters -> Gradients -> Adam * Parameters;
}.

(** [torch.tensor(l, dtype=...)] for a list of numbers. *)
Definition torch_tensor_1d {A B} (cast : A -> B) (l : list A) : Tensor B :=
  mkTensor [length l] (cast <$> l).

(** [range(0, stop, step)] for a positive step. *)
Definition py_range_step (stop step : nat) : list nat :=
  (fun k => (k * step)%nat) <$> seq 0 ((stop + step - 1) / step).

(** [l[i:j]] for [0 <= i <= j]. *)
Definition py_slice {A} (l : list A) (i j : nat) : list A := take (j - i) (drop i l).

(** Python's [a / b] on floats: ZeroDivisionError, here [None], when [b]
    is a zero. *)
Definition py_truediv (a b : f64) : option f64 :=
  match b with
  | S754_zero _ => None
  | _ => Some (a / b)%f64
  end.

(** How a call of the training code ends: it returns a value, or it raises
    an exception of one of the calls it makes, or the ZeroDivisionError of
    a float division of its own. *)
Inductive outcome (A : Type) : Type :=
  | Returns (a : A)
  | Raises (e : exn)
  | RaisesZeroDivisionError.
Arguments Returns {A} a.
Arguments Raises {A} e.
Arguments RaisesZeroDivisionError {A}.

(** A line [train] prints: the values of [epoch+1], [epochs] and
    [avg_loss] in "Epoch {epoch+1}/{epochs}, Loss: {avg_loss:.4f}". *)
Record EpochLine : Type := mkEpochLine {
  line_epoch : Z;
  line_epochs : Z;
  line_loss : f64;
}.

Section Training.
Context `{TorchOptim}.

Definition get_generator : M Generator := fun w => (Ok (generator w), w).

(** The effect of [optimizer.step()] on the model. *)
Definition set_parameters (p : Parameters) : M () := fun w =>
  (Ok (), mkWorld (mkRouteOptimizer (with_parameters p (model (self w)))
                                    (chain_metadata (self w)))
                  (generator w)).

(** The batches of an epoch: [training_data[i:i+batch_size]] for [i] in
    [range(0, len(training_data), batch_size)]. *)
Definition batches (training_data : list (Route * f64)) : list (list (Route * f64)) :=
  let batch_size := 32%nat in
  (fun i => py_slice training_data i (i + batch_size))
    <$> py_range_step (length training_data) batch_size.

(** The body of the loop over the batches; it returns the optimizer and
    [loss.item()]. *)
Definition train_batch (optimizer : Adam) (batch_items : list (Route * f64))
    : M (Adam * f64) :=
  (* Prepare batch *)
  md ← get_chain_metadata;
  graphs ← lift (mapM (fun item => create_graph_from_route md item.1) batch_items);
  let labels := torch_tensor_1d F32.of_f64 (snd <$> batch_items) in
  (* Training step; optimizer.zero_grad() clears the gradients that
     backward() fills below *)
  batch ← lift (Batch_from_data_list graphs);
  m ← get_model;
  g ← get_generator;
  let graph := batch_data batch in
  predictions ← forward (x graph) (edge_index graph) (edge_attr graph)
                        (batch_batch batch);
  let predictions := squeeze predictions in
  loss ← lift (F_mse_loss predictions labels);
  gradients ← lift (backward m g batch labels);
  let '(optimizer, p) := Adam_step optimizer (parameters m) gradients in
  _ ← set_parameters p;
  loss_value ← lift (item loss);
  mret (optimizer, loss_value).

(** The loop over the batches of an epoch, with [total_loss]. *)
Fixpoint train_batches (bs : list (list (Route * f64))) (optimizer : Adam)
    (total_loss : f64) : M (Adam * f64) :=
  match bs with
  | [] => mret (optimizer, total_loss)
  | batch_items :: bs' =>
      r ← train_batch optimizer batch_items;
      train_batches bs' r.1 (total_loss + r.2)%f64
  end.

(** The loop over the epochs: the way the call ends, the world and the
    lines printed. *)
Fixpoint train_epochs (epoch_range : list Z) (epochs : Z)
    (training_data : list (Route * f64)) (optimizer : Adam) (w : World)
    (stdout : list EpochLine) : outcome () * World * list EpochLine :=
  match epoch_range with
  | [] => (Returns (), w, stdout)
  | epoch :: epoch_range' =>
      let total_loss := F64.zero in
      (* Create batches *)
      let batch_size := 32 in
      match train_batches (batches training_data) optimizer total_loss w with
      | (Err e, w') => (Raises e, w', stdout)
      | (Ok (optimizer, total_loss), w') =>
          match py_truediv total_loss
                  (F64.of_Z (Z.of_nat (length training_data)) / F64.of_Z batch_size)%f64
          with
          | None => (RaisesZeroDivisionError, w', stdout)
          | Some avg_loss =>
              let stdout :=
                if (epoch + 1) mod 10 =? 0
                then stdout ++ [mkEpochLine (epoch + 1) epochs avg_loss]
                else stdout in
              train_epochs epoch_range' epochs training_data optimizer w' stdout
          end
      end
  end.

(** [RouteOptimizer.train] *)
Definition train (training_data : list (Route * f64)) (epochs : Z) (lr : f64)
    (w : World) : outcome () * World * list EpochLine :=
  match Adam_init (parameters (model (self w))) lr with
  | Err e => (Raises e, w, [])
  | Ok optimizer => train_epochs (seqZ 0 epochs) epochs training_data optimizer w []
  end.

End Training.

(* ===================================================================== *)
(** * Synthetic training data: [generate_training_data]                 *)
(* ===================================================================== *)

(** The functions of [np.random] that the program calls, third-party code:
    each draws from the state of numpy's global generator. *)
Class NumpyRandom : Type := {
  RandomState : Type;
  randint : Z -> Z -> RandomState -> result Z * RandomState;
  choice : list string -> RandomState -> result string * RandomState;
  uniform : f64 -> f64 -> RandomState -> f64 * RandomState;
}.

(** A hop as [generate_training_data] draws it: the cost and the duration
    are integers. *)
Record DrawnHop : Type := mkDrawnHop {
  drawn_from_chain : string;
  drawn_to_chain : string;
  drawn_bridge_type : string;
  drawn_cost : Z;
  drawn_time_ms : Z;
}.

(** The hop as the rest of the program reads it: [Hop] holds the numbers
    as the floats that the divisions by [100000.0] and [1000000.0] make of
    the integers. *)
Definition hop_of_drawn (hop : DrawnHop) : Hop :=
  mkHop (drawn_from_chain hop) (drawn_to_chain hop) (drawn_bridge_type hop)
        (F64.of_Z (drawn_cost hop)) (F64.of_Z (drawn_time_ms hop)).

(** [sum(...)] of integers. *)
Definition py_sum (l : list Z) : Z := foldl Z.add 0 l.

(** [l[0]] and [l[-1]]. *)
Definition py_first {A} (l : list A) : result A :=
  match l with
  | [] => Err IndexError
  | a :: _ => Ok a
  end.

Definition py_last {A} (l : list A) : result A :=
  match last l with
  | None => Err IndexError
  | Some a => Ok a
  end.

(** The chains [generate_training_data] draws from. *)
Definition chains : list string :=
  ["ethereum"; "polkadot"; "bitcoin"; "cosmos"; "sentium"].

Section Generator.
Context `{NumpyRandom}.

(** Computations that draw random numbers and may raise. *)
Definition Gen (A : Type) : Type := RandomState -> outcome A * RandomState.

#[global] Instance Gen_ret : MRet Gen := fun _ a s => (Returns a, s).
#[global] Instance Gen_bind : MBind Gen := fun _ _ f m s =>
  match m s with
  | (Returns a, s') => f a s'
  | (Raises e, s') => (Raises e, s')
  | (RaisesZeroDivisionError, s') => (RaisesZeroDivisionError, s')
  end.

Definition draw {A} (f : RandomState -> result A * RandomState) : Gen A := fun s =>
  match f s with
  | (Ok a, s') => (Returns a, s')
  | (Err e, s') => (Raises e, s')
  end.

Definition gen_lift {A} (r : result A) : Gen A := fun s =>
  match r with
  | Ok a => (Returns a, s)
  | Err e => (Raises e, s)
  end.

Definition gen_truediv (a b : f64) : Gen f64 := fun s =>
  match py_truediv a b with
  | Some q => (Returns q, s)
  | None => (RaisesZeroDivisionError, s)
  end.

(** The loop [for _ in range(num_hops)]. *)
Fixpoint generate_hops (num_hops : nat) (current_chain : string)
    (hops : list DrawnHop) : Gen (list DrawnHop) :=
  match num_hops with
  | O => mret hops
  | S num_hops' =>
      next_chain ← draw (choice (filter (fun c => c <> current_chain) chains));
      bridge_type ← draw (choice bridge_types);
      cost ← draw (randint 10000 100000);
      time_ms ← draw (randint 1000 60000);
      let hop := mkDrawnHop current_chain next_chain bridge_type cost time_ms in
      generate_hops num_hops' next_chain (hops ++ [hop])
  end.

(** The body of the loop over the samples: a random route and its
    score. *)
Definition generate_sample : Gen (Route * f64) :=
  (* Generate random route *)
  num_hops ← draw (randint 1 4);
  current_chain ← draw (choice chains);
  hops ← generate_hops (Z.to_nat num_hops) current_chain [];
  first_hop ← gen_lift (py_first hops);
  last_hop ← gen_lift (py_last hops);
  let estimated_cost := py_sum (drawn_cost <$> hops) in
  let estimated_time_ms := py_sum (drawn_time_ms <$> hops) in
  confidence_score ← draw (fun s => let r := uniform (F64.decimal 85 100) (F64.decimal 99 100) s
                                    in (Ok r.1, r.2));
  let route :=
    mkRoute (drawn_from_chain first_hop) (drawn_to_chain last_hop)
            (hop_of_drawn <$> hops)
            (F64.of_Z estimated_cost) (F64.of_Z estimated_time_ms)
            confidence_score in
  (* Calculate score (inverse of cost - lower cost = higher score) *)
  score ← gen_truediv F64.one (F64.one + cost_function route)%f64;
  mret (route, score).

(** The loop [for _ in range(num_samples)]. *)
Fixpoint generate_samples (n : nat) (training_data : list (Route * f64))
    : Gen (list (Route * f64)) :=
  match n with
  | O => mret training_data
  | S n' =>
      sample ← generate_sample;
      generate_samples n' (training_data ++ [sample])
  end.

(** [generate_training_data] *)
Definition generate_training_data (num_samples : Z) : Gen (list (Route * f64)) :=
  generate_samples (Z.to_nat num_samples) [].

End Generator.

(* ===================================================================== *)
(** * Definitions used in the statements                                  *)
(* ===================================================================== *)

(** The metadata entries for which [encode_chain] raises nothing: the
    integers convert to floats and the one-hot slot lies in the vector
    after the four numeric slots. *)
Definition meta_ok (meta : ChainMeta) : bool :=
  is_finite (F64.of_Z (id meta)) && is_finite (F64.of_Z (avg_latency meta))
  && is_finite (F64.of_Z (avg_cost meta))
  && (0 <=? id meta) && (id meta <? 12).

(** The vector [encode_chain] builds for a known chain. *)
Definition encoded (meta : ChainMeta) : list f32 :=
  <[Z.to_nat (4 + id meta) := F32.of_f64 F64.one]>
  (<[3%nat := F32.of_f64 (reliability meta)]>
  (<[2%nat := F32.of_f64 (F64.of_Z (avg_cost meta) / F64.of_Z 100000)%f64]>
  (<[1%nat := F32.of_f64 (F64.of_Z (avg_latency meta) / F64.of_Z 1000000)%f64]>
  (<[0%nat := F32.of_f64 (F64.of_Z (id meta) / F64.of_Z 10)%f64]> (np_zeros 16))))).

(** The chain names of the hops, in the order the loop meets them. *)
Definition chain_names (hops : list Hop) : list string :=
  hops ≫= fun hop => [from_chain hop; to_chain hop].

(** The graph of a route without hops: three empty tensors. *)
Definition empty_graph : Data :=
  mkData (mkTensor [0%nat] []) (mkTensor [0%nat] []) (mkTensor [0%nat] []).

(** A key whose lexicographic order is the order [SFcompare] computes on
    the floats that are not NaN. *)
Definition float_key (x : spec_float) : Z * Z * Z :=
  match x with
  | S754_nan | S754_zero _ => (0, 0, 0)
  | S754_infinity false => (2, 0, 0)
  | S754_infinity true => (-2, 0, 0)
  | S754_finite false m e => (1, e, Z.pos m)
  | S754_finite true m e => (-1, - e, Z.neg m)
  end.

Definition key_lt (a b : Z * Z * Z) : Prop :=
  a.1.1 < b.1.1 \/ (a.1.1 = b.1.1 /\ (a.1.2 < b.1.2 \/ (a.1.2 = b.1.2 /\ a.2 < b.2))).

Definition key_le (a b : Z * Z * Z) : Prop :=
  a.1.1 < b.1.1 \/ (a.1.1 = b.1.1 /\ (a.1.2 < b.1.2 \/ (a.1.2 = b.1.2 /\ a.2 <= b.2))).

(** The first element, in list order, whose key no other key exceeds. *)
Fixpoint first_max {A} (key : A -> f64) (l : list A) : option A :=
  match l with
  | [] => None
  | a :: l' =>
      match first_max key l' with
      | None => Some a
      | Some b => if (key a <? key b)%f64 then Some b else Some a
      end
  end.

(** ** Rounding

    The format of a floating-point number: the precision and the exponent
    of the infinities, as [SpecFloat] takes them. *)
Class Format : Type := {
  prec : Z;
  emax : Z;
  prec_pos : 0 < prec;
  prec_lt_emax : prec < emax;
}.

#[global] Instance binary64 : Format :=
  {| prec := F64.prec; emax := F64.emax; prec_pos := eq_refl; prec_lt_emax := eq_refl |}.

(** A binary64 number: NaN, an infinity, a zero or a canonical finite
    number, as every Python float is. *)
Definition valid64 (x : f64) : bool := valid_binary F64.prec F64.emax x.

(** [rne m n]: [m / 2^n] rounded to the nearest integer, ties to even. *)
Definition rne (m n : Z) : Z :=
  let q := m / 2 ^ n in
  let r2 := 2 * (m mod 2 ^ n) in
  if r2 <? 2 ^ n then q
  else if 2 ^ n <? r2 then q + 1
  else if Z.even q then q else q + 1.

(** The record of [SpecFloat] after [k] right shifts of [M]: the quotient,
    the last bit shifted out and whether a bit shifted out before it was
    set. *)
Definition shr_state (M k : Z) : shr_record :=
  Build_shr_record (M / 2 ^ k) (Z.testbit (2 * M) k) (negb ((2 * M) mod 2 ^ k =? 0)).

Definition sgn (s : bool) : Z := if s then -1 else 1.

Section FormatDefinitions.
Context {fmt : Format}.

Local Abbreviation emin := (SpecFloat.emin prec emax).
Local Abbreviation fexp := (SpecFloat.fexp prec emax).

(** The result of rounding the mantissa [m] at exponent [e]: the number of
    bits dropped, the rounded mantissa, then one more bit dropped when the
    rounding carried into a new digit. *)
Definition round_shift (m e : Z) : Z := Z.max 0 (fexp (Zdigits2 m + e) - e).

Definition round_pair (m e : Z) : Z * Z :=
  let n := round_shift m e in
  let m' := rne m n in
  let e' := e + n in
  let n' := round_shift m' e' in
  (m' / 2 ^ n', e' + n').

(** The float of a rounded mantissa and exponent: a zero, a finite number
    or, beyond the largest exponent, an infinity. *)
Definition pack (s : bool) (p : Z * Z) : spec_float :=
  match p.1 with
  | Z0 => S754_zero s
  | Z.pos m => if p.2 <=? emax - prec then S754_finite s m p.2 else S754_infinity s
  | Z.neg _ => S754_nan
  end.

(** A mantissa [m > 0] at exponent [e] is canonical when [e] is the
    exponent the format gives to numbers of its magnitude. *)
Definition canonical (m e : Z) : Prop := fexp (Zdigits2 m + e) = e.

(** Values are counted in units of [2^unit_exp], small enough for every
    exact sum, difference and product of two floats of the format. *)
Definition unit_exp : Z := 2 * emin.

(** The first value beyond the finite floats. *)
Definition huge : Z := 2 ^ (emax - unit_exp).

(** The rounding of the format on values: to the nearest multiple of the
    unit in the last place, ties to even. *)
Definition round_val (N : Z) : Z :=
  let n := fexp (Zdigits2 N + unit_exp) - unit_exp in
  rne N n * 2 ^ n.

(** Rounding a signed value, with overflow to the infinities. *)
Definition round_signed (V : Z) : Z :=
  if V <? 0 then - Z.min huge (round_val (- V)) else Z.min huge (round_val V).

(** The value of a float in units of [2^unit_exp]; the infinities get the
    first value beyond the finite floats. *)
Definition xval (x : spec_float) : Z :=
  match x with
  | S754_zero _ | S754_nan => 0
  | S754_infinity s => sgn s * huge
  | S754_finite s m e => sgn s * (Z.pos m * 2 ^ (e - unit_exp))
  end.

(** The value of a float in units of [2^emin]. *)
Definition xval_emin (x : spec_float) : Z :=
  match x with
  | S754_finite s m e => sgn s * (Z.pos m * 2 ^ (e - emin))
  | _ => 0
  end.

(** A number of the format: not NaN, and canonical when finite. *)
Definition in_format (x : spec_float) : Prop :=
  is_nan x = false /\ valid_binary prec emax x = true.
End FormatDefinitions.

(** ** Example inputs *)

(** The two candidates of the program's demonstration, the one-hop
    candidate with another cost, duration and bridge type on its hop, and
    a route without hops. *)
Definition demo_route_two_hops : Route :=
  mkRoute "ethereum" "polkadot"
    [ mkHop "ethereum" "sentium" "Native" (F64.of_Z 50000) (F64.of_Z 5000);
      mkHop "sentium" "polkadot" "Native" (F64.of_Z 30000) (F64.of_Z 3000) ]
    (F64.of_Z 80000) (F64.of_Z 8000) (F64.decimal 97 100).

Definition demo_route_one_hop : Route :=
  mkRoute "ethereum" "polkadot"
    [ mkHop "ethereum" "polkadot" "Liquidity" (F64.of_Z 80000) (F64.of_Z 8000) ]
    (F64.of_Z 80000) (F64.of_Z 8000) (F64.decimal 90 100).

Definition demo_route_one_hop_relay : Route :=
  mkRoute "ethereum" "polkadot"
    [ mkHop "ethereum" "polkadot" "Relay" (F64.of_Z 10000) (F64.of_Z 60000) ]
    (F64.of_Z 10000) (F64.of_Z 60000) (F64.decimal 90 100).

Definition route_without_hops : Route :=
  mkRoute "ethereum" "polkadot" [] F64.zero F64.zero F64.one.

(** A route with the cost and duration of the demonstration and a given
    confidence score. *)
Definition route_with_confidence (c : f64) : Route :=
  mkRoute "ethereum" "polkadot" [] (F64.of_Z 80000) (F64.of_Z 8000) c.

(** A small implementation of the interface, to run the embedding on the
    example routes: the layers pass their input on, pooling sums the node
    features, the loss sums the predictions and dropout zeroes its
    input. *)
Definition sum_f32 (l : list f32) : f32 := foldl (SFadd F32.prec F32.emax) F32.zero l.

Definition example_torch : Torch := {|
  Generator := nat;
  GCNConv_forward := fun _ x _ => Ok x;
  Linear_forward := fun _ x => Ok x;
  F_relu := fun x => x;
  dropout_sample := fun _ x g =>
    (mkTensor (shape x) ((fun _ => F32.zero) <$> data x), S g);
  global_mean_pool := fun x _ => Ok (mkTensor [1%nat; 1%nat] [sum_f32 (data x)]);
  F_mse_loss := fun p _ => Ok (mkTensor [] [sum_f32 (data p)]);
  Batch_from_data_list := fun graphs =>
    match graphs with
    | [g] => Ok (mkBatch g (torch_zeros (num_nodes g)))
    | _ => Err (RuntimeError "example batches hold one graph")
    end;
|}.

Definition example_layer : Tensor f32 := mkTensor [0%nat] [].

Definition example_model (mode : bool) : RouteGNN :=
  mkRouteGNN
    (mkGCNConv example_layer example_layer)
    (mkGCNConv example_layer example_layer)
    (mkGCNConv example_layer example_layer)
    (mkLinear example_layer example_layer)
    (mkLinear example_layer example_layer)
    (F64.decimal 2 10) mode.

Definition example_world (mode : bool) : @World example_torch :=
  @mkWorld example_torch
    (mkRouteOptimizer (example_model mode) chain_metadata_init)
    0%nat.

(** The graph of the one-hop demonstration route. *)
Definition demo_graph_one_hop : Data :=
  match create_graph_from_route chain_metadata_init demo_route_one_hop with
  | Ok g => g
  | Err _ => empty_graph
  end.

(** The graph of the one-hop route with other edge features. *)
Definition demo_graph_one_hop_relay : Data :=
  match create_graph_from_route chain_metadata_init demo_route_one_hop_relay with
  | Ok g => g
  | Err _ => empty_graph
  end.

(** A second implementation, with the pooling that gives
    [global_mean_pool] its name: the sum of the node features divided by
    the number of nodes.  For a graph without nodes that is 0/0, NaN. *)
Definition example_torch_mean : Torch := {|
  Generator := nat;
  GCNConv_forward := fun _ x _ => Ok x;
  Linear_forward := fun _ x => Ok x;
  F_relu := fun x => x;
  dropout_sample := fun _ x g =>
    (mkTensor (shape x) ((fun _ => F32.zero) <$> data x), S g);
  global_mean_pool := fun x _ =>
    Ok (mkTensor [1%nat; 1%nat]
          [SFdiv F32.prec F32.emax (sum_f32 (data x))
             (binary_normalize F32.prec F32.emax (Z.of_nat (hd 0%nat (shape x))) 0 false)]);
  F_mse_loss := fun p _ => Ok (mkTensor [] [sum_f32 (data p)]);
  Batch_from_data_list := fun graphs =>
    match graphs with
    | [g] => Ok (mkBatch g (torch_zeros (num_nodes g)))
    | _ => Err (RuntimeError "example batches hold one graph")
    end;
|}.

Definition example_world_mean : @World example_torch_mean :=
  @mkWorld example_torch_mean
    (mkRouteOptimizer (example_model false) chain_metadata_init)
    0%nat.

(** The scores the example network gives the three example routes. *)
Definition example_scores : list f64 :=
  [ S754_finite false 5506776212439040 (-50);
    S754_finite false 8310830437236736 (-50);
    S754_finite false 5506776212439040 (-50) ].

(** ** The encoder on any metadata *)

(** The slot of the one-hot write [features[4 + id] = 1.0]: numpy counts a
    negative index from the end of the 16 slots. *)
Definition one_hot_slot (meta : ChainMeta) : nat := Z.to_nat ((4 + id meta) mod 16).

(** The three integers of a metadata entry convert to floats. *)
Definition meta_finite (meta : ChainMeta) : bool :=
  is_finite (F64.of_Z (id meta)) && is_finite (F64.of_Z (avg_latency meta))
  && is_finite (F64.of_Z (avg_cost meta)).

(** The four normalised values of an entry, in slot order. *)
Definition numeric_features (meta : ChainMeta) : list f32 :=
  [ F32.of_f64 (F64.of_Z (id meta) / F64.of_Z 10)%f64;
    F32.of_f64 (F64.of_Z (avg_latency meta) / F64.of_Z 1000000)%f64;
    F32.of_f64 (F64.of_Z (avg_cost meta) / F64.of_Z 100000)%f64;
    F32.of_f64 (reliability meta) ].

(** ** The graph of a route, in closed form *)

(** The nodes of the graph of a route, in index order: the distinct chain
    names of its hops, ascending. *)
Definition node_order (route : Route) : list string :=
  sorted (list_to_set (chain_names (hops route))).

(** [chain_to_idx] of [create_graph_from_route]. *)
Definition chain_to_idx (chains : list string) : gmap string nat :=
  foldl (fun d '(idx, chain) => <[chain := idx]> d) ∅ (enumerate chains).

(** The index of a chain among the nodes of a route. *)
Definition node_index (route : Route) (chain : string) : nat :=
  list_index chain (node_order route).

(** The feature row of a hop, before the cast to float32:
    [[cost, latency, bridge_type_onehot]]. *)
Definition edge_features (hop : Hop) : list f64 :=
  [ (cost hop / F64.of_Z 100000)%f64; (time_ms hop / F64.of_Z 1000000)%f64 ]
  ++ (if decide (bridge_type hop ∈ bridge_types)
      then <[list_index (bridge_type hop) bridge_types := F64.one]> (replicate 4 F64.zero)
      else replicate 4 F64.zero).

(** The graph [create_graph_from_route] assembles from the encoded chains
    of a route with hops. *)
Definition graph_of (node_features : list (list f32)) (route : Route) : Data :=
  mkData
    (mkTensor [length node_features; 16%nat] (concat node_features))
    (mkTensor [2%nat; length (hops route)]
       (((fun hop => Z.of_nat (node_index route (from_chain hop))) <$> hops route)
        ++ ((fun hop => Z.of_nat (node_index route (to_chain hop))) <$> hops route)))
    (mkTensor [length (hops route); 6%nat]
       (F32.of_f64 <$> concat (edge_features <$> hops route))).

(** The chain names of the hops of a route, hop by hop. *)
Definition chain_pairs (route : Route) : list (string * string) :=
  (fun hop => (from_chain hop, to_chain hop)) <$> hops route.

(** ** The selection in closed form *)

(** The selection of [optimize_route] as a function of the optimizer: the
    candidates are scored in inference mode. *)
Definition select_route `{Torch} (opt : RouteOptimizer) (routes : list Route)
    : result Route :=
  match routes with
  | [] => Err (ValueError "No routes provided")
  | [route] => Ok route
  | _ =>
      scored_routes ← mapM (fun route => score ← score_inference opt route;
                                          Ok (score, route)) routes;
      match sort_reverse fst scored_routes with
      | (_, route) :: _ => Ok route
      | [] => Err IndexError
      end
  end.

(** [optimize_route] over a sorting procedure: what the method computes
    when [scored_routes.sort(key=lambda x: x[0], reverse=True)] rearranges
    the list as [sort] does.  With [sort_reverse fst] it is
    [optimize_route]. *)
Definition optimize_route_sorted_by `{Torch}
    (sort : list (f64 * Route) -> list (f64 * Route)) (routes : list Route)
    : M Route :=
  match routes with
  | [] => raise (ValueError "No routes provided")
  | [route] => mret route
  | _ =>
      (* Score all routes *)
      scored_routes ← mapM (fun route =>
                              score ← score_route route;
                              mret (score, route)) routes;
      (* Sort by score (descending) *)
      let scored_routes := sort scored_routes in
      match scored_routes with
      | (_, route) :: _ => mret route
      | [] => raise IndexError
      end
  end.

(** ** What training leaves alone *)

(** What [train] leaves as it is, whatever it does: the mode of the model,
    its dropout probability and the metadata; and, for a model in
    inference mode, the state of the random generator. *)
Definition same_setup `{Torch} (w w' : World) : Prop :=
  training (model (self w')) = training (model (self w)) /\
  dropout_p (model (self w')) = dropout_p (model (self w)) /\
  chain_metadata (self w') = chain_metadata (self w) /\
  (training (model (self w)) = false -> generator w' = generator w).

(** A computation that keeps this setup, from every world. *)
Definition preserves `{Torch} {A} (m : M A) : Prop := forall w, same_setup w (m w).2.

(** ** Numbers that are not negative *)

(** A binary64 number that is not negative: a zero, a positive number or
    plus infinity. *)
Definition nonneg64 (x : f64) : Prop :=
  in_format (fmt := binary64) x /\ 0 <= xval (fmt := binary64) x.

(** ** Quotients before they are rounded *)

(** The side of the half of [D] that a remainder [R] of a division by [D]
    is on: 0 when there is no remainder, 1 below the half, 2 at the half,
    3 above it. *)
Definition quarter (R D : Z) : Z :=
  if R =? 0 then 0
  else match 2 * R ?= D with Lt => 1 | Eq => 2 | Gt => 3 end.

(** The quotient [A / B] cut to a multiple of [2^k], with two more bits
    that keep the side of the half of the multiple that the quotient is
    on. *)
Definition sticky (A B k : Z) : Z :=
  (4 * (A / (B * 2 ^ k)) + quarter (A mod (B * 2 ^ k)) (B * 2 ^ k)) * 2 ^ (k - 2).

(** [A / (B * 2^n)] rounded to the nearest integer, ties to even. *)
Definition rnq (A B n : Z) : Z :=
  let D := B * 2 ^ n in
  let q := A / D in
  let r2 := 2 * (A mod D) in
  if r2 <? D then q
  else if D <? r2 then q + 1
  else if Z.even q then q else q + 1.

Section QuotientDefinitions.
Context {fmt : Format}.

(** The value of the quotient of a number of value [X >= 0] by the finite
    number of mantissa [my] and exponent [ey], and the value of the
    quotient of a number of any sign. *)
Definition quot_val (my ey X : Z) : Z :=
  Z.min huge (round_val (sticky (X * 2 ^ (- unit_exp) / 2 ^ (ey - unit_exp)) my 2)).

Definition quot_signed (my ey V : Z) : Z :=
  if V <? 0 then - quot_val my ey (- V) else quot_val my ey V.

(** [x] is at most [y], or one of them is NaN. *)
Definition le_or_nan (x y : spec_float) : Prop :=
  is_nan x = true \/ is_nan y = true \/
  (in_format x /\ in_format y /\ xval x <= xval y).

End QuotientDefinitions.

(** ** The samples of [generate_training_data] *)

(** What numpy documents of the three functions: [randint(low, high)]
    returns an integer from [low] (inclusive) to [high] (exclusive),
    [choice(a)] an element of a non-empty [a], and [uniform(low, high)] a
    float between [low] and [high]. *)
Definition numpy_contract `{NumpyRandom} : Prop :=
  (forall lo hi s, lo < hi -> exists n, (randint lo hi s).1 = Ok n /\ lo <= n < hi) /\
  (forall l s, l <> [] -> exists c, (choice l s).1 = Ok c /\ c ∈ l) /\
  (forall lo hi s, valid64 lo = true -> valid64 hi = true -> (lo <=? hi)%f64 = true ->
     valid64 (uniform lo hi s).1 = true /\
     (lo <=? (uniform lo hi s).1)%f64 = true /\ ((uniform lo hi s).1 <=? hi)%f64 = true).

(** The hops of a route follow one another: each starts where the one
    before it ends. *)
Definition connected (hops : list Hop) : Prop :=
  forall (k : nat) (h1 h2 : Hop),
    hops !! k = Some h1 -> hops !! S k = Some h2 -> to_chain h1 = from_chain h2.

(** A hop as [generate_training_data] draws it: from one of the five
    chains to another of them, over one of the four bridge types. *)
Definition generated_hop (hop : Hop) : Prop :=
  from_chain hop ∈ chains /\ to_chain hop ∈ chains /\
  from_chain hop <> to_chain hop /\
  bridge_type hop ∈ bridge_types.

(** The route of a sample: one to three hops that follow one another, from
    [source_chain] to [target_chain]. *)
Definition generated_route (route : Route) : Prop :=
  (1 <= length (hops route) <= 3)%nat /\
  Forall generated_hop (hops route) /\
  connected (hops route) /\
  (exists hop, head (hops route) = Some hop /\ source_chain route = from_chain hop) /\
  (exists hop, last (hops route) = Some hop /\ target_chain route = to_chain hop).

(** The numbers of a sample: the cost and duration of every hop are
    integers of the ranges drawn from, the estimates are their sums, the
    confidence lies between 0.85 and 0.99, and the score is
    [1 / (1 + cost_function(route))] of a cost that is not negative. *)
Definition generated_numbers (sample : Route * f64) : Prop :=
  let route := sample.1 in
  (exists costs : list Z,
     Forall2 (fun hop c => cost hop = F64.of_Z c /\ 10000 <= c < 100000) (hops route) costs /\
     estimated_cost route = F64.of_Z (py_sum costs)) /\
  (exists times : list Z,
     Forall2 (fun hop t => time_ms hop = F64.of_Z t /\ 1000 <= t < 60000) (hops route) times /\
     estimated_time_ms route = F64.of_Z (py_sum times)) /\
  (F64.decimal 85 100 <=? confidence_score route)%f64 = true /\
  (confidence_score route <=? F64.decimal 99 100)%f64 = true /\
  (F64.zero <=? cost_function route)%f64 = true /\
  sample.2 = (F64.one / (F64.one + cost_function route))%f64.

(** A hop as the loop draws it, before the conversion of its numbers. *)
Definition drawn_ok (hop : DrawnHop) : Prop :=
  drawn_from_chain hop ∈ chains /\ drawn_to_chain hop ∈ chains /\
  drawn_from_chain hop <> drawn_to_chain hop /\
  drawn_bridge_type hop ∈ bridge_types /\
  10000 <= drawn_cost hop < 100000 /\ 1000 <= drawn_time_ms hop < 60000.

Definition drawn_connected (hops : list DrawnHop) : Prop :=
  forall (k : nat) (h1 h2 : DrawnHop),
    hops !! k = Some h1 -> hops !! S k = Some h2 ->
    drawn_to_chain h1 = drawn_from_chain h2.

(** ** More example inputs *)

(** A direct route that costs less, takes less time and is trusted more
    than the two-hop candidate of the demonstration. *)
Definition demo_route_direct : Route :=
  mkRoute "ethereum" "polkadot"
    [ mkHop "ethereum" "polkadot" "Native" (F64.of_Z 20000) (F64.of_Z 4000) ]
    (F64.of_Z 20000) (F64.of_Z 4000) (F64.decimal 99 100).

(** The graph of the two-hop demonstration route. *)
Definition demo_graph_two_hops : Data :=
  match create_graph_from_route chain_metadata_init demo_route_two_hops with
  | Ok g => g
  | Err _ => empty_graph
  end.

(** The two-hop demonstration route with its hops in the other order. *)
Definition demo_route_two_hops_reversed : Route :=
  mkRoute "ethereum" "polkadot" (reverse (hops demo_route_two_hops))
    (F64.of_Z 80000) (F64.of_Z 8000) (F64.decimal 97 100).

(** An optimizer for the example network: it refuses a negative learning
    rate, counts its steps and leaves the parameters as they are. *)
Definition example_optim : @TorchOptim example_torch := {|
  Adam := nat;
  Gradients := unit;
  Adam_init := fun _ lr =>
    if (lr <? F64.zero)%f64 then Err (ValueError "Invalid learning rate") else Ok 0%nat;
  backward := fun _ _ _ _ => Ok ();
  Adam_step := fun steps p _ => (S steps, p);
|}.

(** A run of [train] on the example network: one sample, twenty epochs. *)
Definition example_train_run : outcome () * @World example_torch * list EpochLine :=
  @train example_torch example_optim
    [(demo_route_one_hop, F64.decimal 5 10)] 20 (F64.decimal 1 1000) (example_world true).

(** A generator for the examples: it counts its draws and returns the
    lower bound shifted by the count, the element at the count and the
    lower bound. *)
Definition example_random : NumpyRandom := {|
  RandomState := nat;
  randint := fun lo hi s =>
    if lo <? hi then (Ok (lo + Z.of_nat s mod (hi - lo)), S s)
    else (Err (ValueError "low >= high"), s);
  choice := fun l s =>
    match l !! (s mod length l)%nat with
    | Some c => (Ok c, S s)
    | None => (Err (ValueError "a must be non-empty"), s)
    end;
  uniform := fun lo hi s => (lo, S s);
|}.

(** The samples that the example generator gives, and the first of
    them. *)
Definition example_training_data : list (Route * f64) :=
  match @generate_training_data example_random 2 0%nat with
  | (Returns data, _) => data
  | _ => []
  end.

Definition example_sample : Route * f64 :=
  match example_training_data with
  | sample :: _ => sample
  | [] => (route_without_hops, F64.zero)
  end.

(* ===================================================================== *)
(** * Facts about results                                                 *)
(* ===================================================================== *)

Lemma mapM_result_Ok {A B} (f : A -> result B) (l : list A) :
  (forall a, a ∈ l -> is_Ok (f a)) ->
  exists k, mapM f l = Ok k /\ Forall2 (fun a b => f a = Ok b) l k.
Proof.
  induction l as [|a l IH]; intros Hl.
  - exists []. split; [reflexivity | constructor].
  - destruct (Hl a) as [b Hb]; [left |].
    destruct IH as (k & Hk & Hall).
    { intros a' Ha'. apply Hl. by right. }
    exists (b :: k). split.
    + simpl. rewrite Hb. simpl. rewrite Hk. reflexivity.
    + by constructor.
Qed.

Lemma Forall2_Ok_length {A B} (f : A -> result B) (P : B -> Prop) l k :
  Forall2 (fun a b => f a = Ok b) l k ->
  (forall a b, a ∈ l -> f a = Ok b -> P b) ->
  length k = length l /\ Forall P k.
Proof.
  induction 1 as [|a b l k Hab Hlk IH]; intros HP.
  - split; [done | constructor].
  - destruct IH as [Hlen Hall].
    { intros a' b' Ha'. apply HP. by right. }
    split; [simpl; by rewrite Hlen |].
    constructor; [| done]. eapply HP; [left | done].
Qed.

(* ===================================================================== *)
(** * The encoder                                                         *)
(* ===================================================================== *)

Lemma np_setitem_in_range (a : list f32) (i : Z) (v : f64) :
  0 <= i < Z.of_nat (length a) ->
  np_setitem a i v = Ok (<[Z.to_nat i := F32.of_f64 v]> a).
Proof.
  intros Hi. unfold np_setitem.
  replace ((0 <=? i) && (i <? Z.of_nat (length a))) with true; [done |].
  symmetry. apply andb_true_iff. split; [apply Z.leb_le | apply Z.ltb_lt]; lia.
Qed.

Lemma float_of_int_finite (n : Z) :
  is_finite (F64.of_Z n) = true -> float_of_int n = Ok (F64.of_Z n).
Proof. intros Hn. unfold float_of_int. by rewrite Hn. Qed.

Lemma meta_ok_id (meta : ChainMeta) : meta_ok meta = true -> 0 <= id meta < 12.
Proof.
  unfold meta_ok. intros Hok.
  apply andb_true_iff in Hok as [Hok Hhi].
  apply andb_true_iff in Hok as [_ Hlo].
  apply Z.leb_le in Hlo. apply Z.ltb_lt in Hhi. lia.
Qed.

Lemma encode_chain_known md (chain_name : string) (meta : ChainMeta) :
  md !! chain_name = Some meta -> meta_ok meta = true ->
  encode_chain md chain_name = Ok (encoded meta).
Proof.
  intros Hlook Hok. pose proof (meta_ok_id meta Hok) as Hid.
  unfold meta_ok in Hok.
  apply andb_true_iff in Hok as [Hok _].
  apply andb_true_iff in Hok as [Hok _].
  apply andb_true_iff in Hok as [Hok Hcost].
  apply andb_true_iff in Hok as [Hidf Hlat].
  unfold encode_chain. rewrite Hlook.
  rewrite !float_of_int_finite by done. cbn [mbind result_bind].
  rewrite (np_setitem_in_range _ 0) by (simpl; lia). cbn [mbind result_bind].
  rewrite (np_setitem_in_range _ 1) by (rewrite ?length_insert; simpl; lia).
  cbn [mbind result_bind].
  rewrite (np_setitem_in_range _ 2) by (rewrite ?length_insert; simpl; lia).
  cbn [mbind result_bind].
  rewrite (np_setitem_in_range _ 3) by (rewrite ?length_insert; simpl; lia).
  cbn [mbind result_bind].
  rewrite np_setitem_in_range; [reflexivity |].
  rewrite !length_insert. simpl. lia.
Qed.

Lemma encode_chain_unknown md (chain_name : string) :
  md !! chain_name = None -> encode_chain md chain_name = Ok (np_zeros 16).
Proof. intros Hlook. unfold encode_chain. by rewrite Hlook. Qed.

Lemma length_encoded (meta : ChainMeta) : length (encoded meta) = 16%nat.
Proof. unfold encoded. by rewrite !length_insert. Qed.

Lemma chain_metadata_init_ok :
  map_Forall (fun _ meta => meta_ok meta = true) chain_metadata_init.
Proof.
  unfold chain_metadata_init.
  repeat (apply map_Forall_insert_2; [vm_compute; reflexivity |]).
  apply map_Forall_empty.
Qed.

Lemma lookup_np_zeros (n i : nat) : (i < n)%nat -> np_zeros n !! i = Some F32.zero.
Proof. intros Hi. unfold np_zeros. by apply lookup_replicate_2. Qed.

Lemma encoded_layout (meta : ChainMeta) :
  0 <= id meta < 12 ->
  encoded meta !! 0%nat = Some (F32.of_f64 (F64.of_Z (id meta) / F64.of_Z 10)%f64) /\
  encoded meta !! 1%nat
    = Some (F32.of_f64 (F64.of_Z (avg_latency meta) / F64.of_Z 1000000)%f64) /\
  encoded meta !! 2%nat
    = Some (F32.of_f64 (F64.of_Z (avg_cost meta) / F64.of_Z 100000)%f64) /\
  encoded meta !! 3%nat = Some (F32.of_f64 (reliability meta)) /\
  encoded meta !! Z.to_nat (4 + id meta) = Some (F32.of_f64 F64.one) /\
  (forall i : nat, (4 <= i < 16)%nat -> i <> Z.to_nat (4 + id meta) ->
     encoded meta !! i = Some F32.zero).
Proof.
  intros Hid. unfold encoded.
  assert (Hslot : (4 <= Z.to_nat (4 + id meta) < 16)%nat) by lia.
  repeat split.
  - rewrite !list_lookup_insert_ne by lia.
    apply list_lookup_insert_eq. simpl. lia.
  - rewrite !list_lookup_insert_ne by lia.
    apply list_lookup_insert_eq. rewrite !length_insert. simpl. lia.
  - rewrite !list_lookup_insert_ne by lia.
    apply list_lookup_insert_eq. rewrite !length_insert. simpl. lia.
  - rewrite !list_lookup_insert_ne by lia.
    apply list_lookup_insert_eq. rewrite !length_insert. simpl. lia.
  - apply list_lookup_insert_eq. rewrite !length_insert. simpl. lia.
  - intros i Hi Hne. rewrite !list_lookup_insert_ne by lia.
    apply lookup_np_zeros. lia.
Qed.

Lemma encode_chain_total md (chain_name : string) :
  map_Forall (fun _ meta => meta_ok meta = true) md ->
  exists v, encode_chain md chain_name = Ok v /\ length v = 16%nat.
Proof.
  intros Hmd. destruct (md !! chain_name) as [meta|] eqn:Hlook.
  - exists (encoded meta). split; [| apply length_encoded].
    apply encode_chain_known; [done |]. by apply (Hmd chain_name).
  - exists (np_zeros 16). split; [by apply encode_chain_unknown | done].
Qed.

(** The one-hot value and the float32 values of the demonstration chain
    [sentium]: 0.4, 0.0005, 0.1 and 0.99 rounded to single precision, and
    1.0 at index 8. *)
Example encode_chain_sentium :
  encode_chain chain_metadata_init "sentium"
  = Ok ([ F32.of_f64 (F64.decimal 4 10); F32.of_f64 (F64.decimal 5 10000);
          F32.of_f64 (F64.decimal 1 10); F32.of_f64 (F64.decimal 99 100) ]
        ++ replicate 4 F32.zero ++ [F32.of_f64 F64.one] ++ replicate 7 F32.zero).
Proof. vm_compute. reflexivity. Qed.

(** C6, as the program behaves: for every chain name [encode_chain] returns
    a vector of length 16 and raises nothing.  For a chain of the metadata,
    the vector holds single-precision values: index 0 is [id/10], index 1
    is [avg_latency/1e6], index 2 is [avg_cost/1e5], index 3 is the
    reliability, each computed in double precision and then rounded to
    float32; index [4+id] is 1.0 and every other index is 0.  For an
    unknown chain every index is 0. *)
Theorem encode_chain_layout (chain_name : string) :
  exists v : list f32,
    encode_chain chain_metadata_init chain_name = Ok v /\
    length v = 16%nat /\
    match chain_metadata_init !! chain_name with
    | None => v = replicate 16 (S754_zero false)
    | Some meta =>
        v !! 0%nat = Some (F32.of_f64 (F64.of_Z (id meta) / F64.of_Z 10)%f64) /\
        v !! 1%nat
          = Some (F32.of_f64 (F64.of_Z (avg_latency meta) / F64.of_Z 1000000)%f64) /\
        v !! 2%nat
          = Some (F32.of_f64 (F64.of_Z (avg_cost meta) / F64.of_Z 100000)%f64) /\
        v !! 3%nat = Some (F32.of_f64 (reliability meta)) /\
        v !! Z.to_nat (4 + id meta) = Some (F32.of_f64 F64.one) /\
        F32.of_f64 F64.one = S754_finite false 8388608 (-23) /\
        (forall i : nat, (4 <= i < 16)%nat -> i <> Z.to_nat (4 + id meta) ->
           v !! i = Some (S754_zero false))
    end.
Proof.
  destruct (chain_metadata_init !! chain_name) as [meta|] eqn:Hlook.
  - pose proof (chain_metadata_init_ok chain_name meta Hlook) as Hok.
    exists (encoded meta).
    split; [by apply encode_chain_known |]. split; [apply length_encoded |].
    destruct (encoded_layout meta (meta_ok_id meta Hok))
      as (H0 & H1 & H2 & H3 & Hslot & Hrest).
    repeat split; done.
  - exists (np_zeros 16).
    split; [by apply encode_chain_unknown |]. split; reflexivity.
Qed.

(** C6 as stated fails: for [sentium] the value at index 3 is 0.99 rounded
    to single precision, a number different from the reliability 0.99 of
    the metadata. *)
Lemma encode_chain_reliability_rounded :
  exists (v : list f32) (meta : ChainMeta) (r : f32),
    encode_chain chain_metadata_init "sentium" = Ok v /\
    chain_metadata_init !! "sentium" = Some meta /\
    v !! 3%nat = Some r /\
    (F32.to_f64 r =? reliability meta)%f64 = false /\
    F32.to_f64 r <> reliability meta.
Proof.
  exists (encoded (mkChainMeta 4 500 10000 (F64.decimal 99 100))),
         (mkChainMeta 4 500 10000 (F64.decimal 99 100)),
         (F32.of_f64 (F64.decimal 99 100)).
  repeat split; try (vm_compute; reflexivity).
  vm_compute. discriminate.
Qed.

(* ===================================================================== *)
(** * The graph builder                                                   *)
(* ===================================================================== *)

Lemma collect_chains (hops : list Hop) (acc : gset string) :
  foldl (fun chains hop => chains ∪ {[from_chain hop]} ∪ {[to_chain hop]}) acc hops
  = acc ∪ list_to_set (chain_names hops).
Proof.
  revert acc. induction hops as [|hop hops IH]; intros acc; simpl.
  - by rewrite (right_id_L ∅ (∪)).
  - rewrite IH. unfold chain_names. simpl.
    by rewrite <- !(assoc_L (∪)).
Qed.

Lemma sorted_Permutation (chains : gset string) : sorted chains ≡ₚ elements chains.
Proof. apply merge_sort_Permutation. Qed.

Lemma length_sorted_list_to_set (l : list string) :
  length (sorted (list_to_set l)) = length (remove_dups l).
Proof.
  rewrite sorted_Permutation.
  rewrite <- (size_list_to_set (C := gset string) (remove_dups l))
    by apply NoDup_remove_dups.
  unfold size, set_size. simpl. f_equal. f_equal.
  apply set_eq. intros c. rewrite !elem_of_list_to_set, elem_of_remove_dups. done.
Qed.

Lemma elem_of_sorted (chains : gset string) (c : string) :
  c ∈ sorted chains <-> c ∈ chains.
Proof. rewrite sorted_Permutation. apply elem_of_elements. Qed.

Lemma chain_to_idx_lookup (ps : list (nat * string)) (d : gmap string nat) (c : string) :
  c ∈ ps.*2 \/ is_Some (d !! c) ->
  is_Some (foldl (fun d '(idx, chain) => <[chain := idx]> d) d ps !! c).
Proof.
  revert d. induction ps as [|[idx chain] ps IH]; intros d Hc; simpl.
  - destruct Hc as [Hc | Hc]; [by apply elem_of_nil in Hc | done].
  - apply IH. destruct Hc as [Hc | Hc].
    + apply elem_of_cons in Hc as [-> | Hc]; [right | by left].
      rewrite lookup_insert_eq. eauto.
    + right. destruct (decide (chain = c)) as [-> |].
      * rewrite lookup_insert_eq. eauto.
      * by rewrite lookup_insert_ne.
Qed.

Lemma enumerate_snd {A} (l : list A) : (enumerate l).*2 = l.
Proof.
  unfold enumerate. apply list_eq. intros i.
  rewrite list_lookup_fmap, list_lookup_imap. by destruct (l !! i).
Qed.

Lemma torch_tensor_uniform {A B} (cast : A -> B) (rows : list (list A)) (n : nat) :
  rows <> [] -> Forall (fun r => length r = n) rows ->
  torch_tensor cast rows = Ok (mkTensor [length rows; n] (cast <$> concat rows)).
Proof.
  intros Hne Hall. destruct rows as [|r rows]; [done |].
  unfold torch_tensor.
  assert (Hr : length r = n) by (by inversion Hall).
  replace (forallb _ _) with true; [by rewrite Hr |].
  symmetry. apply forallb_forall. intros r' Hr'.
  apply Nat.eqb_eq. rewrite Hr.
  rewrite Forall_forall in Hall. apply Hall. by apply list_elem_of_In.
Qed.

Lemma hop_edge_Ok (d : gmap string nat) (hop : Hop) :
  is_Some (d !! from_chain hop) -> is_Some (d !! to_chain hop) ->
  exists e, hop_edge d hop = Ok e /\ length e.1 = 2%nat /\ length e.2 = 6%nat.
Proof.
  intros [i Hi] [j Hj]. unfold hop_edge, dict_get. rewrite Hi, Hj.
  cbn [mbind result_bind]. eexists. split; [reflexivity |]. split; [reflexivity |].
  simpl. destruct (decide _); simpl; by rewrite ?length_insert.
Qed.

Lemma chain_names_nonempty (hops : list Hop) :
  hops <> [] -> remove_dups (chain_names hops) <> [].
Proof.
  destruct hops as [|hop hops]; [done |]. intros _ Hnil.
  assert (Hin : from_chain hop ∈ remove_dups (chain_names (hop :: hops))).
  { apply elem_of_remove_dups. left. }
  rewrite Hnil in Hin. by apply elem_of_nil in Hin.
Qed.

(** With metadata that [encode_chain] accepts, a route with hops gets a
    graph with one row of 16 features per distinct chain, a 2 x E edge
    index and an E x 6 edge-attribute tensor. *)
Lemma create_graph_from_route_shapes md (route : Route) :
  map_Forall (fun _ meta => meta_ok meta = true) md ->
  hops route <> [] ->
  exists g, create_graph_from_route md route = Ok g /\
    shape (x g) = [length (remove_dups (chain_names (hops route))); 16%nat] /\
    shape (edge_index g) = [2%nat; length (hops route)] /\
    shape (edge_attr g) = [length (hops route); 6%nat].
Proof.
  intros Hmd Hne. unfold create_graph_from_route.
  rewrite collect_chains, (left_id_L ∅ (∪)).
  set (chains := sorted (list_to_set (chain_names (hops route)))).
  set (chain_to_idx := foldl _ ∅ (enumerate chains)).
  (* the node features *)
  destruct (mapM_result_Ok (encode_chain md) chains) as (nf & -> & Hnf).
  { intros c _. destruct (encode_chain_total md c Hmd) as (v & Hv & _). by exists v. }
  apply (Forall2_Ok_length _ (fun v => length v = 16%nat)) in Hnf as [Hlen Hrows].
  2:{ intros c v _ Hv. destruct (encode_chain_total md c Hmd) as (v' & Hv' & Hl).
      congruence. }
  assert (Hchains : length chains = length (remove_dups (chain_names (hops route)))).
  { apply length_sorted_list_to_set. }
  assert (Hnf_ne : nf <> []).
  { intros ->. simpl in Hlen. apply (chain_names_nonempty _ Hne).
    apply length_zero_iff_nil. lia. }
  cbn [mbind result_bind].
  rewrite (torch_tensor_uniform _ nf 16) by done. cbn [mbind result_bind].
  (* the edges *)
  destruct (mapM_result_Ok (hop_edge chain_to_idx) (hops route)) as (es & -> & Hes).
  { intros hop Hhop.
    destruct (hop_edge_Ok chain_to_idx hop) as (e & He & _); [| | by exists e].
    - apply chain_to_idx_lookup. left. rewrite enumerate_snd.
      apply elem_of_sorted, elem_of_list_to_set.
      apply list_elem_of_bind. exists hop. split; [left | done].
    - apply chain_to_idx_lookup. left. rewrite enumerate_snd.
      apply elem_of_sorted, elem_of_list_to_set.
      apply list_elem_of_bind. exists hop. split; [right; left | done]. }
  apply (Forall2_Ok_length _ (fun e => length e.1 = 2%nat /\ length e.2 = 6%nat))
    in Hes as [Hes_len Hes_rows].
  2:{ intros hop e Hhop He.
      destruct (hop_edge_Ok chain_to_idx hop) as (e' & He' & Hl).
      - unfold hop_edge, dict_get in He. by destruct (chain_to_idx !! from_chain hop).
      - unfold hop_edge, dict_get in He.
        destruct (chain_to_idx !! from_chain hop); [| done].
        by destruct (chain_to_idx !! to_chain hop).
      - congruence. }
  assert (Hes_ne : es <> []).
  { intros ->. simpl in Hes_len. by destruct (hops route). }
  cbn [mbind result_bind].
  rewrite (torch_tensor_uniform _ (es.*1) 2).
  2:{ by destruct es. }
  2:{ apply Forall_fmap. eapply Forall_impl; [exact Hes_rows |]. by intros e [? _]. }
  cbn [mbind result_bind Tensor_t shape].
  rewrite (torch_tensor_uniform _ (es.*2) 6).
  2:{ by destruct es. }
  2:{ apply Forall_fmap. eapply Forall_impl; [exact Hes_rows |]. by intros e [_ ?]. }
  cbn [mbind result_bind].
  eexists. split; [reflexivity |]. simpl.
  rewrite !length_fmap, Hlen, Hes_len, Hchains. done.
Qed.

(** C1, as the program behaves: for every route whose hop list is empty,
    [create_graph_from_route] raises nothing; it returns the graph whose
    node-feature, edge-index and edge-attribute tensors are empty. *)
Theorem create_graph_from_route_no_hops (md : gmap string ChainMeta) (route : Route) :
  hops route = [] ->
  create_graph_from_route md route = Ok empty_graph.
Proof.
  intros Hhops. unfold create_graph_from_route. rewrite Hhops. reflexivity.
Qed.

Lemma create_graph_from_route_no_hops_witness :
  hops route_without_hops = [] /\
  create_graph_from_route chain_metadata_init route_without_hops = Ok empty_graph.
Proof.
  split; [reflexivity |].
  apply (create_graph_from_route_no_hops chain_metadata_init route_without_hops).
  reflexivity.
Defined.

(** C1 as stated fails: a route with an empty hop list for which building
    the graph returns a graph instead of raising. *)
Lemma create_graph_from_route_no_hops_returns :
  hops route_without_hops = [] /\
  ~ (exists e, create_graph_from_route chain_metadata_init route_without_hops = Err e).
Proof.
  split; [reflexivity |]. intros [e He]. vm_compute in He. discriminate He.
Qed.

(** Two hops between the same pair of chains are two edges. *)
Example create_graph_parallel_hops :
  let hop := mkHop "ethereum" "polkadot" "Native" (F64.of_Z 1) (F64.of_Z 1) in
  let route := mkRoute "ethereum" "polkadot" [hop; hop] F64.zero F64.zero F64.one in
  (fun g => (num_nodes g, num_edges g, data (edge_index g)))
    <$> create_graph_from_route chain_metadata_init route
  = Ok (2%nat, 2%nat, [0; 0; 1; 1]).
Proof. vm_compute. reflexivity. Qed.

(* ===================================================================== *)
(** * The order of floats                                                 *)
(* ===================================================================== *)

Lemma SFcompare_key (a b : spec_float) :
  is_nan a = false -> is_nan b = false ->
  exists c, SFcompare a b = Some c /\
    match c with
    | Lt => key_lt (float_key a) (float_key b)
    | Eq => float_key a = float_key b
    | Gt => key_lt (float_key b) (float_key a)
    end.
Proof.
  intros Ha Hb.
  destruct a as [sa|sa| |sa ma ea], b as [sb|sb| |sb mb eb];
    try discriminate; try destruct sa; try destruct sb;
    cbn [SFcompare float_key];
    try (eexists; split; [reflexivity |]; unfold key_lt; simpl; first [reflexivity | lia]).
  - destruct (Z.compare_spec ea eb) as [-> | Hlt | Hgt].
    + change (Pos.compare_cont Eq ma mb) with (Pos.compare ma mb).
      destruct (Pos.compare_spec ma mb) as [-> | Hm | Hm];
        (eexists; split; [reflexivity |]; unfold key_lt; simpl; first [reflexivity | lia]).
    + eexists; split; [reflexivity |]; unfold key_lt; simpl; lia.
    + eexists; split; [reflexivity |]; unfold key_lt; simpl; lia.
  - destruct (Z.compare_spec ea eb) as [-> | Hlt | Hgt].
    + change (Pos.compare_cont Eq ma mb) with (Pos.compare ma mb).
      destruct (Pos.compare_spec ma mb) as [-> | Hm | Hm];
        (eexists; split; [reflexivity |]; unfold key_lt; simpl; first [reflexivity | lia]).
    + eexists; split; [reflexivity |]; unfold key_lt; simpl; lia.
    + eexists; split; [reflexivity |]; unfold key_lt; simpl; lia.
Qed.

Lemma SFltb_key (a b : spec_float) :
  is_nan a = false -> is_nan b = false ->
  SFltb a b = true <-> key_lt (float_key a) (float_key b).
Proof.
  intros Ha Hb. destruct (SFcompare_key a b Ha Hb) as (c & Hc & Hkey).
  unfold SFltb. rewrite Hc. unfold key_lt in *.
  destruct c; split; try done; try lia.
  rewrite Hkey. lia.
Qed.

Lemma SFleb_key (a b : spec_float) :
  is_nan a = false -> is_nan b = false ->
  SFleb a b = true <-> key_le (float_key a) (float_key b).
Proof.
  intros Ha Hb. destruct (SFcompare_key a b Ha Hb) as (c & Hc & Hkey).
  unfold SFleb. rewrite Hc. unfold key_lt, key_le in *.
  destruct c; split; try done; try lia.
  rewrite Hkey. lia.
Qed.

Lemma SFltb_leb (a b : spec_float) : SFltb a b = true -> SFleb a b = true.
Proof. unfold SFltb, SFleb. by destruct (SFcompare a b) as [[]|]. Qed.

Lemma SFltb_false_leb (a b : spec_float) :
  is_nan a = false -> is_nan b = false -> SFltb a b = false -> SFleb b a = true.
Proof.
  intros Ha Hb Hlt. apply SFleb_key; [done.. |].
  assert (Hn : ~ key_lt (float_key a) (float_key b)).
  { intros Hk. apply SFltb_key in Hk; [congruence | done..]. }
  unfold key_lt, key_le in *. lia.
Qed.

Lemma SFleb_trans (a b c : spec_float) :
  is_nan a = false -> is_nan b = false -> is_nan c = false ->
  SFleb a b = true -> SFleb b c = true -> SFleb a c = true.
Proof.
  intros Ha Hb Hc Hab Hbc.
  apply SFleb_key in Hab; [| done..]. apply SFleb_key in Hbc; [| done..].
  apply SFleb_key; [done.. |]. unfold key_le in *. lia.
Qed.

Lemma SFleb_refl (a : spec_float) : is_nan a = false -> SFleb a a = true.
Proof. intros Ha. apply SFleb_key; [done.. |]. unfold key_le. lia. Qed.

(* ===================================================================== *)
(** * The descending stable sort                                          *)
(* ===================================================================== *)

Lemma head_sort_reverse {A} (key : A -> f64) (l : list A) :
  head (sort_reverse key l) = first_max key l.
Proof.
  induction l as [|a l IH]; [reflexivity |].
  cbn [first_max]. rewrite <- IH.
  change (sort_reverse key (a :: l)) with (insert_reverse key a (sort_reverse key l)).
  destruct (sort_reverse key l) as [|b k]; [reflexivity |].
  cbn [insert_reverse head]. by destruct (key a <? key b)%f64.
Qed.

(** A list in which no key is smaller than the key after it is left as it
    is, whatever the keys are.  Python's sort leaves such a list as it is
    too: it reverses the list, finds it to be one run in which no element
    is smaller than the one before it, and reverses it back. *)
Lemma sort_reverse_run {A} (key : A -> f64) (l : list A) :
  (forall i a b, l !! i = Some a -> l !! S i = Some b -> (key a <? key b)%f64 = false) ->
  sort_reverse key l = l.
Proof.
  induction l as [|a l IH]; intros Hrun; [reflexivity |].
  change (sort_reverse key (a :: l)) with (insert_reverse key a (sort_reverse key l)).
  rewrite IH by (intros i b c Hb Hc; exact (Hrun (S i) b c Hb Hc)).
  destruct l as [|b l]; [reflexivity |].
  cbn [insert_reverse]. by rewrite (Hrun 0%nat a b eq_refl eq_refl).
Qed.

Lemma first_max_spec {A} (key : A -> f64) (l : list A) :
  l <> [] -> Forall (fun a => is_nan (key a) = false) l ->
  exists (i : nat) (a : A),
    first_max key l = Some a /\ l !! i = Some a /\
    (forall j b, l !! j = Some b -> (key b <=? key a)%f64 = true) /\
    (forall j b, (j < i)%nat -> l !! j = Some b -> (key b <? key a)%f64 = true).
Proof.
  induction l as [|a l IH]; [done |]. intros _ Hnan.
  apply Forall_cons in Hnan as [Ha Hl].
  destruct l as [|a' l'].
  - exists 0%nat, a. repeat split; [| intros; lia].
    intros [|j] b Hb; [| done]. injection Hb as <-. by apply SFleb_refl.
  - destruct IH as (i & b & Hmax & Hi & Hle & Hlt); [done | done |].
    rewrite Forall_forall in Hl.
    assert (Hb : is_nan (key b) = false).
    { apply Hl. eapply list_elem_of_lookup_2. exact Hi. }
    cbn [first_max] in *. rewrite Hmax.
    destruct (key a <? key b)%f64 eqn:Hab.
    + exists (S i), b. repeat split; [done | |].
      * intros [|j] c Hc; [injection Hc as <-; by apply SFltb_leb |].
        by apply (Hle j).
      * intros [|j] c Hj Hc; [by injection Hc as <- |].
        apply (Hlt j); [lia | done].
    + exists 0%nat, a. repeat split; [| intros; lia].
      intros [|j] c Hc; [injection Hc as <-; by apply SFleb_refl |].
      apply (SFleb_trans _ (key b)); [| done.. | by apply (Hle j) |].
      * apply Hl. eapply list_elem_of_lookup_2. exact Hc.
      * by apply SFltb_false_leb.
Qed.

(* ===================================================================== *)
(** * The scorer and the selector                                         *)
(* ===================================================================== *)

Section OptimizerFacts.
Context `{Torch}.

Lemma dropout_inference (x : Tensor f32) (w : World) :
training (model (self w)) = false -> dropout x w = (Ok x, w).
Proof. intros Hmode. unfold dropout. by rewrite Hmode. Qed.

Lemma forward_in_inference x edge_index edge_attr batch (w : World) :
training (model (self w)) = false ->
forward x edge_index edge_attr batch w
= (forward_inference (model (self w)) x edge_index batch, w).
Proof.
intros Hmode.
unfold forward, forward_inference, mbind, M_bind, result_bind, get_model,
  lift, mret, M_ret.
repeat first
  [ rewrite dropout_inference by exact Hmode
  | match goal with
    | |- context [match ?r with Ok _ => _ | Err _ => _ end] =>
        is_var r + destruct r
    end ]; reflexivity.
Qed.

Lemma score_route_eq (route : Route) (w : World) :
score_route route w = (score_inference (self w) route, set_training false w).
Proof.
unfold score_route, score_inference, score_graph.
unfold mbind, M_bind, result_bind, model_eval, get_chain_metadata, lift.
change (chain_metadata (self (set_training false w))) with (chain_metadata (self w)).
destruct (create_graph_from_route _ route) as [graph|e]; [| reflexivity].
destruct (size0 (x graph)) as [n|e]; [| reflexivity].
rewrite forward_in_inference by reflexivity.
change (model (self (set_training false w))) with (with_training false (model (self w))).
change (forward_inference (with_training false (model (self w))))
  with (forward_inference (model (self w))).
destruct (forward_inference _ _ _ _); reflexivity.
Qed.

(** The scoring loop of [optimize_route] returns the candidates paired
  with their inference scores and leaves the model in inference mode. *)
Lemma score_all (routes : list Route) (scores : list f64) (w : World) :
Forall2 (fun route score => score_inference (self w) route = Ok score) routes scores ->
mapM (fun route => score ← score_route route; mret (score, route)) routes w
= (Ok (zip scores routes), if routes is [] then w else set_training false w).
Proof.
intros Hall. revert w Hall.
induction routes as [|route routes IH] in scores |- *; intros w Hall.
- inversion Hall; subst. reflexivity.
- inversion Hall as [|? score ? scores' Hscore Hrest]; subst.
  cbn [mapM]. unfold mbind at 1, M_bind at 1.
  unfold mbind at 1, M_bind at 1. rewrite score_route_eq, Hscore.
  cbn [mret M_ret].
  unfold mbind at 1, M_bind at 1.
  rewrite (IH scores' (set_training false w)) by exact Hrest.
  cbn [mret M_ret zip zip_with]. by destruct routes.
Qed.

Lemma dropout_self (x : Tensor f32) (w : World) : self (dropout x w).2 = self w.
Proof.
unfold dropout. destruct (training _); [| reflexivity].
by destruct (dropout_sample _ _ _).
Qed.

Lemma bind_self {A B} (m : M A) (f : A -> M B) (w : World) :
(forall w', self (m w').2 = self w') ->
(forall a w', self (f a w').2 = self w') ->
self ((m ≫= f) w).2 = self w.
Proof.
intros Hm Hf. unfold mbind, M_bind. specialize (Hm w).
destruct (m w) as [[a|e] w1]; cbn [snd] in *; [| done].
by rewrite Hf.
Qed.

(** The forward pass changes nothing of the optimizer, in either mode:
  only the random generator advances. *)
Lemma forward_self x edge_index edge_attr batch (w : World) :
self (forward x edge_index edge_attr batch w).2 = self w.
Proof.
unfold forward.
repeat first
  [ apply bind_self; [intros ? | intros ? ?]
  | apply dropout_self
  | reflexivity ].
Qed.

(** C2: two calls of [score_route] on the same route return the same
    result, whatever the mode of the model and the state of the random
    generator were before the call: [score_route] switches to inference
    mode, where dropout is the identity, and its result is the inference
    score of the graph built from the route, a function of the parameters
    and of the graph. *)
Theorem score_route_deterministic (route : Route) (w : World) :
  (score_route route (score_route route w).2).1 = (score_route route w).1 /\
  (forall (mode : bool) (g : Generator),
     (score_route route (mkWorld (self (set_training mode w)) g)).1
     = (score_route route w).1) /\
  (score_route route w).1
  = create_graph_from_route (chain_metadata (self w)) route ≫= score_graph (model (self w)).
Proof.
  rewrite !score_route_eq. cbn [fst snd].
  split; [reflexivity |]. split; [| reflexivity].
  intros mode g. rewrite score_route_eq. reflexivity.
Qed.

(** C3: the forward pass does not read [edge_attr]; two routes whose graphs
    have the same node features and the same connectivity get the same
    score under the same parameters and mode, whatever their edge
    features. *)
Theorem score_route_ignores_edge_features (w : World) (route1 route2 : Route)
    (graph1 graph2 : Data) :
  create_graph_from_route (chain_metadata (self w)) route1 = Ok graph1 ->
  create_graph_from_route (chain_metadata (self w)) route2 = Ok graph2 ->
  x graph1 = x graph2 ->
  edge_index graph1 = edge_index graph2 ->
  (forall batch attr1 attr2 w',
     forward (x graph1) (edge_index graph1) attr1 batch w'
     = forward (x graph2) (edge_index graph2) attr2 batch w') /\
  score_route route1 w = score_route route2 w.
Proof.
  intros Hg1 Hg2 Hx Hei. split.
  - intros batch attr1 attr2 w'. rewrite Hx, Hei. reflexivity.
  - rewrite !score_route_eq. f_equal.
    unfold score_inference, score_graph. rewrite Hg1, Hg2.
    cbn [mbind result_bind]. by rewrite Hx, Hei.
Qed.

(** C4, as the program behaves: for two or more candidates whose scores
    are numbers (none is NaN), [optimize_route] returns the first
    candidate, in input order, whose score no other score exceeds: every
    score is at most its score and every earlier score is strictly
    smaller. *)
Theorem optimize_route_first_maximum (w : World) (routes : list Route)
    (scores : list f64) :
  (2 <= length routes)%nat ->
  Forall2 (fun route score =>
             (score_route route w).1 = Ok score /\ is_nan score = false)
          routes scores ->
  exists (i : nat) (route : Route) (score : f64),
    (optimize_route routes w).1 = Ok route /\
    routes !! i = Some route /\ scores !! i = Some score /\
    (forall j s, scores !! j = Some s -> (s <=? score)%f64 = true) /\
    (forall j s, (j < i)%nat -> scores !! j = Some s -> (s <? score)%f64 = true).
Proof.
  intros Hlen Hall.
  assert (Hlen2 : length scores = length routes).
  { symmetry. eapply Forall2_length. exact Hall. }
  assert (Hscores : Forall2 (fun route score => score_inference (self w) route = Ok score)
                            routes scores).
  { eapply Forall2_impl; [exact Hall |]. intros route score [Hs _].
    by rewrite score_route_eq in Hs. }
  assert (Hnan : Forall (fun p : f64 * Route => is_nan p.1 = false) (zip scores routes)).
  { apply Forall_forall. intros [s r] Hin.
    apply list_elem_of_lookup in Hin as [j Hj].
    apply lookup_zip_with_Some in Hj as (s' & r' & [= <- <-] & Hs & Hr).
    destruct (Forall2_lookup_lr _ _ _ _ _ _ Hall Hr Hs) as [_ Hn]. exact Hn. }
  destruct (first_max_spec fst (zip scores routes)) as (i & [s r] & Hmax & Hi & Hle & Hlt).
  { destruct routes as [|r1 routes]; [simpl in Hlen; lia |].
    destruct scores as [|s1 scores]; [simpl in Hlen2; lia | done]. }
  { exact Hnan. }
  apply lookup_zip_with_Some in Hi as (s' & r' & [= <- <-] & Hs & Hr).
  exists i, r, s. repeat split; [| done | done | |].
  - destruct routes as [|r1 [|r2 routes]]; [simpl in Hlen; lia.. |].
    pose proof (head_sort_reverse fst (zip scores (r1 :: r2 :: routes))) as Hhead.
    rewrite Hmax in Hhead.
    unfold optimize_route. unfold mbind at 1, M_bind at 1.
    rewrite (score_all _ scores) by exact Hscores.
    destruct (sort_reverse fst _) as [|[s' r'] k]; [discriminate Hhead |].
    by injection Hhead as -> ->.
  - intros j s0 Hs0.
    destruct (lookup_lt_is_Some_2 routes j) as [r0 Hr0].
    { rewrite <- Hlen2. eapply lookup_lt_Some. exact Hs0. }
    apply (Hle j (s0, r0)). apply lookup_zip_with_Some. by exists s0, r0.
  - intros j s0 Hj Hs0.
    destruct (lookup_lt_is_Some_2 routes j) as [r0 Hr0].
    { rewrite <- Hlen2. eapply lookup_lt_Some. exact Hs0. }
    apply (Hlt j (s0, r0)); [done |]. apply lookup_zip_with_Some. by exists s0, r0.
Qed.

(** C8: [optimize_route] on the empty list raises the input error; no
    route is scored and the optimizer is left as it was. *)
Theorem optimize_route_empty (w : World) :
  optimize_route [] w = (Err (ValueError "No routes provided"), w).
Proof. unfold optimize_route, raise. reflexivity. Qed.

(** C9: [optimize_route] on a one-element list returns the route and
    leaves the world as it was: no score is computed, the model is not
    switched to inference mode, and the result is the same for all
    parameters, modes and generator states. *)
Theorem optimize_route_singleton (route : Route) (w : World) :
  optimize_route [route] w = (Ok route, w) /\
  (forall w' : World, (optimize_route [route] w').1 = (optimize_route [route] w).1).
Proof.
  unfold optimize_route, mret, M_ret. split.
  - reflexivity.
  - intros w'. reflexivity.
Qed.

(** Scoring, by contrast, always leaves the model in inference mode. *)
Lemma score_route_sets_inference (route : Route) (w : World) :
  training (model (self (score_route route w).2)) = false.
Proof. rewrite score_route_eq. reflexivity. Qed.

(** The forward pass in training mode draws three dropout masks: when it
    returns, the random generator has advanced by three draws. *)
Lemma forward_training_generator x edge_index edge_attr batch (w w1 : World)
    (out : Tensor f32) :
  training (model (self w)) = true ->
  forward x edge_index edge_attr batch w = (Ok out, w1) ->
  exists x1 x2 x3 : Tensor f32,
    generator w1
    = (dropout_sample (dropout_p (model (self w))) x3
         (dropout_sample (dropout_p (model (self w))) x2
            (dropout_sample (dropout_p (model (self w))) x1 (generator w)).2).2).2.
Proof.
  intros Hmode. unfold forward, get_model, lift, dropout.
  unfold mbind, M_bind, mret, M_ret.
  destruct (GCNConv_forward (conv1 (model (self w))) x edge_index) as [a1|e];
    [| discriminate].
  rewrite Hmode.
  destruct (dropout_sample _ (F_relu a1) (generator w)) as [y1 g1] eqn:Hd1.
  cbn [self generator].
  destruct (GCNConv_forward (conv2 (model (self w))) y1 edge_index) as [a2|e];
    [| discriminate].
  rewrite Hmode.
  destruct (dropout_sample _ (F_relu a2) g1) as [y2 g2] eqn:Hd2.
  cbn [self generator].
  destruct (GCNConv_forward (conv3 (model (self w))) y2 edge_index) as [a3|e];
    [| discriminate].
  destruct (global_mean_pool (F_relu a3) batch) as [a4|e]; [| discriminate].
  destruct (Linear_forward (fc1 (model (self w))) a4) as [a5|e]; [| discriminate].
  rewrite Hmode.
  destruct (dropout_sample _ (F_relu a5) g2) as [y3 g3] eqn:Hd3.
  cbn [self generator].
  destruct (Linear_forward (fc2 (model (self w))) y3) as [a6|e]; [| discriminate].
  intros [= _ <-]. cbn [generator].
  exists (F_relu a1), (F_relu a2), (F_relu a5).
  rewrite Hd1. cbn [snd]. rewrite Hd2. cbn [snd]. rewrite Hd3. reflexivity.
Qed.

(** C10, as the program behaves: [train_step] returns the
    mean-squared-error loss of the predictions and updates no parameter;
    it changes the state in two ways: the model is switched to training
    mode, and the forward pass, run in training mode, draws its dropout
    masks from the random generator, three of them when a loss is
    returned. *)
Theorem train_step_leaves_parameters (batch_graphs : list Data)
    (labels : Tensor f32) (w : World) :
  let w' := (train_step batch_graphs labels w).2 in
  self w' = self (set_training true w) /\
  state_dict (model (self w')) = state_dict (model (self w)) /\
  training (model (self w')) = true /\
  (forall loss : f64,
     (train_step batch_graphs labels w).1 = Ok loss <->
     exists batch predictions w1 l,
       Batch_from_data_list batch_graphs = Ok batch /\
       forward (x (batch_data batch)) (edge_index (batch_data batch))
               (edge_attr (batch_data batch)) (batch_batch batch)
               (set_training true w) = (Ok predictions, w1) /\
       F_mse_loss (squeeze predictions) labels = Ok l /\
       item l = Ok loss) /\
  (forall loss : f64,
     (train_step batch_graphs labels w).1 = Ok loss ->
     exists x1 x2 x3 : Tensor f32,
       generator w'
       = (dropout_sample (dropout_p (model (self w))) x3
            (dropout_sample (dropout_p (model (self w))) x2
               (dropout_sample (dropout_p (model (self w))) x1 (generator w)).2).2).2) /\
  (forall e : exn,
     Batch_from_data_list batch_graphs = Err e -> generator w' = generator w).
Proof.
  assert (Hself : self (train_step batch_graphs labels w).2 = self (set_training true w)).
  { unfold train_step. unfold mbind at 1, M_bind at 1, model_train.
    apply (bind_self _ _ (set_training true w)); [reflexivity |].
    intros batch w1. apply bind_self; [apply forward_self |].
    intros predictions w2. apply bind_self; reflexivity. }
  cbn zeta. rewrite Hself. split; [reflexivity |]. split; [reflexivity |].
  split; [reflexivity |].
  unfold train_step.
  unfold mbind, M_bind, model_train, lift.
  destruct (Batch_from_data_list batch_graphs) as [batch|e]; cbn [fst snd].
  - destruct (forward _ _ _ _ _) as [[predictions|e] w1] eqn:Hfwd; cbn [fst snd].
    + assert (Hgen : exists x1 x2 x3 : Tensor f32,
                generator w1
                = (dropout_sample (dropout_p (model (self w))) x3
                     (dropout_sample (dropout_p (model (self w))) x2
                        (dropout_sample (dropout_p (model (self w))) x1
                           (generator w)).2).2).2).
      { apply (forward_training_generator _ _ _ _ (set_training true w) _ _ eq_refl) in Hfwd.
        exact Hfwd. }
      destruct (F_mse_loss _ labels) as [l|e] eqn:Hloss; cbn [fst snd].
      * split; [| split; [intros loss _; exact Hgen | discriminate]].
        intros loss. split.
        -- intros Hitem. by exists batch, predictions, w1, l.
        -- intros (batch' & predictions' & w1' & l' & [= <-] & Hf & Hl & Hitem).
           rewrite Hfwd in Hf. injection Hf as <- <-. congruence.
      * split; [| split; [discriminate | discriminate]].
        intros loss. split; [done |].
        intros (batch' & predictions' & w1' & l' & [= <-] & Hf & Hl & Hitem).
        rewrite Hfwd in Hf. injection Hf as <- <-. congruence.
    + split; [| split; [discriminate | discriminate]].
      intros loss. split; [done |].
      intros (batch' & predictions' & w1' & l' & [= <-] & Hf & _).
      rewrite Hfwd in Hf. discriminate Hf.
  - split; [| split; [discriminate | reflexivity]].
    intros loss. split; [done |]. by intros (batch' & ? & ? & ? & [=] & _).
Qed.

End OptimizerFacts.

(** ** The theorems on the example routes *)

Lemma score_route_ignores_edge_features_witness :
  edge_attr demo_graph_one_hop <> edge_attr demo_graph_one_hop_relay /\
  @score_route example_torch demo_route_one_hop (example_world true)
  = @score_route example_torch demo_route_one_hop_relay (example_world true).
Proof.
  split; [vm_compute; discriminate |].
  apply (@score_route_ignores_edge_features example_torch (example_world true)
           demo_route_one_hop demo_route_one_hop_relay
           demo_graph_one_hop demo_graph_one_hop_relay);
    vm_compute; reflexivity.
Defined.

Lemma optimize_route_first_maximum_witness :
  exists (i : nat) (route : Route) (score : f64),
    (@optimize_route example_torch
       [demo_route_one_hop; demo_route_two_hops; demo_route_one_hop_relay]
       (example_world true)).1 = Ok route /\
    [demo_route_one_hop; demo_route_two_hops; demo_route_one_hop_relay] !! i = Some route /\
    example_scores !! i = Some score /\
    (forall j s, example_scores !! j = Some s -> (s <=? score)%f64 = true) /\
    (forall j s, (j < i)%nat -> example_scores !! j = Some s -> (s <? score)%f64 = true).
Proof.
  apply (@optimize_route_first_maximum example_torch (example_world true)
           [demo_route_one_hop; demo_route_two_hops; demo_route_one_hop_relay]
           example_scores).
  - simpl. lia.
  - repeat constructor; vm_compute; reflexivity.
Defined.

(** C10 as stated fails: switching the model to training mode is not the
    only state effect of [train_step].  On the example network, whose
    generator counts its draws, a call that returns a loss leaves the
    generator at 3, where the switch of the mode alone leaves it at 0. *)
Lemma train_step_advances_generator :
  (@train_step example_torch [demo_graph_one_hop] (mkTensor [1%nat] [F32.zero])
     (example_world false)).1 = Ok F64.zero /\
  @generator example_torch
    (@train_step example_torch [demo_graph_one_hop] (mkTensor [1%nat] [F32.zero])
       (example_world false)).2 = 3%nat /\
  @generator example_torch (@set_training example_torch true (example_world false)) = 0%nat.
Proof. repeat split; vm_compute; reflexivity. Qed.

(** C4 as stated fails when a score is NaN.  With mean pooling the route
    without hops scores NaN; between the one-hop route and the two-hop
    route, which scores more, it makes [optimize_route] return the
    one-hop route.  The sort compares NaN as neither smaller nor larger:
    in the reversed list no score is smaller than the one before it, so
    Python's sort leaves the list as it is, as the insertion sort does. *)
Lemma optimize_route_nan_score :
  (@score_route example_torch_mean demo_route_one_hop example_world_mean).1
  = Ok (S754_finite false 5506776212439040 (-51)) /\
  (@score_route example_torch_mean route_without_hops example_world_mean).1
  = Ok S754_nan /\
  (@score_route example_torch_mean demo_route_two_hops example_world_mean).1
  = Ok (S754_finite false 5540553445867520 (-51)) /\
  (S754_finite false 5506776212439040 (-51)
   <? S754_finite false 5540553445867520 (-51))%f64 = true /\
  (@optimize_route example_torch_mean
     [demo_route_one_hop; route_without_hops; demo_route_two_hops]
     example_world_mean).1 = Ok demo_route_one_hop.
Proof. repeat split; vm_compute; reflexivity. Qed.

(** Two candidates with the same score: the one given first is returned. *)
Example optimize_route_tie :
  (@optimize_route example_torch [demo_route_one_hop; demo_route_one_hop_relay]
     (example_world true)).1 = Ok demo_route_one_hop /\
  (@optimize_route example_torch [demo_route_one_hop_relay; demo_route_one_hop]
     (example_world true)).1 = Ok demo_route_one_hop_relay.
Proof. split; vm_compute; reflexivity. Qed.

(* ===================================================================== *)
(** * Rounding to nearest even, on integers                               *)
(* ===================================================================== *)

(** The number of binary digits of a natural number. *)
Lemma digits2_pos_bounds (p : positive) :
  2 ^ (Z.pos (digits2_pos p) - 1) <= Z.pos p < 2 ^ Z.pos (digits2_pos p).
Proof.
  induction p as [p IH | p IH |]; cbn [digits2_pos].
  - rewrite Pos2Z.inj_succ.
    replace (Z.succ (Z.pos (digits2_pos p)) - 1) with (Z.succ (Z.pos (digits2_pos p) - 1)) by lia.
    rewrite !Z.pow_succ_r by lia. lia.
  - rewrite Pos2Z.inj_succ.
    replace (Z.succ (Z.pos (digits2_pos p)) - 1) with (Z.succ (Z.pos (digits2_pos p) - 1)) by lia.
    rewrite !Z.pow_succ_r by lia. lia.
  - simpl. lia.
Qed.

Lemma Zdigits2_bounds (m : Z) :
  0 < m -> 2 ^ (Zdigits2 m - 1) <= m < 2 ^ Zdigits2 m.
Proof. destruct m as [|p|p]; [lia | | lia]. intros _. apply digits2_pos_bounds. Qed.

Lemma Zdigits2_pos (m : Z) : 0 < m -> 0 < Zdigits2 m.
Proof. destruct m; simpl; lia. Qed.

Lemma Zdigits2_nonneg (m : Z) : 0 <= Zdigits2 m.
Proof. destruct m; simpl; lia. Qed.

(** The digits are determined by the power-of-two bracket. *)
Lemma Zdigits2_unique (m d : Z) :
  2 ^ (d - 1) <= m < 2 ^ d -> 0 < d -> Zdigits2 m = d.
Proof.
  intros [Hlo Hhi] Hd.
  assert (Hm : 0 < m).
  { assert (0 < 2 ^ (d - 1)) by (apply Z.pow_pos_nonneg; lia). lia. }
  pose proof (Zdigits2_bounds m Hm) as [Hlo' Hhi'].
  pose proof (Zdigits2_pos m Hm) as Hd'.
  destruct (Z.lt_trichotomy (Zdigits2 m) d) as [Hlt | [Heq | Hgt]]; [| exact Heq |].
  - assert (2 ^ Zdigits2 m <= 2 ^ (d - 1)) by (apply Z.pow_le_mono_r; lia). lia.
  - assert (2 ^ d <= 2 ^ (Zdigits2 m - 1)) by (apply Z.pow_le_mono_r; lia). lia.
Qed.

Lemma Zdigits2_mono (m1 m2 : Z) : 0 < m1 -> m1 <= m2 -> Zdigits2 m1 <= Zdigits2 m2.
Proof.
  intros H1 H12.
  pose proof (Zdigits2_bounds m1 H1) as [Hlo1 _].
  pose proof (Zdigits2_bounds m2 ltac:(lia)) as [_ Hhi2].
  destruct (Z_le_gt_dec (Zdigits2 m1) (Zdigits2 m2)) as [|Hgt]; [done |].
  assert (2 ^ Zdigits2 m2 <= 2 ^ (Zdigits2 m1 - 1)) by (apply Z.pow_le_mono_r; lia).
  lia.
Qed.

Lemma Zdigits2_mul_pow2 (m k : Z) :
  0 < m -> 0 <= k -> Zdigits2 (m * 2 ^ k) = Zdigits2 m + k.
Proof.
  intros Hm Hk. pose proof (Zdigits2_bounds m Hm) as [Hlo Hhi].
  pose proof (Zdigits2_pos m Hm) as Hd.
  assert (Hk2 : 0 < 2 ^ k) by (apply Z.pow_pos_nonneg; lia).
  apply Zdigits2_unique; [| lia].
  replace (Zdigits2 m + k - 1) with (Zdigits2 m - 1 + k) by lia.
  rewrite !Z.pow_add_r by lia. nia.
Qed.

Lemma rne_0 (m : Z) : rne m 0 = m.
Proof.
  unfold rne. rewrite Z.pow_0_r, Z.div_1_r, Z.mod_1_r. reflexivity.
Qed.

Lemma rne_bounds (m n : Z) : 0 <= n -> m / 2 ^ n <= rne m n <= m / 2 ^ n + 1.
Proof. intros Hn. unfold rne. repeat case_match; lia. Qed.

Lemma rne_exact (m n : Z) : 0 <= n -> m mod 2 ^ n = 0 -> rne m n = m / 2 ^ n.
Proof.
  intros Hn Hm. unfold rne. rewrite Hm.
  assert (0 < 2 ^ n) by (apply Z.pow_pos_nonneg; lia).
  by replace (2 * 0 <? 2 ^ n) with true by (symmetry; apply Z.ltb_lt; lia).
Qed.

Lemma rne_mul_pow2 (m n : Z) : 0 <= n -> rne (m * 2 ^ n) n = m.
Proof.
  intros Hn. assert (0 < 2 ^ n) by (apply Z.pow_pos_nonneg; lia).
  rewrite rne_exact; [| done | by apply Z.mod_mul; lia].
  apply Z.div_mul. lia.
Qed.

(** Rounding never crosses a point of the grid. *)
Lemma rne_ge_grid (m n g : Z) : 0 <= n -> g * 2 ^ n <= m -> g <= rne m n.
Proof.
  intros Hn Hg. assert (0 < 2 ^ n) by (apply Z.pow_pos_nonneg; lia).
  pose proof (rne_bounds m n Hn).
  assert (g <= m / 2 ^ n) by (apply Z.div_le_lower_bound; lia). lia.
Qed.

Lemma rne_le_grid (m n g : Z) : 0 <= n -> m <= g * 2 ^ n -> rne m n <= g.
Proof.
  intros Hn Hg. assert (Hp : 0 < 2 ^ n) by (apply Z.pow_pos_nonneg; lia).
  unfold rne.
  pose proof (Z.div_mod m (2 ^ n) ltac:(lia)) as Hdm.
  pose proof (Z.mod_pos_bound m (2 ^ n) Hp) as Hmod.
  assert (Hq : m / 2 ^ n <= g).
  { apply Z.div_le_upper_bound; [lia |]. lia. }
  destruct (Z.eq_dec (m mod 2 ^ n) 0) as [H0 | Hne].
  - rewrite H0.
    replace (2 * 0 <? 2 ^ n) with true by (symmetry; apply Z.ltb_lt; lia). lia.
  - assert (m / 2 ^ n < g) by nia.
    repeat case_match; lia.
Qed.

Lemma rne_mono (m1 m2 n : Z) : 0 <= n -> m1 <= m2 -> rne m1 n <= rne m2 n.
Proof.
  intros Hn H12. assert (Hp : 0 < 2 ^ n) by (apply Z.pow_pos_nonneg; lia).
  pose proof (Z.div_le_mono m1 m2 (2 ^ n) Hp H12) as Hq.
  destruct (Z.eq_dec (m1 / 2 ^ n) (m2 / 2 ^ n)) as [Heq | Hne].
  - pose proof (Z.div_mod m1 (2 ^ n) ltac:(lia)) as Hdm1.
    pose proof (Z.div_mod m2 (2 ^ n) ltac:(lia)) as Hdm2.
    assert (Hr : m1 mod 2 ^ n <= m2 mod 2 ^ n) by (rewrite Heq in Hdm1; lia).
    unfold rne. rewrite Heq.
    repeat case_match;
      repeat match goal with
             | H : (_ <? _) = true |- _ => apply Z.ltb_lt in H
             | H : (_ <? _) = false |- _ => apply Z.ltb_ge in H
             end; lia.
  - pose proof (rne_bounds m1 n Hn). pose proof (rne_bounds m2 n Hn). lia.
Qed.

(** Shifting the number and the position together changes nothing. *)
Lemma rne_shift (m n k : Z) : 0 <= n -> 0 <= k -> rne (m * 2 ^ k) (n + k) = rne m n.
Proof.
  intros Hn Hk.
  assert (Hpn : 0 < 2 ^ n) by (apply Z.pow_pos_nonneg; lia).
  assert (Hpk : 0 < 2 ^ k) by (apply Z.pow_pos_nonneg; lia).
  assert (Hq : (m * 2 ^ k) / 2 ^ (n + k) = m / 2 ^ n).
  { rewrite Z.pow_add_r by lia. apply Z.div_mul_cancel_r; lia. }
  assert (Hr : (m * 2 ^ k) mod 2 ^ (n + k) = (m mod 2 ^ n) * 2 ^ k).
  { rewrite Z.pow_add_r by lia. apply Z.mul_mod_distr_r; lia. }
  unfold rne. rewrite Hq, Hr. rewrite Z.pow_add_r by lia.
  pose proof (Z.mod_pos_bound m (2 ^ n) Hpn) as Hmod.
  destruct (Z.ltb_spec (2 * (m mod 2 ^ n)) (2 ^ n));
    destruct (Z.ltb_spec (2 * (m mod 2 ^ n * 2 ^ k)) (2 ^ n * 2 ^ k)); try nia;
    destruct (Z.ltb_spec (2 ^ n) (2 * (m mod 2 ^ n)));
    destruct (Z.ltb_spec (2 ^ n * 2 ^ k) (2 * (m mod 2 ^ n * 2 ^ k))); try nia;
    reflexivity.
Qed.

(* ===================================================================== *)
(** * The shift-and-round of [SpecFloat]                                  *)
(* ===================================================================== *)

Lemma shr_state_0 (M : Z) : shr_state M 0 = Build_shr_record M false false.
Proof.
  unfold shr_state. rewrite Z.pow_0_r, Z.div_1_r, Z.mod_1_r.
  rewrite Z.testbit_even_0. reflexivity.
Qed.

Lemma shr_1_spec (m : Z) (r s : bool) :
  0 <= m ->
  shr_1 (Build_shr_record m r s) = Build_shr_record (Z.div2 m) (Z.odd m) (r || s).
Proof. intros Hm. destruct m as [|[p|p|]|p]; try reflexivity; lia. Qed.

Lemma low_bits_succ (X k : Z) :
  0 <= k -> X mod 2 ^ (k + 1) = X mod 2 ^ k + 2 ^ k * Z.b2z (Z.testbit X k).
Proof.
  intros Hk. assert (Hp : 0 < 2 ^ k) by (apply Z.pow_pos_nonneg; lia).
  rewrite Z.pow_add_r, Z.pow_1_r by lia.
  rewrite Z.rem_mul_r by lia. f_equal. f_equal.
  rewrite Z.testbit_spec' by lia. reflexivity.
Qed.

Lemma shr_1_state (M k : Z) :
  0 <= M -> 0 <= k -> shr_1 (shr_state M k) = shr_state M (k + 1).
Proof.
  intros HM Hk. assert (Hp : 0 < 2 ^ k) by (apply Z.pow_pos_nonneg; lia).
  unfold shr_state. rewrite shr_1_spec by (apply Z.div_pos; lia).
  f_equal.
  - rewrite Z.div2_div, Z.div_div by lia.
    by rewrite Z.pow_add_r, Z.pow_1_r by lia.
  - replace (k + 1) with (Z.succ k) by lia.
    rewrite Z.double_bits_succ.
    rewrite (Z.testbit_odd M k), Z.shiftr_div_pow2 by lia. reflexivity.
  - rewrite low_bits_succ by lia.
    pose proof (Z.mod_pos_bound (2 * M) (2 ^ k) Hp) as Hmod.
    destruct (Z.testbit (2 * M) k); cbn [Z.b2z orb].
    + symmetry. apply negb_true_iff, Z.eqb_neq. lia.
    + by rewrite Z.mul_0_r, Z.add_0_r.
Qed.

Lemma iter_pos_shr_1 (p : positive) (M k : Z) :
  0 <= M -> 0 <= k ->
  SpecFloat.iter_pos shr_1 p (shr_state M k) = shr_state M (k + Z.pos p).
Proof.
  intros HM. revert k. induction p as [p IH | p IH |]; intros k Hk; cbn [SpecFloat.iter_pos].
  - rewrite shr_1_state, !IH by lia. f_equal. lia.
  - rewrite !IH by lia. f_equal. lia.
  - by apply shr_1_state.
Qed.

Lemma shr_exact (m e n : Z) :
  0 <= m ->
  shr (Build_shr_record m false false) e n
  = (shr_state m (Z.max 0 n), e + Z.max 0 n).
Proof.
  intros Hm. unfold shr. destruct n as [|p|p].
  - by rewrite shr_state_0, Z.add_0_r.
  - rewrite <- shr_state_0, iter_pos_shr_1 by lia.
    replace (Z.max 0 (Z.pos p)) with (Z.pos p) by lia. reflexivity.
  - replace (Z.max 0 (Z.neg p)) with 0 by lia.
    by rewrite shr_state_0, Z.add_0_r.
Qed.

Lemma round_shr_state (m n : Z) :
  0 <= m -> 0 <= n ->
  round_nearest_even (shr_m (shr_state m n)) (loc_of_shr_record (shr_state m n))
  = rne m n.
Proof.
  intros Hm Hn. assert (Hp : 0 < 2 ^ n) by (apply Z.pow_pos_nonneg; lia).
  unfold shr_state, rne. cbn [shr_m loc_of_shr_record].
  assert (Hr2 : 2 * (m mod 2 ^ n)
                = (2 * m) mod 2 ^ n + 2 ^ n * Z.b2z (Z.testbit (2 * m) n)).
  { rewrite <- low_bits_succ by lia.
    rewrite Z.pow_add_r, Z.pow_1_r by lia.
    rewrite (Z.mul_comm (2 ^ n) 2). by rewrite Z.mul_mod_distr_l by lia. }
  rewrite Hr2.
  pose proof (Z.mod_pos_bound (2 * m) (2 ^ n) Hp) as Hmod.
  destruct (Z.testbit (2 * m) n); cbn [Z.b2z];
    destruct (Z.eqb_spec ((2 * m) mod 2 ^ n) 0) as [H0 | Hne]; cbn [negb round_nearest_even].
  - rewrite H0.
    replace (0 + 2 ^ n * 1 <? 2 ^ n) with false by (symmetry; apply Z.ltb_ge; lia).
    replace (2 ^ n <? 0 + 2 ^ n * 1) with false by (symmetry; apply Z.ltb_ge; lia).
    reflexivity.
  - replace (_ <? 2 ^ n) with false by (symmetry; apply Z.ltb_ge; lia).
    replace (2 ^ n <? _) with true by (symmetry; apply Z.ltb_lt; lia).
    reflexivity.
  - replace (_ <? 2 ^ n) with true by (symmetry; apply Z.ltb_lt; lia).
    reflexivity.
  - replace (_ <? 2 ^ n) with true by (symmetry; apply Z.ltb_lt; lia).
    reflexivity.
Qed.

Section Rounding.
Context {fmt : Format}.

Let Hprec : 0 < prec := prec_pos.
Let Hemax : prec < emax := prec_lt_emax.

Local Abbreviation emin := (SpecFloat.emin prec emax).
Local Abbreviation fexp := (SpecFloat.fexp prec emax).

Lemma shr_fexp_exact (m e : Z) :
  0 <= m ->
  shr_fexp prec emax m e loc_Exact
  = (shr_state m (round_shift m e), e + round_shift m e).
Proof. intros Hm. unfold shr_fexp. cbn [shr_record_of_loc]. by apply shr_exact. Qed.

Lemma rne_nonneg (m n : Z) : 0 <= m -> 0 <= n -> 0 <= rne m n.
Proof.
  intros Hm Hn. pose proof (rne_bounds m n Hn).
  assert (0 <= m / 2 ^ n) by (apply Z.div_pos; [lia | apply Z.pow_pos_nonneg; lia]).
  lia.
Qed.

Lemma round_shift_nonneg (m e : Z) : 0 <= round_shift m e.
Proof. unfold round_shift. lia. Qed.

Lemma binary_round_aux_exact (s : bool) (m e : Z) :
  0 <= m ->
  binary_round_aux prec emax s m e loc_Exact = pack s (round_pair m e).
Proof.
  intros Hm. unfold binary_round_aux.
  rewrite shr_fexp_exact by done.
  rewrite round_shr_state by (done || apply round_shift_nonneg).
  rewrite shr_fexp_exact by (apply rne_nonneg; [done | apply round_shift_nonneg]).
  unfold shr_state at 1. cbn [shr_m]. reflexivity.
Qed.

Lemma emin_neg : emin <= 0.
Proof. unfold SpecFloat.emin. lia. Qed.

Lemma fexp_ge_emin (mu : Z) : emin <= fexp mu.
Proof. unfold SpecFloat.fexp. lia. Qed.

Lemma fexp_mono (mu1 mu2 : Z) : mu1 <= mu2 -> fexp mu1 <= fexp mu2.
Proof. unfold SpecFloat.fexp. lia. Qed.

Lemma canonical_digits (m e : Z) : 0 < m -> canonical m e -> Zdigits2 m <= prec.
Proof. unfold canonical, SpecFloat.fexp. lia. Qed.

Lemma canonical_normal (m e : Z) : canonical m e -> emin < e -> Zdigits2 m = prec.
Proof. unfold canonical, SpecFloat.fexp. lia. Qed.

Lemma canonical_ge_emin (m e : Z) : canonical m e -> emin <= e.
Proof. unfold canonical, SpecFloat.fexp. lia. Qed.

(** After the mantissa [m] at exponent [e <= fexp] has lost its low bits
    and been rounded to [m'], one of the two neighbours of the quotient,
    the second shift leaves a canonical mantissa of the same value. *)
Lemma norm_after_round (m e m' : Z) :
  0 < m ->
  let fe := fexp (Zdigits2 m + e) in
  e <= fe ->
  m / 2 ^ (fe - e) <= m' <= m / 2 ^ (fe - e) + 1 ->
  let n' := round_shift m' fe in
  let M := m' / 2 ^ n' in
  let E := fe + n' in
  0 <= M /\ M * 2 ^ n' = m' /\ (0 < M -> canonical M E) /\ emin <= E.
Proof.
  intros Hm fe Hpre Hm' n' M E.
  pose proof (Zdigits2_bounds m Hm) as [Hlo Hhi].
  pose proof (Zdigits2_pos m Hm) as Hd.
  pose proof (fexp_ge_emin (Zdigits2 m + e)) as Hfe. fold fe in Hfe.
  set (n := fe - e) in *. assert (Hn : 0 <= n) by lia.
  assert (Hpn : 0 < 2 ^ n) by (apply Z.pow_pos_nonneg; lia).
  assert (Hq0 : 0 <= m / 2 ^ n) by (apply Z.div_pos; lia).
  assert (Hpp : 0 < 2 ^ (prec - 1)) by (apply Z.pow_pos_nonneg; lia).
  assert (Hp2 : 2 ^ prec = 2 * 2 ^ (prec - 1)).
  { replace prec with (Z.succ (prec - 1)) at 1 by lia. apply Z.pow_succ_r. lia. }
  destruct (Z_le_gt_dec emin (Zdigits2 m + e - prec)) as [Hnormal | Hsub].
  - (* normal numbers *)
    assert (Hfe_eq : fe = Zdigits2 m + e - prec).
    { unfold fe, SpecFloat.fexp. lia. }
    assert (Hdn : Zdigits2 m = prec + n) by lia.
    assert (Hqlo : 2 ^ (prec - 1) <= m / 2 ^ n).
    { apply Z.div_le_lower_bound; [lia |].
      rewrite Z.mul_comm, <- Z.pow_add_r by lia.
      replace (prec - 1 + n) with (Zdigits2 m - 1) by lia. exact Hlo. }
    assert (Hqhi : m / 2 ^ n < 2 ^ prec).
    { apply Z.div_lt_upper_bound; [lia |].
      rewrite <- Z.pow_add_r by lia.
      replace (n + prec) with (Zdigits2 m) by lia. exact Hhi. }
    destruct (Z.eq_dec m' (2 ^ prec)) as [Hcarry | Hnocarry].
    + assert (Hdm' : Zdigits2 m' = prec + 1).
      { apply Zdigits2_unique; [| lia].
        replace (prec + 1 - 1) with prec by lia. rewrite Hcarry.
        split; [lia |]. rewrite Z.pow_add_r, Z.pow_1_r by lia. lia. }
      assert (Hn' : n' = 1).
      { unfold n', round_shift. rewrite Hdm'. unfold SpecFloat.fexp. lia. }
      assert (HM : M = 2 ^ (prec - 1)).
      { unfold M. rewrite Hn', Z.pow_1_r, Hcarry, Hp2.
        rewrite Z.mul_comm, Z.div_mul by lia. reflexivity. }
      repeat split.
      * lia.
      * rewrite HM, Hn', Z.pow_1_r. lia.
      * intros _. unfold canonical, E. rewrite HM, Hn'.
        rewrite (Zdigits2_unique (2 ^ (prec - 1)) prec); [| lia | lia].
        unfold SpecFloat.fexp. lia.
      * unfold E. lia.
    + assert (Hdm' : Zdigits2 m' = prec).
      { apply Zdigits2_unique; lia. }
      assert (Hn' : n' = 0).
      { unfold n', round_shift. rewrite Hdm'. unfold SpecFloat.fexp. lia. }
      assert (HM : M = m').
      { unfold M. by rewrite Hn', Z.pow_0_r, Z.div_1_r. }
      repeat split.
      * lia.
      * rewrite HM, Hn', Z.pow_0_r. lia.
      * intros _. unfold canonical, E. rewrite HM, Hn', Hdm'.
        unfold SpecFloat.fexp. lia.
      * unfold E. lia.
  - (* subnormal numbers *)
    assert (Hfe_eq : fe = emin).
    { unfold fe, SpecFloat.fexp. lia. }
    assert (Hqhi : m / 2 ^ n < 2 ^ (prec - 1)).
    { apply Z.div_lt_upper_bound; [lia |].
      rewrite <- Z.pow_add_r by lia.
      assert (2 ^ Zdigits2 m <= 2 ^ (n + (prec - 1))) by (apply Z.pow_le_mono_r; lia).
      lia. }
    assert (Hn' : n' = 0).
    { unfold n', round_shift. rewrite Hfe_eq.
      destruct (Z.eq_dec m' 0) as [-> | Hne].
      - simpl. unfold SpecFloat.fexp. lia.
      - assert (Zdigits2 m' <= prec).
        { pose proof (Zdigits2_bounds m' ltac:(lia)) as [Hlo' _].
          destruct (Z_le_gt_dec (Zdigits2 m') prec) as [|Hgt]; [done |].
          assert (2 ^ prec <= 2 ^ (Zdigits2 m' - 1)) by (apply Z.pow_le_mono_r; lia).
          lia. }
        unfold SpecFloat.fexp. lia. }
    assert (HM : M = m').
    { unfold M. by rewrite Hn', Z.pow_0_r, Z.div_1_r. }
    repeat split.
    + lia.
    + rewrite HM, Hn', Z.pow_0_r. lia.
    + intros HM0. unfold canonical, E. rewrite HM, Hn', Hfe_eq, Z.add_0_r.
      assert (Zdigits2 m' <= prec).
      { pose proof (Zdigits2_bounds m' ltac:(lia)) as [Hlo' _].
        destruct (Z_le_gt_dec (Zdigits2 m') prec) as [|Hgt]; [done |].
        assert (2 ^ prec <= 2 ^ (Zdigits2 m' - 1)) by (apply Z.pow_le_mono_r; lia).
        lia. }
      unfold SpecFloat.fexp. lia.
    + unfold E. lia.
Qed.

Lemma unit_exp_le_emin : unit_exp <= emin.
Proof. unfold unit_exp. pose proof emin_neg. lia. Qed.

Lemma pos_iter_xO (m d : positive) : Z.pos (Pos.iter xO m d) = Z.pos m * 2 ^ Z.pos d.
Proof.
  induction d as [|d IH] using Pos.peano_ind.
  - simpl. lia.
  - rewrite Pos.iter_succ, Pos2Z.inj_xO, IH, Pos2Z.inj_succ, Z.pow_succ_r by lia. lia.
Qed.

Lemma shl_align_spec (m : positive) (e e' : Z) :
  (shl_align m e e').2 = Z.min e e' /\
  Z.pos (shl_align m e e').1 = Z.pos m * 2 ^ (e - Z.min e e').
Proof.
  unfold shl_align. destruct (e' - e) as [|d|d] eqn:Hd; cbn [fst snd].
  - replace (Z.min e e') with e by lia. rewrite Z.sub_diag. simpl. lia.
  - replace (Z.min e e') with e by lia. rewrite Z.sub_diag. simpl. lia.
  - replace (Z.min e e') with e' by lia. split; [done |].
    rewrite pos_iter_xO. f_equal. f_equal. lia.
Qed.

Lemma binary_round_spec (s : bool) (m : positive) (e : Z) :
  unit_exp <= e ->
  exists M E : Z,
    binary_round prec emax s m e = pack s (M, E) /\
    0 <= M /\ (0 < M -> canonical M E) /\ emin <= E /\
    M * 2 ^ (E - unit_exp) = round_val (Z.pos m * 2 ^ (e - unit_exp)).
Proof.
  intros Hb. pose proof unit_exp_le_emin as Hb0.
  unfold binary_round.
  change (Z.pos (digits2_pos m)) with (Zdigits2 (Z.pos m)).
  set (fe := fexp (Zdigits2 (Z.pos m) + e)).
  pose proof (fexp_ge_emin (Zdigits2 (Z.pos m) + e)) as Hfe. fold fe in Hfe.
  destruct (shl_align_spec m e fe) as [Hez Hmz].
  destruct (shl_align m e fe) as [mz ez]. cbn [fst snd] in Hez, Hmz.
  assert (Hdz : Zdigits2 (Z.pos mz) + ez = Zdigits2 (Z.pos m) + e).
  { rewrite Hmz, Zdigits2_mul_pow2 by lia. lia. }
  rewrite binary_round_aux_exact by lia.
  unfold round_pair.
  assert (Hn : round_shift (Z.pos mz) ez = fe - ez).
  { unfold round_shift. rewrite Hdz. fold fe. lia. }
  rewrite Hn. replace (ez + (fe - ez)) with fe by lia.
  set (m' := rne (Z.pos mz) (fe - ez)).
  destruct (norm_after_round (Z.pos mz) ez m') as (HM0 & HMval & Hcan & HE).
  { lia. }
  { rewrite Hdz. fold fe. lia. }
  { rewrite Hdz. fold fe. apply rne_bounds. lia. }
  rewrite Hdz in HM0, HMval, Hcan, HE. fold fe in HM0, HMval, Hcan, HE.
  eexists _, _. split; [reflexivity |].
  split; [exact HM0 |]. split; [exact Hcan |]. split; [exact HE |].
  (* the value *)
  pose proof (round_shift_nonneg m' fe) as Hn'.
  replace (fe + round_shift m' fe - unit_exp) with (round_shift m' fe + (fe - unit_exp)) by lia.
  rewrite Z.pow_add_r, Z.mul_assoc, HMval by lia.
  unfold round_val.
  assert (HN : Z.pos m * 2 ^ (e - unit_exp) = Z.pos mz * 2 ^ (ez - unit_exp)).
  { rewrite Hmz, <- Z.mul_assoc, <- Z.pow_add_r by lia. f_equal. f_equal. lia. }
  rewrite HN, Zdigits2_mul_pow2 by lia.
  replace (Zdigits2 (Z.pos mz) + (ez - unit_exp) + unit_exp) with (Zdigits2 (Z.pos m) + e) by lia.
  fold fe.
  replace (fe - unit_exp) with (fe - ez + (ez - unit_exp)) at 2 by lia.
  rewrite rne_shift by lia. reflexivity.
Qed.

(** [round_val] leaves the multiples of the unit in the last place as they are and
    is monotone. *)
Lemma round_val_0 : round_val 0 = 0.
Proof.
  unfold round_val. simpl Zdigits2.
  assert (0 <= fexp (0 + unit_exp) - unit_exp).
  { pose proof (fexp_ge_emin (0 + unit_exp)). pose proof unit_exp_le_emin. lia. }
  assert (0 < 2 ^ (fexp (0 + unit_exp) - unit_exp)) by (apply Z.pow_pos_nonneg; lia).
  rewrite rne_exact by (done || apply Z.mod_0_l; lia).
  rewrite Z.div_0_l by lia. lia.
Qed.

Lemma round_val_nonneg (N : Z) : 0 <= N -> 0 <= round_val N.
Proof.
  intros HN. unfold round_val.
  assert (0 <= fexp (Zdigits2 N + unit_exp) - unit_exp).
  { pose proof (fexp_ge_emin (Zdigits2 N + unit_exp)). pose proof unit_exp_le_emin. lia. }
  apply Z.mul_nonneg_nonneg; [by apply rne_nonneg | apply Z.pow_nonneg; lia].
Qed.

Lemma round_val_canonical (M E : Z) :
  0 < M -> canonical M E -> round_val (M * 2 ^ (E - unit_exp)) = M * 2 ^ (E - unit_exp).
Proof.
  intros HM Hcan. pose proof (canonical_ge_emin M E Hcan). pose proof unit_exp_le_emin.
  unfold round_val. rewrite Zdigits2_mul_pow2 by lia.
  replace (Zdigits2 M + (E - unit_exp) + unit_exp) with (Zdigits2 M + E) by lia.
  rewrite Hcan. by rewrite rne_mul_pow2 by lia.
Qed.

Lemma round_val_mono (N1 N2 : Z) : 0 <= N1 -> N1 <= N2 -> round_val N1 <= round_val N2.
Proof.
  intros H1 H12. pose proof unit_exp_le_emin as Hb0.
  destruct (Z.eq_dec N1 0) as [-> | Hne].
  { rewrite round_val_0. apply round_val_nonneg. lia. }
  assert (Hpos1 : 0 < N1) by lia. assert (Hpos2 : 0 < N2) by lia.
  pose proof (Zdigits2_mono N1 N2 Hpos1 H12) as Hd.
  pose proof (Zdigits2_bounds N1 Hpos1) as [Hlo1 Hhi1].
  pose proof (Zdigits2_bounds N2 Hpos2) as [Hlo2 Hhi2].
  pose proof (Zdigits2_pos N1 Hpos1) as Hd1.
  unfold round_val.
  set (n1 := fexp (Zdigits2 N1 + unit_exp) - unit_exp).
  set (n2 := fexp (Zdigits2 N2 + unit_exp) - unit_exp).
  assert (Hn1 : emin - unit_exp <= n1).
  { unfold n1. pose proof (fexp_ge_emin (Zdigits2 N1 + unit_exp)). lia. }
  assert (Hn12 : n1 <= n2).
  { unfold n1, n2. pose proof (fexp_mono (Zdigits2 N1 + unit_exp) (Zdigits2 N2 + unit_exp)). lia. }
  destruct (Z.eq_dec n1 n2) as [Heq | Hlt].
  - rewrite <- Heq. apply Z.mul_le_mono_nonneg_r; [apply Z.pow_nonneg; lia |].
    apply rne_mono; lia.
  - (* the second number has more digits and lies in a coarser binade *)
    assert (Hn2 : n2 = Zdigits2 N2 - prec).
    { unfold n1, n2, SpecFloat.fexp in *. lia. }
    assert (Hd12 : Zdigits2 N1 < Zdigits2 N2).
    { unfold n1, n2, SpecFloat.fexp in *. lia. }
    assert (Hp1 : 0 < 2 ^ n1) by (apply Z.pow_pos_nonneg; lia).
    assert (Hp2 : 0 < 2 ^ n2) by (apply Z.pow_pos_nonneg; lia).
    apply Z.le_trans with (2 ^ (Zdigits2 N2 - 1)).
    + destruct (Z_le_gt_dec n1 (Zdigits2 N1)) as [Hnd | Hnd].
      * (* the power [2^d1] is on the grid and above [N1] *)
        apply Z.le_trans with (2 ^ Zdigits2 N1); [| apply Z.pow_le_mono_r; lia].
        replace (2 ^ Zdigits2 N1) with (2 ^ (Zdigits2 N1 - n1) * 2 ^ n1).
        2:{ rewrite <- Z.pow_add_r by lia. f_equal. lia. }
        apply Z.mul_le_mono_nonneg_r; [lia |].
        apply rne_le_grid; [lia |].
        rewrite <- Z.pow_add_r by lia.
        replace (Zdigits2 N1 - n1 + n1) with (Zdigits2 N1) by lia. lia.
      * (* the number is below half a unit and rounds to zero *)
        assert (Hr : rne N1 n1 <= 0).
        { assert (Hh : 2 * N1 < 2 ^ n1).
          { assert (Hpw : 2 ^ (Zdigits2 N1 + 1) <= 2 ^ n1) by (apply Z.pow_le_mono_r; lia).
            rewrite Z.pow_add_r, Z.pow_1_r in Hpw by lia. lia. }
          unfold rne. rewrite Z.mod_small, Z.div_small by lia.
          replace (2 * N1 <? 2 ^ n1) with true by (symmetry; apply Z.ltb_lt; lia).
          lia. }
        assert (0 < 2 ^ (Zdigits2 N2 - 1)) by (apply Z.pow_pos_nonneg; lia).
        nia.
    + replace (2 ^ (Zdigits2 N2 - 1)) with (2 ^ (prec - 1) * 2 ^ n2).
      2:{ rewrite <- Z.pow_add_r by lia. f_equal. lia. }
      apply Z.mul_le_mono_nonneg_r; [lia |].
      apply rne_ge_grid; [lia |].
      rewrite <- Z.pow_add_r by lia.
      replace (prec - 1 + n2) with (Zdigits2 N2 - 1) by lia. lia.
Qed.

(* --------------------------------------------------------------------- *)
(** ** Values of floats                                                   *)

Lemma huge_pos : 0 < huge.
Proof.
  unfold huge. apply Z.pow_pos_nonneg; [lia |].
  unfold unit_exp, SpecFloat.emin. lia.
Qed.

Lemma valid_finite (s : bool) (m : positive) (e : Z) :
  valid_binary prec emax (S754_finite s m e) = true <->
  canonical (Z.pos m) e /\ e <= emax - prec.
Proof.
  cbn [valid_binary]. unfold bounded, canonical_mantissa, canonical.
  rewrite andb_true_iff, Z.eqb_eq, Z.leb_le. reflexivity.
Qed.

Lemma finite_value_bounds (M E : Z) :
  0 < M -> canonical M E -> E <= emax - prec -> 0 < M * 2 ^ (E - unit_exp) < huge.
Proof.
  intros HM Hcan HE.
  pose proof (canonical_ge_emin M E Hcan). pose proof unit_exp_le_emin.
  pose proof (canonical_digits M E HM Hcan) as Hd.
  pose proof (Zdigits2_bounds M HM) as [_ Hhi].
  assert (Hp : 0 < 2 ^ (E - unit_exp)) by (apply Z.pow_pos_nonneg; lia).
  split; [nia |]. unfold huge.
  assert (2 ^ Zdigits2 M <= 2 ^ prec) by (apply Z.pow_le_mono_r; lia).
  assert (2 ^ (prec + (E - unit_exp)) <= 2 ^ (emax - unit_exp)) by (apply Z.pow_le_mono_r; lia).
  rewrite Z.pow_add_r in * by lia. nia.
Qed.

Lemma overflow_value (M E : Z) :
  0 < M -> canonical M E -> emax - prec < E -> huge <= M * 2 ^ (E - unit_exp).
Proof.
  intros HM Hcan HE. pose proof unit_exp_le_emin.
  assert (Hemin : emin < E) by (unfold SpecFloat.emin in *; lia).
  pose proof (canonical_normal M E Hcan Hemin) as Hd.
  pose proof (Zdigits2_bounds M HM) as [Hlo _]. rewrite Hd in Hlo.
  assert (Hp : 0 < 2 ^ (E - unit_exp)) by (apply Z.pow_pos_nonneg; lia).
  unfold huge.
  assert (2 ^ (emax - unit_exp) <= 2 ^ (prec - 1 + (E - unit_exp))) by (apply Z.pow_le_mono_r; lia).
  rewrite Z.pow_add_r in * by lia. nia.
Qed.

Lemma xval_pack (s : bool) (M E : Z) :
  0 <= M -> (0 < M -> canonical M E) ->
  in_format (pack s (M, E)) /\
  xval (pack s (M, E)) = sgn s * Z.min huge (M * 2 ^ (E - unit_exp)).
Proof.
  intros HM Hcan. pose proof huge_pos. unfold pack. cbn [fst snd].
  destruct M as [|p|p]; [| | lia].
  - split; [done |]. cbn [xval]. lia.
  - specialize (Hcan ltac:(lia)).
    destruct (Z.leb_spec E (emax - prec)) as [HE | HE].
    + pose proof (finite_value_bounds (Z.pos p) E ltac:(lia) Hcan HE).
      split; [split; [done | by apply valid_finite] |].
      cbn [xval]. by rewrite Z.min_r by lia.
    + pose proof (overflow_value (Z.pos p) E ltac:(lia) Hcan HE).
      split; [done |]. cbn [xval]. by rewrite Z.min_l by lia.
Qed.

Lemma binary_round_xval (s : bool) (m : positive) (e : Z) :
  unit_exp <= e ->
  in_format (binary_round prec emax s m e) /\
  xval (binary_round prec emax s m e) = sgn s * Z.min huge (round_val (Z.pos m * 2 ^ (e - unit_exp))).
Proof.
  intros Hb. destruct (binary_round_spec s m e Hb) as (M & E & -> & HM & Hcan & _ & <-).
  by apply xval_pack.
Qed.

Lemma binary_normalize_xval (S e : Z) (sz : bool) :
  unit_exp <= e ->
  in_format (binary_normalize prec emax S e sz) /\
  xval (binary_normalize prec emax S e sz) = round_signed (S * 2 ^ (e - unit_exp)).
Proof.
  intros Hb. pose proof huge_pos.
  assert (Hp : 0 < 2 ^ (e - unit_exp)) by (apply Z.pow_pos_nonneg; lia).
  unfold binary_normalize, round_signed. destruct S as [|p|p].
  - split; [done |]. cbn [xval]. rewrite Z.mul_0_l, round_val_0. simpl. lia.
  - destruct (binary_round_xval false p e Hb) as [Hgood ->]. split; [done |].
    replace (Z.pos p * 2 ^ (e - unit_exp) <? 0) with false by (symmetry; apply Z.ltb_ge; nia).
    unfold sgn. lia.
  - destruct (binary_round_xval true p e Hb) as [Hgood ->]. split; [done |].
    replace (Z.neg p * 2 ^ (e - unit_exp) <? 0) with true by (symmetry; apply Z.ltb_lt; nia).
    replace (- (Z.neg p * 2 ^ (e - unit_exp))) with (Z.pos p * 2 ^ (e - unit_exp)) by lia.
    unfold sgn. lia.
Qed.

Lemma round_signed_mono (V1 V2 : Z) : V1 <= V2 -> round_signed V1 <= round_signed V2.
Proof.
  intros H12. pose proof huge_pos. unfold round_signed.
  destruct (Z.ltb_spec V1 0), (Z.ltb_spec V2 0).
  - pose proof (round_val_mono (- V2) (- V1) ltac:(lia) ltac:(lia)). lia.
  - pose proof (round_val_nonneg (- V1) ltac:(lia)). pose proof (round_val_nonneg V2 ltac:(lia)). lia.
  - lia.
  - pose proof (round_val_mono V1 V2 ltac:(lia) ltac:(lia)). lia.
Qed.

Lemma round_signed_bounds (V : Z) : - huge <= round_signed V <= huge.
Proof.
  pose proof huge_pos. unfold round_signed. destruct (Z.ltb_spec V 0).
  - pose proof (round_val_nonneg (- V) ltac:(lia)). lia.
  - pose proof (round_val_nonneg V ltac:(lia)). lia.
Qed.

(** The value of a finite float of the format is a fixed point of the
    rounding. *)
Lemma in_format_finite_value (s : bool) (m : positive) (e : Z) :
  in_format (S754_finite s m e) ->
  canonical (Z.pos m) e /\ emin <= e /\ 0 < Z.pos m * 2 ^ (e - unit_exp) < huge /\
  round_signed (xval (S754_finite s m e)) = xval (S754_finite s m e).
Proof.
  intros [_ Hvalid]. apply valid_finite in Hvalid as [Hcan He].
  pose proof (finite_value_bounds (Z.pos m) e ltac:(lia) Hcan He) as Hb.
  pose proof (round_val_canonical (Z.pos m) e ltac:(lia) Hcan) as HG.
  split; [done |]. split; [by eapply canonical_ge_emin |]. split; [done |].
  cbn [xval]. unfold round_signed, sgn. destruct s.
  - replace (-1 * (Z.pos m * 2 ^ (e - unit_exp)) <? 0) with true by (symmetry; apply Z.ltb_lt; lia).
    replace (- (-1 * (Z.pos m * 2 ^ (e - unit_exp)))) with (Z.pos m * 2 ^ (e - unit_exp)) by lia.
    rewrite HG. lia.
  - replace (1 * (Z.pos m * 2 ^ (e - unit_exp)) <? 0) with false by (symmetry; apply Z.ltb_ge; lia).
    rewrite Z.mul_1_l, HG. lia.
Qed.

Lemma xval_bounds (x : spec_float) : in_format x -> - huge <= xval x <= huge.
Proof.
  intros Hx. pose proof huge_pos. destruct x as [s|s| |s m e]; cbn [xval].
  - lia.
  - unfold sgn. destruct s; lia.
  - lia.
  - destruct (in_format_finite_value s m e Hx) as (_ & _ & Hb & _).
    unfold sgn. destruct s; lia.
Qed.

(** The order of [SFcompare] is the order of the values. *)
Lemma canonical_lt (m1 e1 m2 e2 : Z) :
  0 < m1 -> 0 < m2 -> canonical m1 e1 -> canonical m2 e2 ->
  e1 < e2 \/ (e1 = e2 /\ m1 < m2) ->
  m1 * 2 ^ (e1 - unit_exp) < m2 * 2 ^ (e2 - unit_exp).
Proof.
  intros H1 H2 Hc1 Hc2 Hlt. pose proof unit_exp_le_emin.
  pose proof (canonical_ge_emin m1 e1 Hc1). pose proof (canonical_ge_emin m2 e2 Hc2).
  assert (Hp1 : 0 < 2 ^ (e1 - unit_exp)) by (apply Z.pow_pos_nonneg; lia).
  destruct Hlt as [He | [-> Hm]]; [| nia].
  pose proof (canonical_normal m2 e2 Hc2 ltac:(lia)) as Hd2.
  pose proof (canonical_digits m1 e1 H1 Hc1) as Hd1.
  pose proof (Zdigits2_bounds m1 H1) as [_ Hhi1].
  pose proof (Zdigits2_bounds m2 H2) as [Hlo2 _]. rewrite Hd2 in Hlo2.
  assert (2 ^ Zdigits2 m1 <= 2 ^ prec) by (apply Z.pow_le_mono_r; lia).
  assert (2 ^ (prec + (e1 - unit_exp)) <= 2 ^ (prec - 1 + (e2 - unit_exp)))
    by (apply Z.pow_le_mono_r; lia).
  assert (Hp2 : 0 < 2 ^ (e2 - unit_exp)) by (apply Z.pow_pos_nonneg; lia).
  rewrite !Z.pow_add_r in * by lia. nia.
Qed.

Lemma SFltb_xval (x y : spec_float) :
  in_format x -> in_format y -> SFltb x y = true -> xval x < xval y.
Proof.
  intros Hx Hy Hlt. pose proof huge_pos.
  apply SFltb_key in Hlt; [| apply Hx | apply Hy].
  pose proof (xval_bounds x Hx). pose proof (xval_bounds y Hy).
  destruct x as [sx|sx| |sx mx ex]; [| | destruct Hx; done |];
    (destruct y as [sy|sy| |sy my ey]; [| | destruct Hy; done |]);
    try destruct sx; try destruct sy;
    try (destruct (in_format_finite_value _ _ _ Hx) as (Hcx & Hex & Hbx & _));
    try (destruct (in_format_finite_value _ _ _ Hy) as (Hcy & Hey & Hby & _));
    unfold key_lt in Hlt; cbn [float_key fst snd xval] in *; unfold sgn in *;
    try lia.
  - (* both negative *)
    assert (Z.pos my * 2 ^ (ey - unit_exp) < Z.pos mx * 2 ^ (ex - unit_exp)); [| lia].
    apply canonical_lt; [lia | lia | done | done | lia].
  - (* both positive *)
    assert (Z.pos mx * 2 ^ (ex - unit_exp) < Z.pos my * 2 ^ (ey - unit_exp)); [| lia].
    apply canonical_lt; [lia | lia | done | done | lia].
Qed.

(* --------------------------------------------------------------------- *)
(** ** The operations on values                                           *)

Lemma round_signed_0 : round_signed 0 = 0.
Proof. pose proof huge_pos. unfold round_signed. simpl. rewrite round_val_0. lia. Qed.

Lemma in_format_zero (s : bool) : in_format (S754_zero s).
Proof. done. Qed.

Lemma in_format_infinity (s : bool) : in_format (S754_infinity s).
Proof. done. Qed.

Lemma in_format_opp (s : bool) (m : positive) (e : Z) :
  in_format (S754_finite s m e) -> in_format (S754_finite (negb s) m e).
Proof. intros [_ Hv]. split; [done | exact Hv]. Qed.

Lemma cond_Zopp_sgn (s : bool) (v : Z) : cond_Zopp s v = sgn s * v.
Proof. unfold cond_Zopp, sgn. destruct s; lia. Qed.

Lemma aligned_value (m : positive) (e ez : Z) :
  unit_exp <= ez -> ez <= e ->
  Z.pos (shl_align m e ez).1 * 2 ^ (ez - unit_exp) = Z.pos m * 2 ^ (e - unit_exp).
Proof.
  intros Hb He. destruct (shl_align_spec m e ez) as [_ ->].
  replace (Z.min e ez) with ez by lia.
  rewrite <- Z.mul_assoc, <- Z.pow_add_r by lia. f_equal. f_equal. lia.
Qed.

Lemma SFadd_xval (x y : spec_float) :
  in_format x -> in_format y -> is_finite x = true -> is_finite y = true ->
  in_format (SFadd prec emax x y) /\
  xval (SFadd prec emax x y) = round_signed (xval x + xval y).
Proof.
  intros Hx Hy Hfx Hfy. pose proof unit_exp_le_emin.
  destruct x as [sx|sx| |sx mx ex]; try discriminate;
    destruct y as [sy|sy| |sy my ey]; try discriminate; cbn [SFadd].
  - split; [by destruct sx, sy |]. cbn [xval]. rewrite Z.add_0_l, round_signed_0. by destruct sx, sy.
  - split; [done |]. destruct (in_format_finite_value _ _ _ Hy) as (_ & _ & _ & HH).
    cbn [xval] in *. by rewrite Z.add_0_l, HH.
  - split; [done |]. destruct (in_format_finite_value _ _ _ Hx) as (_ & _ & _ & HH).
    cbn [xval] in *. by rewrite Z.add_0_r, HH.
  - destruct (in_format_finite_value _ _ _ Hx) as (_ & Hex & _ & _).
    destruct (in_format_finite_value _ _ _ Hy) as (_ & Hey & _ & _).
    destruct (binary_normalize_xval
                (cond_Zopp sx (Z.pos (shl_align mx ex (Z.min ex ey)).1)
                 + cond_Zopp sy (Z.pos (shl_align my ey (Z.min ex ey)).1))
                (Z.min ex ey) false ltac:(lia)) as [Hgood ->].
    split; [exact Hgood |]. f_equal. cbn [xval].
    rewrite !cond_Zopp_sgn, Z.mul_add_distr_r, <- !Z.mul_assoc.
    rewrite !aligned_value by lia. reflexivity.
Qed.

Lemma SFsub_xval (x y : spec_float) :
  in_format x -> in_format y -> is_finite x = true -> is_finite y = true ->
  in_format (SFsub prec emax x y) /\
  xval (SFsub prec emax x y) = round_signed (xval x - xval y).
Proof.
  intros Hx Hy Hfx Hfy. pose proof unit_exp_le_emin.
  destruct x as [sx|sx| |sx mx ex]; try discriminate;
    destruct y as [sy|sy| |sy my ey]; try discriminate; cbn [SFsub].
  - split; [by destruct sx, sy |]. cbn [xval]. rewrite Z.sub_0_r, round_signed_0. by destruct sx, sy.
  - split; [by apply in_format_opp |].
    destruct (in_format_finite_value _ _ _ (in_format_opp _ _ _ Hy)) as (_ & _ & _ & HH).
    cbn [xval] in *. rewrite Z.sub_0_l.
    replace (- (sgn sy * (Z.pos my * 2 ^ (ey - unit_exp))))
      with (sgn (negb sy) * (Z.pos my * 2 ^ (ey - unit_exp))) by (unfold sgn; destruct sy; simpl; lia).
    by rewrite HH.
  - split; [done |]. destruct (in_format_finite_value _ _ _ Hx) as (_ & _ & _ & HH).
    cbn [xval] in *. by rewrite Z.sub_0_r, HH.
  - destruct (in_format_finite_value _ _ _ Hx) as (_ & Hex & _ & _).
    destruct (in_format_finite_value _ _ _ Hy) as (_ & Hey & _ & _).
    destruct (binary_normalize_xval
                (cond_Zopp sx (Z.pos (shl_align mx ex (Z.min ex ey)).1)
                 - cond_Zopp sy (Z.pos (shl_align my ey (Z.min ex ey)).1))
                (Z.min ex ey) false ltac:(lia)) as [Hgood ->].
    split; [exact Hgood |]. f_equal. cbn [xval].
    rewrite !cond_Zopp_sgn, Z.mul_sub_distr_r, <- !Z.mul_assoc.
    rewrite !aligned_value by lia. reflexivity.
Qed.

Lemma xval_xval_emin (x : spec_float) :
  in_format x -> is_finite x = true -> xval x = xval_emin x * 2 ^ (- emin).
Proof.
  intros Hx Hfx. destruct x as [s|s| |s m e]; try discriminate; cbn [xval xval_emin].
  - lia.
  - destruct (in_format_finite_value _ _ _ Hx) as (_ & He & _ & _).
    pose proof emin_neg.
    rewrite <- !Z.mul_assoc, <- Z.pow_add_r by lia.
    do 3 f_equal. unfold unit_exp. lia.
Qed.

Lemma Zdigits2_ge (m d : Z) : 0 < d -> 2 ^ (d - 1) <= m -> d <= Zdigits2 m.
Proof.
  intros Hd Hm.
  assert (0 < 2 ^ (d - 1)) by (apply Z.pow_pos_nonneg; lia).
  pose proof (Zdigits2_bounds m ltac:(lia)) as [_ Hhi].
  destruct (Z_le_gt_dec d (Zdigits2 m)) as [|Hgt]; [done |].
  pose proof (Zdigits2_nonneg m).
  assert (2 ^ Zdigits2 m <= 2 ^ (d - 1)) by (apply Z.pow_le_mono_r; lia). lia.
Qed.

(** The exact product of two canonical mantissas needs no alignment before
    it is rounded. *)
Lemma product_aligned (m1 e1 m2 e2 : Z) :
  0 < m1 -> 0 < m2 -> canonical m1 e1 -> canonical m2 e2 ->
  e1 + e2 <= fexp (Zdigits2 (m1 * m2) + (e1 + e2)).
Proof.
  intros H1 H2 Hc1 Hc2.
  pose proof (Zdigits2_bounds m1 H1) as [Hlo1 _].
  pose proof (Zdigits2_bounds m2 H2) as [Hlo2 _].
  pose proof (Zdigits2_pos m1 H1). pose proof (Zdigits2_pos m2 H2).
  assert (Hd : Zdigits2 m1 + Zdigits2 m2 - 1 <= Zdigits2 (m1 * m2)).
  { apply Zdigits2_ge; [lia |].
    replace (Zdigits2 m1 + Zdigits2 m2 - 1 - 1)
      with ((Zdigits2 m1 - 1) + (Zdigits2 m2 - 1)) by lia.
    rewrite Z.pow_add_r by lia.
    assert (0 < 2 ^ (Zdigits2 m1 - 1)) by (apply Z.pow_pos_nonneg; lia).
    assert (0 < 2 ^ (Zdigits2 m2 - 1)) by (apply Z.pow_pos_nonneg; lia).
    nia. }
  pose proof emin_neg.
  unfold canonical, SpecFloat.fexp in *. lia.
Qed.

Lemma binary_round_aux_aligned (s : bool) (m : positive) (e : Z) :
  e <= fexp (Zdigits2 (Z.pos m) + e) ->
  binary_round_aux prec emax s (Z.pos m) e loc_Exact = binary_round prec emax s m e.
Proof.
  intros Hpre. unfold binary_round.
  change (Z.pos (digits2_pos m)) with (Zdigits2 (Z.pos m)).
  unfold shl_align.
  destruct (fexp (Zdigits2 (Z.pos m) + e) - e) eqn:Hd; try reflexivity. lia.
Qed.

Lemma SFmul_xval (x y : spec_float) :
  in_format x -> in_format y -> is_finite x = true -> is_finite y = true ->
  in_format (SFmul prec emax x y) /\
  xval (SFmul prec emax x y) = round_signed (xval_emin x * xval_emin y).
Proof.
  intros Hx Hy Hfx Hfy. pose proof unit_exp_le_emin. pose proof emin_neg.
  destruct x as [sx|sx| |sx mx ex]; try discriminate;
    destruct y as [sy|sy| |sy my ey]; try discriminate; cbn [SFmul];
    try (split; [done |]; cbn [xval xval_emin]; rewrite ?Z.mul_0_l, ?Z.mul_0_r, round_signed_0; reflexivity).
  destruct (in_format_finite_value _ _ _ Hx) as (Hcx & Hex & _ & _).
  destruct (in_format_finite_value _ _ _ Hy) as (Hcy & Hey & _ & _).
  rewrite binary_round_aux_aligned.
  2:{ rewrite Pos2Z.inj_mul. apply product_aligned; (lia || done). }
  destruct (binary_round_xval (xorb sx sy) (mx * my) (ex + ey)) as [Hgood ->].
  { unfold unit_exp. lia. }
  split; [exact Hgood |]. cbn [xval_emin].
  assert (HV : sgn sx * (Z.pos mx * 2 ^ (ex - emin)) * (sgn sy * (Z.pos my * 2 ^ (ey - emin)))
               = sgn (xorb sx sy) * (Z.pos (mx * my) * 2 ^ (ex + ey - unit_exp))).
  { replace (ex + ey - unit_exp) with ((ex - emin) + (ey - emin)) by (unfold unit_exp; lia).
    rewrite Z.pow_add_r, Pos2Z.inj_mul by lia.
    unfold sgn. destruct sx, sy; simpl; lia. }
  rewrite HV.
  assert (Hp : 0 < Z.pos (mx * my) * 2 ^ (ex + ey - unit_exp)).
  { apply Z.mul_pos_pos; [lia |]. apply Z.pow_pos_nonneg; unfold unit_exp; lia. }
  unfold round_signed, sgn. destruct (xorb sx sy).
  - replace (-1 * _ <? 0) with true by (symmetry; apply Z.ltb_lt; lia).
    f_equal. f_equal. f_equal. lia.
  - replace (1 * _ <? 0) with false by (symmetry; apply Z.ltb_ge; lia).
    rewrite !Z.mul_1_l. reflexivity.
Qed.

(* --------------------------------------------------------------------- *)
(** ** Results are numbers of the format                                  *)

Lemma shr_m_shr_1 (mrs : shr_record) :
  0 <= shr_m mrs -> shr_m (shr_1 mrs) = shr_m mrs / 2.
Proof.
  destruct mrs as [m r s]. cbn [shr_m]. intros Hm.
  rewrite shr_1_spec by done. cbn [shr_m]. apply Z.div2_div.
Qed.

Lemma shr_m_iter_pos (p : positive) (mrs : shr_record) :
  0 <= shr_m mrs ->
  shr_m (SpecFloat.iter_pos shr_1 p mrs) = shr_m mrs / 2 ^ Z.pos p.
Proof.
  revert mrs. induction p as [p IH | p IH |]; intros mrs Hm; cbn [SpecFloat.iter_pos].
  - assert (H1 : 0 <= shr_m (shr_1 mrs)).
    { rewrite shr_m_shr_1 by done. apply Z.div_pos; lia. }
    assert (H2 : 0 <= shr_m (SpecFloat.iter_pos shr_1 p (shr_1 mrs))).
    { rewrite IH by done. apply Z.div_pos; [done | apply Z.pow_pos_nonneg; lia]. }
    rewrite IH, IH, shr_m_shr_1 by done.
    rewrite !Z.div_div by (try apply Z.pow_pos_nonneg; lia).
    f_equal.
    replace (Z.pos p~1) with (1 + Z.pos p + Z.pos p) by lia.
    rewrite !Z.pow_add_r, Z.pow_1_r by lia. lia.
  - assert (H2 : 0 <= shr_m (SpecFloat.iter_pos shr_1 p mrs)).
    { rewrite IH by done. apply Z.div_pos; [done | apply Z.pow_pos_nonneg; lia]. }
    rewrite IH, IH by done.
    rewrite !Z.div_div by (try apply Z.pow_pos_nonneg; lia).
    f_equal.
    replace (Z.pos p~0) with (Z.pos p + Z.pos p) by lia.
    rewrite !Z.pow_add_r by lia. lia.
  - rewrite shr_m_shr_1 by done. by rewrite Z.pow_1_r.
Qed.

Lemma shr_m_shr_fexp (m e : Z) (l : location) :
  0 <= m ->
  shr_m (shr_fexp prec emax m e l).1 = m / 2 ^ round_shift m e /\
  (shr_fexp prec emax m e l).2 = e + round_shift m e.
Proof.
  intros Hm. unfold shr_fexp, shr, round_shift.
  assert (Hrec : shr_m (shr_record_of_loc m l) = m) by (by destruct l as [|[]]).
  destruct (fexp (Zdigits2 m + e) - e) as [|p|p]; cbn [fst snd].
  - rewrite Hrec. simpl. rewrite Z.div_1_r. lia.
  - rewrite shr_m_iter_pos by lia. rewrite Hrec.
    replace (Z.max 0 (Z.pos p)) with (Z.pos p) by lia. lia.
  - rewrite Hrec. replace (Z.max 0 (Z.neg p)) with 0 by lia.
    rewrite Z.pow_0_r, Z.div_1_r. lia.
Qed.

Lemma round_nearest_even_bounds (q : Z) (l : location) :
  q <= round_nearest_even q l <= q + 1.
Proof. destruct l as [|[]]; cbn [round_nearest_even]; try destruct (Z.even q); lia. Qed.

Lemma valid_pack (s : bool) (M E : Z) :
  0 <= M -> (0 < M -> canonical M E) -> valid_binary prec emax (pack s (M, E)) = true.
Proof. intros HM Hcan. by destruct (xval_pack s M E HM Hcan) as [[_ Hv] _]. Qed.

Lemma binary_round_aux_valid (s : bool) (m e : Z) (l : location) :
  0 <= m -> (m = 0 -> e <= emin) -> e <= fexp (Zdigits2 m + e) ->
  valid_binary prec emax (binary_round_aux prec emax s m e l) = true.
Proof.
  intros Hm Hzero Hpre. unfold binary_round_aux.
  destruct (shr_m_shr_fexp m e l Hm) as [Hq He'].
  destruct (shr_fexp prec emax m e l) as [mrs' e']. cbn [fst snd] in Hq, He'.
  set (m' := round_nearest_even (shr_m mrs') (loc_of_shr_record mrs')).
  pose proof (round_nearest_even_bounds (shr_m mrs') (loc_of_shr_record mrs')) as Hm'.
  fold m' in Hm'. rewrite Hq in Hm'.
  assert (Hn : round_shift m e = fexp (Zdigits2 m + e) - e) by (unfold round_shift; lia).
  rewrite Hn in *. subst e'.
  replace (e + (fexp (Zdigits2 m + e) - e)) with (fexp (Zdigits2 m + e)) by lia.
  assert (Hm'0 : 0 <= m').
  { assert (0 <= m / 2 ^ (fexp (Zdigits2 m + e) - e)); [| lia].
    apply Z.div_pos; [done | apply Z.pow_pos_nonneg; lia]. }
  rewrite shr_fexp_exact by done. unfold shr_state at 1. cbn [shr_m].
  change (valid_binary prec emax
            (pack s (m' / 2 ^ round_shift m' (fexp (Zdigits2 m + e)),
                       fexp (Zdigits2 m + e) + round_shift m' (fexp (Zdigits2 m + e))))
          = true).
  destruct (Z.eq_dec m 0) as [-> | Hne].
  - (* a zero mantissa far below the format rounds to zero or to the
       smallest number *)
    specialize (Hzero eq_refl).
    assert (Hfe : fexp (Zdigits2 0 + e) = emin) by (simpl; unfold SpecFloat.fexp; lia).
    rewrite Hfe in *. rewrite Z.div_0_l in Hm' by (apply Z.pow_nonzero; lia).
    assert (Hm'01 : m' = 0 \/ m' = 1) by lia.
    apply valid_pack.
    + apply Z.div_pos; [done | apply Z.pow_pos_nonneg; [lia | apply round_shift_nonneg]].
    + intros HM. destruct Hm'01 as [-> | ->].
      * rewrite Z.div_0_l in HM by (apply Z.pow_nonzero; [lia | apply round_shift_nonneg]).
        lia.
      * assert (Hn' : round_shift 1 emin = 0).
        { unfold round_shift. simpl Zdigits2. unfold SpecFloat.fexp. lia. }
        rewrite Hn'. rewrite Z.pow_0_r, Z.div_1_r, Z.add_0_r.
        unfold canonical. simpl Zdigits2. unfold SpecFloat.fexp. lia.
  - destruct (norm_after_round m e m' ltac:(lia) Hpre Hm') as (HM0 & _ & Hcan & _).
    by apply valid_pack.
Qed.

Lemma SFdiv_valid (x y : spec_float) :
  valid_binary prec emax (SFdiv prec emax x y) = true.
Proof.
  destruct x as [sx|sx| |sx mx ex], y as [sy|sy| |sy my ey]; try reflexivity.
  cbn [SFdiv]. unfold SFdiv_core_binary.
  set (d1 := Zdigits2 (Z.pos mx)). set (d2 := Zdigits2 (Z.pos my)).
  set (e' := Z.min (fexp (d1 + ex - (d2 + ey))) (ex - ey)).
  set (sh := ex - ey - e').
  assert (Hsh : 0 <= sh) by (unfold sh, e'; lia).
  set (m' := match sh with
             | 0 => Z.pos mx
             | Z.pos _ => Z.shiftl (Z.pos mx) sh
             | Z.neg _ => 0
             end).
  assert (Hm' : m' = Z.pos mx * 2 ^ sh).
  { unfold m'. destruct sh as [|p|p]; [simpl; lia | | lia].
    by rewrite Z.shiftl_mul_pow2 by lia. }
  pose proof (Z_div_mod m' (Z.pos my) ltac:(lia)) as Hdiv.
  destruct (Z.div_eucl m' (Z.pos my)) as [q r]. destruct Hdiv as [Hqr Hr].
  assert (Hp : 0 < 2 ^ sh) by (apply Z.pow_pos_nonneg; lia).
  assert (Hq0 : 0 <= q) by nia.
  pose proof (fexp_ge_emin (Zdigits2 q + e')) as Hfq.
  apply binary_round_aux_valid; [done | |].
  - (* a zero quotient only arises below the format *)
    intros ->.
    pose proof (Zdigits2_bounds (Z.pos mx) ltac:(lia)) as [Hlo1 _]. fold d1 in Hlo1.
    pose proof (Zdigits2_bounds (Z.pos my) ltac:(lia)) as [_ Hhi2]. fold d2 in Hhi2.
    pose proof (Zdigits2_pos (Z.pos mx) ltac:(lia)) as Hd1. fold d1 in Hd1.
    pose proof (Zdigits2_pos (Z.pos my) ltac:(lia)) as Hd2. fold d2 in Hd2.
    assert (Hlt : d1 + sh <= d2).
    { destruct (Z_le_gt_dec (d1 + sh) d2) as [|Hgt]; [done |].
      assert (Hpw : 2 ^ d2 <= 2 ^ (d1 - 1 + sh)) by (apply Z.pow_le_mono_r; lia).
      rewrite Z.pow_add_r in Hpw by lia. nia. }
    unfold sh, e', SpecFloat.fexp in *. lia.
  - destruct (Z_le_gt_dec e' emin) as [|Hgt]; [lia |].
    (* a normal quotient has enough digits *)
    pose proof (Zdigits2_bounds (Z.pos mx) ltac:(lia)) as [Hlo1 _]. fold d1 in Hlo1.
    pose proof (Zdigits2_bounds (Z.pos my) ltac:(lia)) as [_ Hhi2]. fold d2 in Hhi2.
    pose proof (Zdigits2_pos (Z.pos mx) ltac:(lia)) as Hd1. fold d1 in Hd1.
    pose proof (Zdigits2_pos (Z.pos my) ltac:(lia)) as Hd2. fold d2 in Hd2.
    assert (Hk : prec <= d1 + sh - d2).
    { unfold sh, e', SpecFloat.fexp in *. lia. }
    assert (Hdq : d1 + sh - d2 <= Zdigits2 q).
    { apply Zdigits2_ge; [lia |].
      assert (Hpow : 2 ^ (d1 + sh - d2 - 1) * 2 ^ d2 = 2 ^ (d1 - 1) * 2 ^ sh).
      { rewrite <- !Z.pow_add_r by lia. f_equal. lia. }
      assert (0 < 2 ^ (d1 + sh - d2 - 1)) by (apply Z.pow_pos_nonneg; lia).
      destruct (Z_le_gt_dec (2 ^ (d1 + sh - d2 - 1)) q) as [|Hq]; [done |].
      assert (q + 1 <= 2 ^ (d1 + sh - d2 - 1)) by lia.
      nia. }
    pose proof (fexp_mono (d1 + ex - (d2 + ey)) (Zdigits2 q + e')) as Hmono.
    unfold sh, e' in *. lia.
Qed.

Lemma SFmul_valid (x y : spec_float) :
  valid_binary prec emax x = true -> valid_binary prec emax y = true ->
  valid_binary prec emax (SFmul prec emax x y) = true.
Proof.
  intros Hx Hy.
  destruct x as [sx|sx| |sx mx ex], y as [sy|sy| |sy my ey]; try reflexivity.
  by destruct (SFmul_xval (S754_finite sx mx ex) (S754_finite sy my ey)) as [[_ Hv] _].
Qed.

Lemma SFadd_valid (x y : spec_float) :
  valid_binary prec emax x = true -> valid_binary prec emax y = true ->
  valid_binary prec emax (SFadd prec emax x y) = true.
Proof.
  intros Hx Hy.
  destruct x as [sx|sx| |sx mx ex], y as [sy|sy| |sy my ey];
    try reflexivity; try done;
    try (cbn [SFadd]; by destruct sx, sy).
  by destruct (SFadd_xval (S754_finite sx mx ex) (S754_finite sy my ey)) as [[_ Hv] _].
Qed.

(* --------------------------------------------------------------------- *)
(** ** Monotonicity of the operations                                     *)

Lemma finite_xval_lt (x : spec_float) :
  in_format x -> is_finite x = true -> - huge < xval x < huge.
Proof.
  intros Hx Hfx. pose proof huge_pos.
  destruct x as [s|s| |s m e]; try discriminate; cbn [xval]; [lia |].
  destruct (in_format_finite_value _ _ _ Hx) as (_ & _ & Hb & _).
  unfold sgn. destruct s; lia.
Qed.

Lemma in_format_cases (x : spec_float) :
  in_format x ->
  is_finite x = true \/ x = S754_infinity false \/ x = S754_infinity true.
Proof. intros [Hn _]. destruct x as [s|[|]| |s m e]; try discriminate; eauto. Qed.

Lemma SFsub_finite_infinity (x : spec_float) (s : bool) :
  is_finite x = true ->
  SFsub prec emax x (S754_infinity s) = S754_infinity (negb s).
Proof. by destruct x. Qed.

Lemma SFsub_antitone (x c1 c2 : spec_float) :
  in_format x -> is_finite x = true -> in_format c1 -> in_format c2 ->
  xval c1 <= xval c2 ->
  in_format (SFsub prec emax x c1) /\ in_format (SFsub prec emax x c2) /\
  xval (SFsub prec emax x c2) <= xval (SFsub prec emax x c1).
Proof.
  intros Hx Hfx Hc1 Hc2 Hle. pose proof huge_pos.
  destruct (in_format_cases c1 Hc1) as [Hf1 | [-> | ->]];
    destruct (in_format_cases c2 Hc2) as [Hf2 | [-> | ->]];
    rewrite ?SFsub_finite_infinity by done; cbn [negb];
    try (destruct (SFsub_xval x c1 Hx Hc1 Hfx Hf1) as [Hg1 Hv1]);
    try (destruct (SFsub_xval x c2 Hx Hc2 Hfx Hf2) as [Hg2 Hv2]);
    try (pose proof (finite_xval_lt c1 Hc1 Hf1));
    try (pose proof (finite_xval_lt c2 Hc2 Hf2));
    try (pose proof (xval_bounds _ Hg1));
    try (pose proof (xval_bounds _ Hg2));
    (split; [done || apply in_format_infinity |]);
    (split; [done || apply in_format_infinity |]);
    cbn [xval] in *; unfold sgn in *; try lia.
  rewrite Hv1, Hv2. apply round_signed_mono. lia.
Qed.

Lemma SFmul_finite_infinity (mk : positive) (ek : Z) (s : bool) :
  SFmul prec emax (S754_finite false mk ek) (S754_infinity s) = S754_infinity s.
Proof. reflexivity. Qed.

Lemma SFmul_monotone (mk : positive) (ek : Z) (p1 p2 : spec_float) :
  in_format (S754_finite false mk ek) -> in_format p1 -> in_format p2 ->
  xval p2 <= xval p1 ->
  in_format (SFmul prec emax (S754_finite false mk ek) p1) /\
  in_format (SFmul prec emax (S754_finite false mk ek) p2) /\
  xval (SFmul prec emax (S754_finite false mk ek) p2)
  <= xval (SFmul prec emax (S754_finite false mk ek) p1).
Proof.
  intros Hk Hp1 Hp2 Hle. pose proof huge_pos. pose proof emin_neg.
  set (k := S754_finite false mk ek) in *.
  assert (Hfk : is_finite k = true) by done.
  destruct (in_format_finite_value _ _ _ Hk) as (_ & Hek & _ & _).
  assert (Hk1 : 0 < xval_emin k).
  { cbn [xval_emin k]. unfold sgn. rewrite Z.mul_1_l.
    apply Z.mul_pos_pos; [lia | apply Z.pow_pos_nonneg; lia]. }
  destruct (in_format_cases p1 Hp1) as [Hf1 | [-> | ->]];
    destruct (in_format_cases p2 Hp2) as [Hf2 | [-> | ->]];
    unfold k; rewrite ?SFmul_finite_infinity; fold k;
    try (destruct (SFmul_xval k p1 Hk Hp1 Hfk Hf1) as [Hg1 Hv1]);
    try (destruct (SFmul_xval k p2 Hk Hp2 Hfk Hf2) as [Hg2 Hv2]);
    try (pose proof (finite_xval_lt p1 Hp1 Hf1));
    try (pose proof (finite_xval_lt p2 Hp2 Hf2));
    try (pose proof (xval_bounds _ Hg1));
    try (pose proof (xval_bounds _ Hg2));
    (split; [done || apply in_format_infinity |]);
    (split; [done || apply in_format_infinity |]);
    cbn [xval] in *; unfold sgn in *; try lia.
  rewrite Hv1, Hv2. apply round_signed_mono.
  rewrite (xval_xval_emin p1 Hp1 Hf1), (xval_xval_emin p2 Hp2 Hf2) in Hle.
  assert (0 < 2 ^ (- emin)) by (apply Z.pow_pos_nonneg; lia).
  nia.
Qed.

Lemma SFltb_irrefl_nan (y : spec_float) : SFltb S754_nan y = false.
Proof. reflexivity. Qed.

Lemma SFadd_not_lt (K z1 z2 : spec_float) :
  valid_binary prec emax K = true -> in_format z1 -> in_format z2 ->
  xval z2 <= xval z1 ->
  SFltb (SFadd prec emax K z1) (SFadd prec emax K z2) = false.
Proof.
  intros HK Hz1 Hz2 Hle. pose proof huge_pos.
  destruct (is_nan K) eqn:HnK.
  { destruct K; try discriminate. reflexivity. }
  assert (HgK : in_format K) by done.
  destruct (in_format_cases K HgK) as [HfK | [-> | ->]].
  - (* a finite first summand *)
    assert (Hinf : forall s, SFadd prec emax K (S754_infinity s) = S754_infinity s).
    { intros s. by destruct K. }
    assert (Hres : in_format (SFadd prec emax K z1) /\ in_format (SFadd prec emax K z2) /\
                   xval (SFadd prec emax K z2) <= xval (SFadd prec emax K z1)).
    { destruct (in_format_cases z1 Hz1) as [Hf1 | [-> | ->]];
        destruct (in_format_cases z2 Hz2) as [Hf2 | [-> | ->]];
        rewrite ?Hinf;
        try (destruct (SFadd_xval K z1 HgK Hz1 HfK Hf1) as [Hg1 Hv1]);
        try (destruct (SFadd_xval K z2 HgK Hz2 HfK Hf2) as [Hg2 Hv2]);
        try (pose proof (finite_xval_lt z1 Hz1 Hf1));
        try (pose proof (finite_xval_lt z2 Hz2 Hf2));
        try (pose proof (xval_bounds _ Hg1));
        try (pose proof (xval_bounds _ Hg2));
        (split; [done || apply in_format_infinity |]);
        (split; [done || apply in_format_infinity |]);
        cbn [xval] in *; unfold sgn in *; try lia.
      rewrite Hv1, Hv2. apply round_signed_mono. lia. }
    destruct Hres as (Hg1 & Hg2 & Hv).
    destruct (SFltb _ _) eqn:Hlt; [| reflexivity].
    pose proof (SFltb_xval _ _ Hg1 Hg2 Hlt). lia.
  - destruct z1 as [|[|]| |], z2 as [|[|]| |]; reflexivity.
  - destruct z1 as [|[|]| |], z2 as [|[|]| |]; reflexivity.
Qed.
End Rounding.

(* ===================================================================== *)
(** * The heuristic cost                                                  *)
(* ===================================================================== *)

(** The scenario of the demonstration: equal cost and duration, confidence
    0.97 against 0.90; the route with confidence 0.90 costs strictly
    more. *)
Example cost_function_demo :
  cost_function demo_route_two_hops = S754_finite false 5969971666042331 (-54) /\
  cost_function demo_route_one_hop = S754_finite false 6348274034741452 (-54) /\
  (cost_function demo_route_two_hops <? cost_function demo_route_one_hop)%f64 = true.
Proof. repeat split; vm_compute; reflexivity. Qed.

(** Infinite estimates of opposite sign make the cost NaN. *)
Example cost_function_nan :
  cost_function (mkRoute "ethereum" "polkadot" []
                   (S754_infinity false) (S754_infinity true) F64.one)
  = S754_nan.
Proof. vm_compute. reflexivity. Qed.

(** C7 as stated fails: two routes with the same cost and duration and
    confidence scores 0.5 and 0.5000000000000001, for which the lower
    confidence does not give a strictly higher cost: both costs are the
    same double. *)
Lemma cost_function_not_strict :
  (F64.decimal 5 10 <? F64.decimal 5000000000000001 10000000000000000)%f64 = true /\
  cost_function (route_with_confidence (F64.decimal 5 10))
  = cost_function (route_with_confidence (F64.decimal 5000000000000001 10000000000000000)) /\
  (cost_function (route_with_confidence (F64.decimal 5000000000000001 10000000000000000))
   <? cost_function (route_with_confidence (F64.decimal 5 10)))%f64 = false.
Proof. repeat split; vm_compute; reflexivity. Qed.

Lemma weight_03 : F64.decimal 3 10 = S754_finite false 5404319552844595 (-54).
Proof. vm_compute. reflexivity. Qed.

Lemma SFltb_not_nan (a b : spec_float) :
  SFltb a b = true -> is_nan a = false /\ is_nan b = false.
Proof. by destruct a, b. Qed.

(** The part of the cost that does not depend on the confidence is a
    binary64 number (or NaN), whatever the cost and the duration are. *)
Lemma cost_and_time_valid (route : Route) :
  valid64 (F64.decimal 4 10 * (estimated_cost route / F64.of_Z 100000)
           + F64.decimal 3 10 * (estimated_time_ms route / F64.of_Z 1000000))%f64 = true.
Proof.
  apply (SFadd_valid (fmt := binary64));
    (apply (SFmul_valid (fmt := binary64));
     [vm_compute; reflexivity | apply (SFdiv_valid (fmt := binary64))]).
Qed.

(** C7, as the program behaves: the cost is the weighted sum, every
    operation rounded to double precision; of two routes with the same
    estimated cost and time, the one with the lower confidence score never
    gets the lower cost, and when the two costs are numbers (not NaN) it
    gets a cost that is higher or, when the difference is lost in
    rounding, equal. *)
Theorem cost_function_confidence :
  (forall route : Route,
     cost_function route
     = (F64.decimal 4 10 * (estimated_cost route / F64.of_Z 100000)
        + F64.decimal 3 10 * (estimated_time_ms route / F64.of_Z 1000000)
        + F64.decimal 3 10 * (F64.one - confidence_score route))%f64) /\
  (forall route1 route2 : Route,
     valid64 (confidence_score route1) = true ->
     valid64 (confidence_score route2) = true ->
     estimated_cost route1 = estimated_cost route2 ->
     estimated_time_ms route1 = estimated_time_ms route2 ->
     (confidence_score route1 <? confidence_score route2)%f64 = true ->
     (cost_function route1 <? cost_function route2)%f64 = false /\
     (is_nan (cost_function route1) = false ->
      is_nan (cost_function route2) = false ->
      (cost_function route2 <=? cost_function route1)%f64 = true)).
Proof.
  split; [intros route; unfold cost_function; reflexivity |].
  intros route1 route2 Hv1 Hv2 Hcost Htime Hlt.
  assert (Hnot : (cost_function route1 <? cost_function route2)%f64 = false).
  { destruct (SFltb_not_nan _ _ Hlt) as [Hn1 Hn2].
    assert (Hc1 : in_format (fmt := binary64) (confidence_score route1)) by done.
    assert (Hc2 : in_format (fmt := binary64) (confidence_score route2)) by done.
    pose proof (SFltb_xval (fmt := binary64) _ _ Hc1 Hc2 Hlt) as Hx.
    assert (Hone : in_format (fmt := binary64) F64.one) by (split; vm_compute; reflexivity).
    destruct (SFsub_antitone (fmt := binary64) F64.one
                (confidence_score route1) (confidence_score route2)
                Hone eq_refl Hc1 Hc2 ltac:(lia)) as (Hp1 & Hp2 & Hp).
    assert (Hw : in_format (fmt := binary64) (S754_finite false 5404319552844595 (-54)))
      by (split; vm_compute; reflexivity).
    destruct (SFmul_monotone (fmt := binary64) _ _ _ _ Hw Hp1 Hp2 Hp) as (Hz1 & Hz2 & Hz).
    unfold cost_function. cbv zeta. rewrite Hcost, Htime, weight_03.
    apply (SFadd_not_lt (fmt := binary64)); [| exact Hz1 | exact Hz2 | exact Hz].
    rewrite <- weight_03. apply (cost_and_time_valid route2). }
  split; [exact Hnot |].
  intros Hnan1 Hnan2. by apply SFltb_false_leb.
Qed.

Lemma cost_function_confidence_witness :
  valid64 (confidence_score demo_route_one_hop) = true /\
  valid64 (confidence_score demo_route_two_hops) = true /\
  (confidence_score demo_route_one_hop <? confidence_score demo_route_two_hops)%f64 = true /\
  (cost_function demo_route_one_hop <? cost_function demo_route_two_hops)%f64 = false /\
  (cost_function demo_route_two_hops <=? cost_function demo_route_one_hop)%f64 = true.
Proof.
  split; [vm_compute; reflexivity |]. split; [vm_compute; reflexivity |].
  split; [vm_compute; reflexivity |].
  destruct (proj2 cost_function_confidence demo_route_one_hop demo_route_two_hops)
    as [Hnot Hle]; try (vm_compute; reflexivity).
  split; [exact Hnot |]. apply Hle; vm_compute; reflexivity.
Defined.

(* ===================================================================== *)
(** * The encoder on any metadata                                       *)
(* ===================================================================== *)

Lemma np_setitem_Ok (a : list f32) (i : Z) (v : f64) :
  - Z.of_nat (length a) <= i < Z.of_nat (length a) ->
  np_setitem a i v = Ok (<[Z.to_nat (i mod Z.of_nat (length a)) := F32.of_f64 v]> a).
Proof.
  intros Hi. unfold np_setitem.
  destruct (Z.leb_spec 0 i) as [Hlo | Hlo].
  - destruct (Z.ltb_spec i (Z.of_nat (length a))) as [Hhi | Hhi]; [| lia].
    cbn [andb]. by rewrite Z.mod_small by lia.
  - cbn [andb].
    destruct (Z.leb_spec (- Z.of_nat (length a)) i) as [Hlo' | Hlo']; [| lia].
    destruct (Z.ltb_spec i 0) as [Hneg | Hneg]; [| lia]. cbn [andb].
    do 3 f_equal.
    apply (Z.mod_unique _ _ (-1)); lia.
Qed.

Lemma np_setitem_Err (a : list f32) (i : Z) (v : f64) :
  i < - Z.of_nat (length a) \/ Z.of_nat (length a) <= i ->
  np_setitem a i v = Err IndexError.
Proof.
  intros Hi. unfold np_setitem.
  destruct (Z.leb_spec 0 i); destruct (Z.ltb_spec i (Z.of_nat (length a)));
    destruct (Z.leb_spec (- Z.of_nat (length a)) i); destruct (Z.ltb_spec i 0);
    cbn [andb]; try reflexivity; lia.
Qed.

Lemma float_of_int_overflow (n : Z) :
  is_finite (F64.of_Z n) = false -> float_of_int n = Err OverflowError.
Proof. intros Hn. unfold float_of_int. by rewrite Hn. Qed.

(** What [encode_chain] does on an entry of the metadata, case by case. *)
Lemma encode_chain_cases md (chain_name : string) (meta : ChainMeta) :
  md !! chain_name = Some meta ->
  encode_chain md chain_name =
    if negb (meta_finite meta) then Err OverflowError
    else if (-20 <=? id meta) && (id meta <? 12) then
      Ok (<[one_hot_slot meta := F32.of_f64 F64.one]>
          (<[3%nat := F32.of_f64 (reliability meta)]>
          (<[2%nat := F32.of_f64 (F64.of_Z (avg_cost meta) / F64.of_Z 100000)%f64]>
          (<[1%nat := F32.of_f64 (F64.of_Z (avg_latency meta) / F64.of_Z 1000000)%f64]>
          (<[0%nat := F32.of_f64 (F64.of_Z (id meta) / F64.of_Z 10)%f64]> (np_zeros 16))))))
    else Err IndexError.
Proof.
  intros Hlook. unfold encode_chain, meta_finite. rewrite Hlook.
  destruct (is_finite (F64.of_Z (id meta))) eqn:Hid; cbn [andb negb].
  2:{ rewrite (float_of_int_overflow (id meta)) by exact Hid. reflexivity. }
  rewrite (float_of_int_finite (id meta)) by done. cbn [mbind result_bind].
  rewrite (np_setitem_in_range _ 0) by (simpl; lia). cbn [mbind result_bind].
  destruct (is_finite (F64.of_Z (avg_latency meta))) eqn:Hlat; cbn [andb negb].
  2:{ rewrite (float_of_int_overflow (avg_latency meta)) by exact Hlat. reflexivity. }
  rewrite (float_of_int_finite (avg_latency meta)) by done. cbn [mbind result_bind].
  rewrite (np_setitem_in_range _ 1) by (rewrite ?length_insert; simpl; lia).
  cbn [mbind result_bind].
  destruct (is_finite (F64.of_Z (avg_cost meta))) eqn:Hcost; cbn [andb negb].
  2:{ rewrite (float_of_int_overflow (avg_cost meta)) by exact Hcost. reflexivity. }
  rewrite (float_of_int_finite (avg_cost meta)) by done. cbn [mbind result_bind].
  rewrite (np_setitem_in_range _ 2) by (rewrite ?length_insert; simpl; lia).
  cbn [mbind result_bind].
  rewrite (np_setitem_in_range _ 3) by (rewrite ?length_insert; simpl; lia).
  cbn [mbind result_bind].
  destruct (Z.leb_spec (-20) (id meta)) as [Hlo | Hlo];
    destruct (Z.ltb_spec (id meta) 12) as [Hhi | Hhi]; cbn [andb].
  - rewrite np_setitem_Ok by (rewrite !length_insert; simpl; lia).
    cbn [mbind result_bind]. rewrite !length_insert. reflexivity.
  - rewrite np_setitem_Err by (rewrite !length_insert; simpl; lia). reflexivity.
  - rewrite np_setitem_Err by (rewrite !length_insert; simpl; lia). reflexivity.
  - lia.
Qed.

(** X1: on a chain of the metadata, [encode_chain] raises OverflowError
    exactly when one of the integers [id], [avg_latency], [avg_cost] is too
    large for a float, and otherwise raises IndexError exactly when the
    one-hot index [4 + id] is outside the 16 slots, that is when [id >= 12]
    or [id < -20]; for every other entry it returns a vector. *)
Theorem encode_chain_errors md (chain_name : string) (meta : ChainMeta) :
  md !! chain_name = Some meta ->
  (is_Ok (encode_chain md chain_name)
     <-> meta_finite meta = true /\ -20 <= id meta < 12) /\
  (encode_chain md chain_name = Err IndexError
     <-> meta_finite meta = true /\ (id meta < -20 \/ 12 <= id meta)) /\
  (encode_chain md chain_name = Err OverflowError <-> meta_finite meta = false).
Proof.
  intros Hlook. rewrite (encode_chain_cases md chain_name meta Hlook).
  destruct (meta_finite meta); cbn [negb].
  - destruct (Z.leb_spec (-20) (id meta)) as [Hlo | Hlo];
      destruct (Z.ltb_spec (id meta) 12) as [Hhi | Hhi]; cbn [andb];
      (split; [| split]); split;
      try (intros [v Hv]; discriminate Hv); try discriminate;
      try (intros [_ ?]; lia); try (intros; split; [reflexivity | lia]);
      try (intros; eexists; reflexivity); try reflexivity; intros; try lia.
  - (split; [| split]); split; try discriminate; try reflexivity;
      try (intros [v Hv]; discriminate Hv); intros [? _]; discriminate.
Qed.

Lemma encode_chain_errors_witness :
  let meta := mkChainMeta 12 500 10000 (F64.decimal 99 100) in
  let md : gmap string ChainMeta := {[ "testnet" := meta ]} in
  encode_chain md "testnet" = Err IndexError.
Proof.
  apply (proj1 (proj2 (encode_chain_errors
           {[ "testnet" := mkChainMeta 12 500 10000 (F64.decimal 99 100) ]} "testnet"
           (mkChainMeta 12 500 10000 (F64.decimal 99 100))
           (lookup_singleton_eq _ _)))).
  split; [vm_compute; reflexivity | simpl; lia].
Defined.

(** X2: for every accepted id the one-hot value 1.0 is written at slot
    [(4 + id) mod 16], a negative index counting from the end.  The slots
    from 4 on hold 0 elsewhere and the first four slots hold the normalised
    values, except the slot of the one-hot write: for the ids -4..-1 and
    -20..-17 it replaces one of the four normalised values. *)
Theorem encode_chain_one_hot_wraps md (chain_name : string) (meta : ChainMeta) :
  md !! chain_name = Some meta ->
  meta_finite meta = true ->
  -20 <= id meta < 12 ->
  exists v : list f32,
    encode_chain md chain_name = Ok v /\
    length v = 16%nat /\
    v !! one_hot_slot meta = Some (F32.of_f64 F64.one) /\
    (forall i : nat, (i < 4)%nat -> i <> one_hot_slot meta ->
       v !! i = numeric_features meta !! i) /\
    (forall i : nat, (4 <= i < 16)%nat -> i <> one_hot_slot meta ->
       v !! i = Some F32.zero) /\
    ((one_hot_slot meta < 4)%nat <-> -4 <= id meta <= -1 \/ -20 <= id meta <= -17).
Proof.
  intros Hlook Hfin Hid.
  rewrite (encode_chain_cases md chain_name meta Hlook), Hfin. cbn [negb].
  replace ((-20 <=? id meta) && (id meta <? 12)) with true.
  2:{ symmetry. apply andb_true_iff. split; [apply Z.leb_le | apply Z.ltb_lt]; lia. }
  assert (Hslot : (one_hot_slot meta < 16)%nat).
  { unfold one_hot_slot. pose proof (Z.mod_pos_bound (4 + id meta) 16). lia. }
  eexists. split; [reflexivity |].
  split; [by rewrite !length_insert |].
  split; [apply list_lookup_insert_eq; rewrite !length_insert; simpl; lia |].
  split; [| split].
  - intros i Hi Hne. rewrite list_lookup_insert_ne by done.
    destruct i as [|[|[|[|i]]]]; [reflexivity.. | lia].
  - intros i Hi Hne. rewrite !list_lookup_insert_ne by lia.
    apply lookup_np_zeros. lia.
  - unfold one_hot_slot.
    destruct (Z.leb_spec 0 (4 + id meta)) as [Hpos | Hneg].
    + rewrite Z.mod_small by lia. lia.
    + replace ((4 + id meta) mod 16) with (20 + id meta); [lia |].
      apply (Z.mod_unique _ _ (-1)); lia.
Qed.

Lemma encode_chain_one_hot_wraps_witness :
  let meta := mkChainMeta (-1) 500 10000 (F64.decimal 99 100) in
  let md : gmap string ChainMeta := {[ "testnet" := meta ]} in
  one_hot_slot meta = 3%nat /\
  exists v : list f32,
    encode_chain md "testnet" = Ok v /\
    length v = 16%nat /\
    v !! one_hot_slot meta = Some (F32.of_f64 F64.one) /\
    (forall i : nat, (i < 4)%nat -> i <> one_hot_slot meta ->
       v !! i = numeric_features meta !! i) /\
    (forall i : nat, (4 <= i < 16)%nat -> i <> one_hot_slot meta ->
       v !! i = Some F32.zero) /\
    ((one_hot_slot meta < 4)%nat <-> -4 <= id meta <= -1 \/ -20 <= id meta <= -17).
Proof.
  split; [reflexivity |].
  apply (encode_chain_one_hot_wraps
           {[ "testnet" := mkChainMeta (-1) 500 10000 (F64.decimal 99 100) ]} "testnet"
           (mkChainMeta (-1) 500 10000 (F64.decimal 99 100))).
  - apply lookup_singleton_eq.
  - vm_compute. reflexivity.
  - simpl. lia.
Defined.

(** X3: two chains of the metadata with different ids in 0..11 get
    different vectors, and a chain of the metadata never gets the vector of
    an unknown chain. *)
Theorem encode_chain_separates md (name1 name2 : string) (meta1 meta2 : ChainMeta) :
  md !! name1 = Some meta1 -> meta_ok meta1 = true ->
  (md !! name2 = Some meta2 -> meta_ok meta2 = true -> id meta1 <> id meta2 ->
     encode_chain md name1 <> encode_chain md name2) /\
  (md !! name2 = None -> encode_chain md name1 <> encode_chain md name2).
Proof.
  intros Hlook1 Hok1.
  pose proof (meta_ok_id meta1 Hok1) as Hid1.
  destruct (encoded_layout meta1 Hid1) as (_ & _ & _ & _ & Hone1 & _).
  rewrite (encode_chain_known md name1 meta1 Hlook1 Hok1).
  split.
  - intros Hlook2 Hok2 Hne.
    pose proof (meta_ok_id meta2 Hok2) as Hid2.
    destruct (encoded_layout meta2 Hid2) as (_ & _ & _ & _ & _ & Hzero2).
    rewrite (encode_chain_known md name2 meta2 Hlook2 Hok2).
    intros [= Heq]. rewrite Heq in Hone1.
    rewrite Hzero2 in Hone1 by lia. vm_compute in Hone1. discriminate Hone1.
  - intros Hlook2. rewrite (encode_chain_unknown md name2 Hlook2).
    intros [= Heq]. rewrite Heq in Hone1.
    rewrite lookup_np_zeros in Hone1 by lia. vm_compute in Hone1. discriminate Hone1.
Qed.

Lemma encode_chain_separates_witness :
  encode_chain chain_metadata_init "ethereum" <> encode_chain chain_metadata_init "sentium" /\
  encode_chain chain_metadata_init "ethereum" <> encode_chain chain_metadata_init "solana".
Proof.
  destruct (encode_chain_separates chain_metadata_init "ethereum" "sentium"
              (mkChainMeta 0 15000 50000 (F64.decimal 99 100))
              (mkChainMeta 4 500 10000 (F64.decimal 99 100))
              eq_refl eq_refl) as [Hknown _].
  destruct (encode_chain_separates chain_metadata_init "ethereum" "solana"
              (mkChainMeta 0 15000 50000 (F64.decimal 99 100))
              (mkChainMeta 4 500 10000 (F64.decimal 99 100))
              eq_refl eq_refl) as [_ Hunknown].
  split; [apply Hknown | apply Hunknown]; try reflexivity. discriminate.
Defined.

(* ===================================================================== *)
(** * The graph builder in closed form                                  *)
(* ===================================================================== *)

Lemma mapM_result_inv {A B} (f : A -> result B) (l : list A) (k : list B) :
  mapM f l = Ok k -> Forall2 (fun a b => f a = Ok b) l k.
Proof.
  revert k. induction l as [|a l IH]; intros k Hk.
  - injection Hk as <-. constructor.
  - cbn [mapM] in Hk. destruct (f a) as [b|e] eqn:Hb; [| discriminate Hk].
    cbn [mbind result_bind] in Hk.
    destruct (mapM f l) as [k'|e]; [| discriminate Hk].
    injection Hk as <-. constructor; [done | by apply IH].
Qed.

Lemma mapM_result_Forall2 {A B} (f : A -> result B) (l : list A) (k : list B) :
  Forall2 (fun a b => f a = Ok b) l k -> mapM f l = Ok k.
Proof.
  induction 1 as [|a b l k Hab _ IH]; [reflexivity |].
  cbn [mapM]. rewrite Hab. cbn [mbind result_bind]. by rewrite IH.
Qed.

Lemma mapM_result_Err {A B} (f : A -> result B) (l : list A) (e : exn) :
  mapM f l = Err e -> exists a, a ∈ l /\ f a = Err e.
Proof.
  induction l as [|a l IH]; intros He; [discriminate He |].
  cbn [mapM] in He. destruct (f a) as [b|e'] eqn:Hb.
  - cbn [mbind result_bind] in He.
    destruct (mapM f l) as [k|e'']; [discriminate He |].
    injection He as ->. destruct IH as (a' & Ha' & Hf); [reflexivity |].
    exists a'. split; [by right | done].
  - injection He as ->. exists a. split; [left | done].
Qed.

Lemma mapM_result_fmap {A B} (f : A -> result B) (g : A -> B) (l : list A) :
  (forall a, a ∈ l -> f a = Ok (g a)) -> mapM f l = Ok (g <$> l).
Proof.
  intros Hfg. apply mapM_result_Forall2. apply Forall2_fmap_r, Forall_Forall2_diag.
  by apply Forall_forall.
Qed.

Lemma chain_to_idx_snoc (ps : list (nat * string)) (i : nat) (c : string)
    (d : gmap string nat) :
  foldl (fun d '(idx, chain) => <[chain := idx]> d) d (ps ++ [(i, c)])
  = <[c := i]> (foldl (fun d '(idx, chain) => <[chain := idx]> d) d ps).
Proof. by rewrite foldl_snoc. Qed.

Lemma chain_to_idx_pairs (ps : list (nat * string)) (c : string) (i : nat) :
  NoDup ps.*2 ->
  foldl (fun (d : gmap string nat) '(idx, chain) => <[chain := idx]> d) ∅ ps !! c = Some i
  <-> (i, c) ∈ ps.
Proof.
  induction ps as [|[j c'] ps IH] using rev_ind; intros Hnd.
  - simpl. rewrite lookup_empty. split; [done |]. by intros ?%elem_of_nil.
  - rewrite fmap_app in Hnd. apply NoDup_app in Hnd as (Hnd & Hnot & _).
    rewrite chain_to_idx_snoc, elem_of_app, list_elem_of_singleton.
    destruct (decide (c' = c)) as [-> | Hne].
    + rewrite lookup_insert_eq. split.
      * intros [= ->]. by right.
      * intros [Hin | [= -> ]]; [| done].
        exfalso. apply (Hnot c); [| simpl; left].
        apply list_elem_of_fmap. by exists (i, c).
    + rewrite lookup_insert_ne by done. rewrite IH by done.
      split; [by left |]. intros [Hin | [= _ ?]]; [done | congruence].
Qed.

Lemma chain_to_idx_lookup_iff (chains : list string) (c : string) (i : nat) :
  NoDup chains -> chain_to_idx chains !! c = Some i <-> chains !! i = Some c.
Proof.
  intros Hnd. unfold chain_to_idx.
  rewrite chain_to_idx_pairs by (by rewrite enumerate_snd).
  unfold enumerate. rewrite elem_of_lookup_imap. split.
  - by intros (j & c' & [= -> ->] & Hj).
  - intros Hi. by exists i, c.
Qed.

Lemma NoDup_sorted (chains : gset string) : NoDup (sorted chains).
Proof. rewrite sorted_Permutation. apply NoDup_elements. Qed.

Lemma NoDup_node_order (route : Route) : NoDup (node_order route).
Proof. apply NoDup_sorted. Qed.

Lemma elem_of_node_order (route : Route) (c : string) :
  c ∈ node_order route <-> c ∈ chain_names (hops route).
Proof. unfold node_order. by rewrite elem_of_sorted, elem_of_list_to_set. Qed.

Lemma elem_of_chain_names (hops : list Hop) (c : string) :
  c ∈ chain_names hops <-> exists hop, hop ∈ hops /\ (c = from_chain hop \/ c = to_chain hop).
Proof.
  unfold chain_names. rewrite list_elem_of_bind. split.
  - intros (hop & Hc & Hhop). exists hop. split; [done |].
    apply elem_of_cons in Hc as [-> | Hc]; [by left |].
    apply list_elem_of_singleton in Hc as ->. by right.
  - intros (hop & Hhop & [-> | ->]); exists hop; (split; [| done]).
    + left.
    + right. left.
Qed.

Lemma length_np_setitem (a a' : list f32) (i : Z) (v : f64) :
  np_setitem a i v = Ok a' -> length a' = length a.
Proof.
  unfold np_setitem. repeat case_match; intros [= <-]; by rewrite length_insert.
Qed.

(** Every vector [encode_chain] returns has 16 slots, for all metadata. *)
Lemma length_encode_chain md (chain_name : string) (v : list f32) :
  encode_chain md chain_name = Ok v -> length v = 16%nat.
Proof.
  unfold encode_chain. destruct (md !! chain_name) as [meta|]; [| by intros [= <-]].
  destruct (float_of_int (id meta)); [| done]. cbn [mbind result_bind].
  destruct (np_setitem _ 0 _) as [f0|] eqn:H0; [| done]. cbn [mbind result_bind].
  destruct (float_of_int (avg_latency meta)); [| done]. cbn [mbind result_bind].
  destruct (np_setitem _ 1 _) as [f1|] eqn:H1; [| done]. cbn [mbind result_bind].
  destruct (float_of_int (avg_cost meta)); [| done]. cbn [mbind result_bind].
  destruct (np_setitem _ 2 _) as [f2|] eqn:H2; [| done]. cbn [mbind result_bind].
  destruct (np_setitem _ 3 _) as [f3|] eqn:H3; [| done]. cbn [mbind result_bind].
  destruct (np_setitem _ (4 + _) _) as [f4|] eqn:H4; [| done]. cbn [mbind result_bind].
  intros [= <-].
  apply length_np_setitem in H0, H1, H2, H3, H4. simpl in H0. congruence.
Qed.

Lemma hop_edge_eq (d : gmap string nat) (hop : Hop) :
  hop_edge d hop =
    from_idx ← dict_get d (from_chain hop);
    to_idx ← dict_get d (to_chain hop);
    Ok ([Z.of_nat from_idx; Z.of_nat to_idx], edge_features hop).
Proof. reflexivity. Qed.

Lemma length_edge_features (hop : Hop) : length (edge_features hop) = 6%nat.
Proof. unfold edge_features. simpl. destruct (decide _); by rewrite ?length_insert. Qed.

Lemma omap_seq_S {A} (f : nat -> option A) (s n : nat) :
  omap f (seq (S s) n) = omap (fun i => f (S i)) (seq s n).
Proof.
  revert s. induction n as [|n IH]; intros s; [reflexivity |].
  simpl. by rewrite <- IH.
Qed.

Lemma omap_seq_ext {A} (f g : nat -> option A) (s n : nat) :
  (forall i, f i = g i) -> omap f (seq s n) = omap g (seq s n).
Proof.
  intros Hfg. revert s. induction n as [|n IH]; intros s; [reflexivity |].
  simpl. rewrite Hfg. by rewrite IH.
Qed.

Lemma omap_seq_0_S {A} (f : nat -> option A) (n : nat) :
  omap f (seq 0 (S n))
  = match f 0%nat with
    | Some y => y :: omap (fun i => f (S i)) (seq 0 n)
    | None => omap (fun i => f (S i)) (seq 0 n)
    end.
Proof. cbn [seq]. rewrite <- omap_seq_S. reflexivity. Qed.

(** The transposition of the [E x 2] edge index: the sources of all
    edges, then their targets. *)
Lemma column_pairs (ps : list (Z * Z)) :
  column 2 (concat ((fun p => [p.1; p.2]) <$> ps)) 0 = ps.*1 /\
  column 2 (concat ((fun p => [p.1; p.2]) <$> ps)) 1 = ps.*2.
Proof.
  unfold column.
  assert (Hlen : (length (concat ((fun p : Z * Z => [p.1; p.2]) <$> ps)) / 2)%nat
                 = length ps).
  { replace (length (concat _)) with (length ps * 2)%nat.
    - apply Nat.div_mul. lia.
    - induction ps as [|p ps IH]; [reflexivity |].
      cbn [fmap list_fmap concat length app]. rewrite <- IH. cbn [length]. lia. }
  rewrite Hlen. clear Hlen.
  induction ps as [|p ps [IH0 IH1]]; [done |].
  cbn [length fmap list_fmap concat app]. rewrite !omap_seq_0_S.
  cbn [Nat.mul Nat.add lookup list_lookup]. split; f_equal.
  - rewrite <- IH0. apply omap_seq_ext. intros i. simpl. reflexivity.
  - rewrite <- IH1. apply omap_seq_ext. intros i. simpl. reflexivity.
Qed.

Lemma list_index_lookup (c : string) (l : list string) :
  c ∈ l -> l !! list_index c l = Some c.
Proof.
  induction l as [|a l IH]; [by intros ?%elem_of_nil |].
  intros Hc. cbn [list_index]. destruct (decide (a = c)) as [-> | Hne]; [done |].
  apply elem_of_cons in Hc as [-> | Hc]; [done |]. by apply IH.
Qed.

Lemma dict_get_chain_to_idx (route : Route) (c : string) :
  c ∈ chain_names (hops route) ->
  dict_get (chain_to_idx (node_order route)) c = Ok (node_index route c).
Proof.
  intros Hc. unfold dict_get, node_index.
  assert (Hlook : chain_to_idx (node_order route) !! c
                  = Some (list_index c (node_order route))).
  { apply chain_to_idx_lookup_iff; [apply NoDup_node_order |].
    apply list_index_lookup. by apply elem_of_node_order. }
  by rewrite Hlook.
Qed.

(** [create_graph_from_route] on a route with hops: the encoder runs on
    the nodes in order, then the graph is assembled; no other step
    raises. *)
Lemma create_graph_from_route_eq md (route : Route) :
  hops route <> [] ->
  create_graph_from_route md route
  = node_features ← mapM (encode_chain md) (node_order route);
    Ok (graph_of node_features route).
Proof.
  intros Hne. unfold create_graph_from_route.
  rewrite collect_chains, (left_id_L ∅ (∪)).
  fold (node_order route). fold (chain_to_idx (node_order route)).
  destruct (mapM (encode_chain md) (node_order route)) as [nf|e] eqn:Hnf;
    [| reflexivity].
  cbn [mbind result_bind].
  (* the node features *)
  apply mapM_result_inv in Hnf.
  assert (Hrows : Forall (fun v => length v = 16%nat) nf).
  { apply Forall_forall. intros v Hv.
    apply list_elem_of_lookup in Hv as [i Hi].
    destruct (Forall2_lookup_r _ _ _ _ _ Hnf Hi) as (c & _ & Hc).
    by apply length_encode_chain in Hc. }
  assert (Hnf_ne : nf <> []).
  { intros ->. apply Forall2_length in Hnf. simpl in Hnf.
    apply (chain_names_nonempty _ Hne). apply length_zero_iff_nil.
    rewrite <- length_sorted_list_to_set. exact Hnf. }
  rewrite (torch_tensor_uniform _ nf 16) by done. cbn [mbind result_bind].
  rewrite list_fmap_id.
  (* the edges *)
  rewrite (mapM_result_fmap _
             (fun hop => ([Z.of_nat (node_index route (from_chain hop));
                           Z.of_nat (node_index route (to_chain hop))],
                          edge_features hop))).
  2:{ intros hop Hhop. rewrite hop_edge_eq.
      rewrite !dict_get_chain_to_idx; [reflexivity | |];
        apply elem_of_chain_names; exists hop; auto. }
  cbn [mbind result_bind].
  rewrite <- !list_fmap_compose.
  rewrite (torch_tensor_uniform (fun i : Z => i) _ 2).
  2:{ by destruct (hops route). }
  2:{ apply Forall_fmap, Forall_forall. intros hop _. reflexivity. }
  cbn [mbind result_bind Tensor_t shape data].
  rewrite (torch_tensor_uniform F32.of_f64 _ 6).
  2:{ by destruct (hops route). }
  2:{ apply Forall_fmap, Forall_forall. intros hop _. apply length_edge_features. }
  cbn [mbind result_bind]. unfold graph_of. rewrite !length_fmap, list_fmap_id.
  f_equal. f_equal.
  pose proof (column_pairs
                ((fun hop => (Z.of_nat (node_index route (from_chain hop)),
                              Z.of_nat (node_index route (to_chain hop)))) <$> hops route))
    as [Hfrom Hto].
  rewrite <- !list_fmap_compose in Hfrom, Hto.
  cbn [seq fmap list_fmap concat]. rewrite app_nil_r.
  f_equal. f_equal; [exact Hfrom | exact Hto].
Qed.

Lemma string_compare_trans (c : comparison) (s1 s2 s3 : string) :
  String.compare s1 s2 = c -> String.compare s2 s3 = c -> String.compare s1 s3 = c.
Proof.
  revert s2 s3. induction s1 as [|a1 s1 IH]; intros [|a2 s2] [|a3 s3]; simpl;
    try congruence.
  unfold Ascii.compare.
  destruct (N.compare_spec (Ascii.N_of_ascii a1) (Ascii.N_of_ascii a2)) as [H12|H12|H12];
    destruct (N.compare_spec (Ascii.N_of_ascii a2) (Ascii.N_of_ascii a3)) as [H23|H23|H23];
    destruct (N.compare_spec (Ascii.N_of_ascii a1) (Ascii.N_of_ascii a3)) as [H13|H13|H13];
    try congruence; try lia; eauto.
Qed.

#[global] Instance string_le_total : Total string_le.
Proof. intros a b. apply String.leb_total. Qed.

#[global] Instance string_le_trans : Transitive string_le.
Proof.
  intros a b c. unfold string_le, String.leb.
  destruct (String.compare a b) eqn:Hab; [| | discriminate];
    destruct (String.compare b c) eqn:Hbc; try discriminate; intros _ _.
  - by rewrite (string_compare_trans Eq a b c).
  - apply String.compare_eq_iff in Hab as ->. by rewrite Hbc.
  - apply String.compare_eq_iff in Hbc as <-. by rewrite Hab.
  - by rewrite (string_compare_trans Lt a b c).
Qed.

Lemma node_order_ascending (route : Route) (i j : nat) (a b : string) :
  node_order route !! i = Some a -> node_order route !! j = Some b -> (i < j)%nat ->
  string_le a b /\ a <> b.
Proof.
  intros Hi Hj Hij. split.
  - pose proof (StronglySorted_merge_sort string_le
                  (elements (list_to_set (C := gset string) (chain_names (hops route)))))
      as Hsorted.
    apply (StronglySorted_app_1_elem_of string_le (take j (node_order route))
             (drop j (node_order route))).
    + rewrite take_drop. exact Hsorted.
    + apply list_elem_of_lookup. exists i. rewrite lookup_take_lt by done. exact Hi.
    + apply list_elem_of_lookup. exists 0%nat. rewrite lookup_drop, Nat.add_0_r. exact Hj.
  - intros ->. pose proof (NoDup_node_order route) as Hnd.
    rewrite NoDup_alt in Hnd. specialize (Hnd i j b Hi Hj). lia.
Qed.

Lemma concat_row {A} (n : nat) (rows : list (list A)) (i : nat) (row : list A) :
  Forall (fun r => length r = n) rows -> rows !! i = Some row ->
  take n (drop (i * n) (concat rows)) = row.
Proof.
  intros Hrows. revert i. induction Hrows as [|r rows Hr Hrows IH]; intros i Hi.
  - by rewrite lookup_nil in Hi.
  - destruct i as [|i]; cbn [concat].
    + injection Hi as <-. rewrite Nat.mul_0_l, drop_0.
      rewrite take_app_le by lia. apply take_ge. lia.
    + cbn [lookup list_lookup] in Hi.
      replace (S i * n)%nat with (length r + i * n)%nat by lia.
      rewrite drop_app_add. by apply IH.
Qed.

Lemma edge_features_one_hot (hop : Hop) :
  edge_features hop
  = [ (cost hop / F64.of_Z 100000)%f64; (time_ms hop / F64.of_Z 1000000)%f64 ]
    ++ ((fun t => if decide (bridge_type hop = t) then F64.one else F64.zero)
          <$> bridge_types).
Proof.
  unfold edge_features. f_equal. unfold bridge_types.
  destruct (decide (bridge_type hop ∈ _)) as [Hin | Hnot].
  - cbn [list_index fmap list_fmap].
    destruct (decide ("Native" = bridge_type hop)) as [<- | H1]; [reflexivity |].
    destruct (decide ("Wrapped" = bridge_type hop)) as [<- | H2]; [reflexivity |].
    destruct (decide ("Liquidity" = bridge_type hop)) as [<- | H3]; [reflexivity |].
    destruct (decide ("Relay" = bridge_type hop)) as [<- | H4]; [reflexivity |].
    exfalso. repeat (apply elem_of_cons in Hin as [Hin | Hin]; [congruence |]).
    by apply elem_of_nil in Hin.
  - cbn [fmap list_fmap]. repeat (rewrite decide_False; [| intros Heq; apply Hnot;
      rewrite Heq; repeat ((by left) || right)]). reflexivity.
Qed.

Lemma node_index_lt (route : Route) (c : string) :
  c ∈ chain_names (hops route) ->
  node_order route !! node_index route c = Some c.
Proof. intros Hc. apply list_index_lookup. by apply elem_of_node_order. Qed.



(** X4: on a route whose hops carry their cost and duration as floats,
    [create_graph_from_route] raises exactly when [encode_chain] raises
    on one of the chain names of the hops, and then with an exception of
    [encode_chain]: the lookups in [chain_to_idx], the divisions and the
    three calls of [torch.tensor] never raise.  With the metadata of
    [__init__] it returns a graph for every such route. *)
Theorem create_graph_from_route_errors md (route : Route) :
  (is_Ok (create_graph_from_route md route)
     <-> forall c, c ∈ chain_names (hops route) -> is_Ok (encode_chain md c)) /\
  (forall e, create_graph_from_route md route = Err e ->
     exists c, c ∈ chain_names (hops route) /\ encode_chain md c = Err e) /\
  (forall route' : Route, is_Ok (create_graph_from_route chain_metadata_init route')).
Proof.
  assert (Hall : forall md' route',
            (forall c, c ∈ chain_names (hops route') -> is_Ok (encode_chain md' c)) ->
            is_Ok (create_graph_from_route md' route')).
  { intros md' route' Hok. destruct (decide (hops route' = [])) as [Hnil | Hne].
    - exists empty_graph. unfold create_graph_from_route. by rewrite Hnil.
    - rewrite create_graph_from_route_eq by done.
      destruct (mapM_result_Ok (encode_chain md') (node_order route')) as (nf & -> & _).
      + intros c Hc. apply Hok. by apply elem_of_node_order.
      + by eexists. }
  assert (Herr : forall e, create_graph_from_route md route = Err e ->
            exists c, c ∈ chain_names (hops route) /\ encode_chain md c = Err e).
  { intros e He. destruct (decide (hops route = [])) as [Hnil | Hne].
    - unfold create_graph_from_route in He. by rewrite Hnil in He.
    - rewrite create_graph_from_route_eq in He by done.
      destruct (mapM (encode_chain md) (node_order route)) as [nf|e'] eqn:Hnf;
        [discriminate He |].
      injection He as ->. apply mapM_result_Err in Hnf as (c & Hc & Hf).
      exists c. split; [by apply elem_of_node_order | done]. }
  split; [split | split].
  - intros [g Hg] c Hc.
    destruct (encode_chain md c) as [v|e] eqn:Hv; [by exists v |].
    exfalso. destruct (decide (hops route = [])) as [Hnil | Hne].
    + rewrite Hnil in Hc. by apply elem_of_nil in Hc.
    + rewrite create_graph_from_route_eq in Hg by done.
      destruct (mapM (encode_chain md) (node_order route)) as [nf|e'] eqn:Hnf;
        [| discriminate Hg].
      apply mapM_result_inv in Hnf. apply elem_of_node_order in Hc.
      apply list_elem_of_lookup in Hc as [i Hi].
      destruct (Forall2_lookup_l _ _ _ _ _ Hnf Hi) as (v & _ & Hv'). congruence.
  - apply Hall.
  - exact Herr.
  - intros route'. apply Hall. intros c _.
    destruct (encode_chain_total chain_metadata_init c chain_metadata_init_ok)
      as (v & Hv & _). by exists v.
Qed.

(** X5: the nodes of the graph are the distinct chain names of the hops
    in ascending order: node [i] is the [i]-th name and row [i] of [x] is
    its encoding, whatever the order of the hops. *)
Theorem create_graph_from_route_nodes md (route : Route) (g : Data) :
  create_graph_from_route md route = Ok g ->
  num_nodes g = length (node_order route) /\
  (forall (i : nat) (c : string), node_order route !! i = Some c ->
     exists v, encode_chain md c = Ok v /\
               take 16 (drop (i * 16) (data (x g))) = v) /\
  (forall c, c ∈ node_order route <->
     exists hop, hop ∈ hops route /\ (c = from_chain hop \/ c = to_chain hop)) /\
  (forall (i j : nat) (a b : string),
     node_order route !! i = Some a -> node_order route !! j = Some b ->
     (i < j)%nat -> string_le a b /\ a <> b).
Proof.
  intros Hg. split; [| split; [| split]].
  - destruct (decide (hops route = [])) as [Hnil | Hne].
    + unfold create_graph_from_route in Hg. rewrite Hnil in Hg. injection Hg as <-.
      unfold node_order. by rewrite Hnil.
    + rewrite create_graph_from_route_eq in Hg by done.
      destruct (mapM (encode_chain md) (node_order route)) as [nf|e] eqn:Hnf;
        [| discriminate Hg].
      injection Hg as <-. apply mapM_result_inv, Forall2_length in Hnf.
      unfold num_nodes, graph_of. simpl. by rewrite Hnf.
  - intros i c Hi. destruct (decide (hops route = [])) as [Hnil | Hne].
    + apply list_elem_of_lookup_2, elem_of_node_order in Hi.
      rewrite Hnil in Hi. by apply elem_of_nil in Hi.
    + rewrite create_graph_from_route_eq in Hg by done.
      destruct (mapM (encode_chain md) (node_order route)) as [nf|e] eqn:Hnf;
        [| discriminate Hg].
      injection Hg as <-. apply mapM_result_inv in Hnf.
      destruct (Forall2_lookup_l _ _ _ _ _ Hnf Hi) as (v & Hv & Hc).
      exists v. split; [done |]. cbn [graph_of x data].
      apply concat_row; [| done].
      apply Forall_forall. intros v' Hv'.
      apply list_elem_of_lookup in Hv' as [i' Hi'].
      destruct (Forall2_lookup_r _ _ _ _ _ Hnf Hi') as (c' & _ & Hc').
      by apply length_encode_chain in Hc'.
  - intros c. rewrite elem_of_node_order. apply elem_of_chain_names.
  - apply node_order_ascending.
Qed.

Lemma create_graph_from_route_nodes_witness :
  num_nodes demo_graph_two_hops = length (node_order demo_route_two_hops) /\
  (forall (i : nat) (c : string), node_order demo_route_two_hops !! i = Some c ->
     exists v, encode_chain chain_metadata_init c = Ok v /\
               take 16 (drop (i * 16) (data (x demo_graph_two_hops))) = v) /\
  (forall c, c ∈ node_order demo_route_two_hops <->
     exists hop, hop ∈ hops demo_route_two_hops /\
                 (c = from_chain hop \/ c = to_chain hop)) /\
  (forall (i j : nat) (a b : string),
     node_order demo_route_two_hops !! i = Some a ->
     node_order demo_route_two_hops !! j = Some b ->
     (i < j)%nat -> string_le a b /\ a <> b).
Proof.
  apply (create_graph_from_route_nodes chain_metadata_init demo_route_two_hops
           demo_graph_two_hops).
  vm_compute. reflexivity.
Defined.

(** X6: the edge index has the sources of the hops in its first row and
    their targets in its second row, in hop order; the entries of column
    [k] are the node indices of [from_chain] and [to_chain] of hop [k],
    both below the number of nodes. *)
Theorem create_graph_from_route_edges md (route : Route) (g : Data)
    (k : nat) (hop : Hop) :
  create_graph_from_route md route = Ok g ->
  hops route !! k = Some hop ->
  exists i j : nat,
    data (edge_index g) !! k = Some (Z.of_nat i) /\
    data (edge_index g) !! (length (hops route) + k)%nat = Some (Z.of_nat j) /\
    node_order route !! i = Some (from_chain hop) /\
    node_order route !! j = Some (to_chain hop) /\
    (i < num_nodes g)%nat /\ (j < num_nodes g)%nat.
Proof.
  intros Hg Hk.
  assert (Hne : hops route <> []).
  { intros Hnil. rewrite Hnil in Hk. by rewrite lookup_nil in Hk. }
  rewrite create_graph_from_route_eq in Hg by done.
  destruct (mapM (encode_chain md) (node_order route)) as [nf|e] eqn:Hnf;
    [| discriminate Hg].
  injection Hg as <-. apply mapM_result_inv, Forall2_length in Hnf.
  assert (Hin : hop ∈ hops route) by (eapply list_elem_of_lookup_2; exact Hk).
  assert (Hfrom : node_order route !! node_index route (from_chain hop)
                  = Some (from_chain hop)).
  { apply node_index_lt, elem_of_chain_names. exists hop. auto. }
  assert (Hto : node_order route !! node_index route (to_chain hop)
                = Some (to_chain hop)).
  { apply node_index_lt, elem_of_chain_names. exists hop. auto. }
  exists (node_index route (from_chain hop)), (node_index route (to_chain hop)).
  cbn [graph_of edge_index data]. repeat split.
  - rewrite lookup_app_l by (rewrite length_fmap; eapply lookup_lt_Some; exact Hk).
    by rewrite list_lookup_fmap, Hk.
  - rewrite lookup_app_r by (rewrite length_fmap; lia).
    rewrite length_fmap.
    replace (length (hops route) + k - length (hops route))%nat with k by lia.
    by rewrite list_lookup_fmap, Hk.
  - exact Hfrom.
  - exact Hto.
  - unfold num_nodes. simpl. rewrite <- Hnf. eapply lookup_lt_Some. exact Hfrom.
  - unfold num_nodes. simpl. rewrite <- Hnf. eapply lookup_lt_Some. exact Hto.
Qed.

Lemma create_graph_from_route_edges_witness :
  exists i j : nat,
    data (edge_index demo_graph_two_hops) !! 1%nat = Some (Z.of_nat i) /\
    data (edge_index demo_graph_two_hops) !! (length (hops demo_route_two_hops) + 1)%nat
      = Some (Z.of_nat j) /\
    node_order demo_route_two_hops !! i = Some "sentium" /\
    node_order demo_route_two_hops !! j = Some "polkadot" /\
    (i < num_nodes demo_graph_two_hops)%nat /\ (j < num_nodes demo_graph_two_hops)%nat.
Proof.
  apply (create_graph_from_route_edges chain_metadata_init demo_route_two_hops
           demo_graph_two_hops 1
           (mkHop "sentium" "polkadot" "Native" (F64.of_Z 30000) (F64.of_Z 3000)));
    vm_compute; reflexivity.
Defined.

(** X7: row [k] of [edge_attr] holds, in single precision, [cost/1e5] and
    [time_ms/1e6] of hop [k] and then one slot per bridge type, 1.0 at the
    type of the hop; a bridge type that is none of the four raises nothing
    and gives four zeros. *)
Theorem create_graph_from_route_edge_attr md (route : Route) (g : Data)
    (k : nat) (hop : Hop) :
  create_graph_from_route md route = Ok g ->
  hops route !! k = Some hop ->
  shape (edge_attr g) = [length (hops route); 6%nat] /\
  take 6 (drop (k * 6) (data (edge_attr g)))
  = [ F32.of_f64 (cost hop / F64.of_Z 100000)%f64;
      F32.of_f64 (time_ms hop / F64.of_Z 1000000)%f64 ]
    ++ ((fun t => if decide (bridge_type hop = t)
                  then F32.of_f64 F64.one else F32.zero) <$> bridge_types).
Proof.
  intros Hg Hk.
  assert (Hne : hops route <> []).
  { intros Hnil. rewrite Hnil in Hk. by rewrite lookup_nil in Hk. }
  rewrite create_graph_from_route_eq in Hg by done.
  destruct (mapM (encode_chain md) (node_order route)) as [nf|e] eqn:Hnf;
    [| discriminate Hg].
  injection Hg as <-. cbn [graph_of edge_attr data shape]. split; [reflexivity |].
  transitivity (F32.of_f64 <$> edge_features hop).
  - rewrite <- (concat_row 6 ((fun hop => F32.of_f64 <$> edge_features hop) <$> hops route)
                  k (F32.of_f64 <$> edge_features hop)).
    + do 2 f_equal. clear. induction (hops route) as [|h hs IH]; [reflexivity |].
      cbn [fmap list_fmap concat]. rewrite fmap_app. f_equal. exact IH.
    + apply Forall_fmap, Forall_forall. intros h _. cbn.
      rewrite length_fmap. apply length_edge_features.
    + by rewrite list_lookup_fmap, Hk.
  - rewrite edge_features_one_hot, fmap_app, <- list_fmap_compose. f_equal.
    apply list_fmap_ext. intros _ t _. cbn. by destruct (decide _).
Qed.

Lemma create_graph_from_route_edge_attr_witness :
  shape (edge_attr demo_graph_one_hop) = [1%nat; 6%nat] /\
  take 6 (drop (0 * 6) (data (edge_attr demo_graph_one_hop)))
  = [ F32.of_f64 (F64.of_Z 80000 / F64.of_Z 100000)%f64;
      F32.of_f64 (F64.of_Z 8000 / F64.of_Z 1000000)%f64;
      F32.zero; F32.zero; F32.of_f64 F64.one; F32.zero ].
Proof.
  apply (create_graph_from_route_edge_attr chain_metadata_init demo_route_one_hop
           demo_graph_one_hop 0
           (mkHop "ethereum" "polkadot" "Liquidity" (F64.of_Z 80000) (F64.of_Z 8000)));
    vm_compute; reflexivity.
Defined.

(** X8: the node features depend on the set of chain names only: two
    routes whose hops name the same chains, in any order and any number of
    times, and carry their cost and duration as floats, get the same
    tensor [x], or the same exception. *)
Theorem create_graph_from_route_chain_set md (route1 route2 : Route) :
  (forall c, c ∈ chain_names (hops route1) <-> c ∈ chain_names (hops route2)) ->
  x <$> create_graph_from_route md route1 = x <$> create_graph_from_route md route2.
Proof.
  intros Hset.
  assert (Horder : node_order route1 = node_order route2).
  { unfold node_order. f_equal. apply set_eq. intros c.
    by rewrite !elem_of_list_to_set. }
  assert (Hnil : hops route1 = [] <-> hops route2 = []).
  { split; intros Hn.
    - destruct (hops route2) as [|hop hs]; [done |]. exfalso.
      assert (Hc : from_chain hop ∈ chain_names (hops route1)).
      { apply Hset. left. }
      rewrite Hn in Hc. by apply elem_of_nil in Hc.
    - destruct (hops route1) as [|hop hs]; [done |]. exfalso.
      assert (Hc : from_chain hop ∈ chain_names (hops route2)).
      { apply Hset. left. }
      rewrite Hn in Hc. by apply elem_of_nil in Hc. }
  destruct (decide (hops route1 = [])) as [Hn1 | Hne1].
  - pose proof (proj1 Hnil Hn1) as Hn2.
    unfold create_graph_from_route. by rewrite Hn1, Hn2.
  - assert (Hne2 : hops route2 <> []) by (intros Hn2; by apply Hne1, Hnil).
    rewrite !create_graph_from_route_eq, Horder by done.
    by destruct (mapM (encode_chain md) (node_order route2)).
Qed.

Lemma create_graph_from_route_chain_set_witness :
  hops demo_route_two_hops <> hops demo_route_two_hops_reversed /\
  x <$> create_graph_from_route chain_metadata_init demo_route_two_hops
  = x <$> create_graph_from_route chain_metadata_init demo_route_two_hops_reversed.
Proof.
  split; [discriminate |].
  apply (create_graph_from_route_chain_set chain_metadata_init
           demo_route_two_hops demo_route_two_hops_reversed).
  intros c. unfold chain_names. cbn.
  rewrite !elem_of_cons. rewrite elem_of_nil. tauto.
Defined.

(* ===================================================================== *)
(** * Effects and errors of the scorer and the selector                 *)
(* ===================================================================== *)

Lemma insert_reverse_Permutation {A} (key : A -> f64) (a : A) (l : list A) :
  insert_reverse key a l ≡ₚ a :: l.
Proof.
  induction l as [|b l IH]; [done |]. cbn [insert_reverse].
  destruct (key a <? key b)%f64; [| done].
  rewrite IH. apply Permutation_swap.
Qed.

Lemma sort_reverse_Permutation {A} (key : A -> f64) (l : list A) :
  sort_reverse key l ≡ₚ l.
Proof.
  induction l as [|a l IH]; [done |].
  change (sort_reverse key (a :: l)) with (insert_reverse key a (sort_reverse key l)).
  by rewrite insert_reverse_Permutation, IH.
Qed.

Lemma insert_reverse_fmap {A B} (key : B -> f64) (f : A -> B) (a : A) (l : list A) :
  insert_reverse key (f a) (f <$> l) = f <$> insert_reverse (key ∘ f) a l.
Proof.
  induction l as [|b l IH]; [reflexivity |].
  cbn [fmap list_fmap insert_reverse]. unfold compose at 1 2.
  destruct (key (f a) <? key (f b))%f64; [| reflexivity].
  cbn [fmap list_fmap]. by rewrite <- IH.
Qed.

Lemma sort_reverse_fmap {A B} (key : B -> f64) (f : A -> B) (l : list A) :
  sort_reverse key (f <$> l) = f <$> sort_reverse (key ∘ f) l.
Proof.
  induction l as [|a l IH]; [reflexivity |].
  cbn [fmap list_fmap].
  change (sort_reverse key (f a :: (f <$> l)))
    with (insert_reverse key (f a) (sort_reverse key (f <$> l))).
  rewrite IH, insert_reverse_fmap. reflexivity.
Qed.

Lemma SFleb_antisym_eqb (a b : spec_float) :
  is_nan a = false -> is_nan b = false ->
  SFleb a b = true -> SFleb b a = true -> SFeqb a b = true.
Proof.
  intros Ha Hb Hab Hba.
  apply SFleb_key in Hab; [| done..]. apply SFleb_key in Hba; [| done..].
  destruct (SFcompare_key a b Ha Hb) as (c & Hc & Hkey).
  unfold SFeqb. rewrite Hc.
  destruct c; [reflexivity | exfalso..]; unfold key_lt, key_le in *; lia.
Qed.

Lemma chain_names_pairs (route : Route) :
  chain_names (hops route) = chain_pairs route ≫= fun p => [p.1; p.2].
Proof.
  unfold chain_names, chain_pairs.
  induction (hops route) as [|hop hs IH]; [reflexivity |].
  cbn. by rewrite IH.
Qed.

Lemma zip_lookup_pairs (scores : list f64) (routes routes' : list Route)
    (i : nat) (s : f64) (r r' : Route) :
  zip scores (zip routes routes') !! i = Some (s, (r, r')) ->
  routes !! i = Some r /\ routes' !! i = Some r'.
Proof.
  intros Hi.
  apply lookup_zip_with_Some in Hi as (s0 & p & [= <- <-] & _ & Hp).
  by apply lookup_zip_with_Some in Hp as (r0 & r0' & [= <- <-] & Hr & Hr').
Qed.

Section OptimizerEffects.
Context `{Torch}.

(** The scoring loop of [optimize_route], in every case: all candidates
    score, or the loop stops at the first candidate whose scoring raises. *)
Lemma score_all_cases (routes : list Route) (w : World) :
  (exists scores,
     Forall2 (fun route score => score_inference (self w) route = Ok score) routes scores /\
     mapM (fun route => score ← score_route route; mret (score, route)) routes w
     = (Ok (zip scores routes), if routes is [] then w else set_training false w)) \/
  (exists (i : nat) (route : Route) (e : exn),
     routes !! i = Some route /\
     score_inference (self w) route = Err e /\
     (forall j r, (j < i)%nat -> routes !! j = Some r -> is_Ok (score_inference (self w) r)) /\
     mapM (fun route => score ← score_route route; mret (score, route)) routes w
     = (Err e, set_training false w)).
Proof.
  revert w. induction routes as [|route routes IH]; intros w.
  - left. exists []. split; [constructor | reflexivity].
  - destruct (score_inference (self w) route) as [score|e] eqn:Hscore.
    + destruct (IH (set_training false w))
        as [(scores & Hall & Hmap) | (i & r & e & Hi & He & Hbefore & Hmap)].
      * left. exists (score :: scores). split; [by constructor |].
        cbn [mapM]. unfold mbind at 1, M_bind at 1.
        unfold mbind at 1, M_bind at 1. rewrite score_route_eq, Hscore.
        cbn [mret M_ret]. unfold mbind at 1, M_bind at 1. rewrite Hmap.
        cbn [mret M_ret zip zip_with]. by destruct routes.
      * right. exists (S i), r, e. split; [done |]. split; [done |]. split.
        -- intros [|j] r' Hj Hr'; [injection Hr' as <-; by exists score |].
           apply (Hbefore j); [lia | done].
        -- cbn [mapM]. unfold mbind at 1, M_bind at 1.
           unfold mbind at 1, M_bind at 1. rewrite score_route_eq, Hscore.
           cbn [mret M_ret]. unfold mbind at 1, M_bind at 1. by rewrite Hmap.
    + right. exists 0%nat, route, e. split; [done |]. split; [done |]. split.
      * intros j r Hj. lia.
      * cbn [mapM]. unfold mbind at 1, M_bind at 1.
        unfold mbind at 1, M_bind at 1. by rewrite score_route_eq, Hscore.
Qed.

(** X9: whether it returns a score or raises, [score_route] leaves the
    model in inference mode and changes nothing else: not the parameters,
    not the metadata, not the random generator.  On a model already in
    inference mode it changes nothing at all. *)
Theorem score_route_effects (route : Route) (w : World) :
  let w' := (score_route route w).2 in
  training (model (self w')) = false /\
  state_dict (model (self w')) = state_dict (model (self w)) /\
  chain_metadata (self w') = chain_metadata (self w) /\
  generator w' = generator w /\
  (training (model (self w)) = false -> w' = w).
Proof.
  cbn zeta. rewrite score_route_eq. cbn [snd].
  repeat split. intros Hmode.
  destruct w as [[[c1 c2 c3 f1 f2 p t] md] g]. cbn in Hmode. by subst t.
Qed.

(** X10: with two or more candidates [optimize_route] leaves the model in
    inference mode, whether it returns a route or raises, and changes
    nothing else. *)
Theorem optimize_route_effects (routes : list Route) (w : World) :
  (2 <= length routes)%nat ->
  (optimize_route routes w).2 = set_training false w.
Proof.
  intros Hlen. destruct routes as [|r1 [|r2 routes]]; [simpl in Hlen; lia.. |].
  unfold optimize_route. unfold mbind at 1, M_bind at 1.
  destruct (score_all_cases (r1 :: r2 :: routes) w)
    as [(scores & Hall & ->) | (i & r & e & _ & _ & _ & ->)]; [| reflexivity].
  by destruct (sort_reverse fst _) as [|[s r] k].
Qed.

Lemma optimize_route_sorted_by_sort_reverse (routes : list Route) :
  optimize_route_sorted_by (sort_reverse fst) routes = optimize_route routes.
Proof. reflexivity. Qed.

(** X11: a route that [optimize_route] returns is one of the candidates,
    whatever order the sort puts the scored candidates in, so also when
    scores are NaN: only that the sort returns a permutation of the list
    is used, as Python's sort does for all keys and as [sort_reverse]
    does. *)
Theorem optimize_route_returns_candidate
    (sort : list (f64 * Route) -> list (f64 * Route))
    (routes : list Route) (w : World) (route : Route) :
  (forall l, sort l ≡ₚ l) ->
  (optimize_route_sorted_by sort routes w).1 = Ok route -> route ∈ routes.
Proof.
  intros Hsort. destruct routes as [|r1 [|r2 routes]].
  - discriminate.
  - intros [= <-]. left.
  - unfold optimize_route_sorted_by. unfold mbind at 1, M_bind at 1.
    destruct (score_all_cases (r1 :: r2 :: routes) w)
      as [(scores & Hall & ->) | (i & r & e & _ & _ & _ & ->)]; [| discriminate].
    destruct (sort _) as [|[s r] k] eqn:Hsorted; [discriminate |].
    intros [= <-].
    assert (Hin : (s, r) ∈ zip scores (r1 :: r2 :: routes)).
    { rewrite <- (Hsort _), Hsorted. left. }
    apply list_elem_of_lookup in Hin as [j Hj].
    apply lookup_zip_with_Some in Hj as (s' & r' & [= <- <-] & _ & Hr).
    eapply list_elem_of_lookup_2. exact Hr.
Qed.

(** X12: [optimize_route] raises in two cases only: the empty list, with
    the input error, and two or more candidates one of which [score_route]
    raises on, with the exception of the first such candidate in input
    order.  A single candidate is never scored, so never raises. *)
Theorem optimize_route_errors (routes : list Route) (w : World) (e : exn) :
  (optimize_route routes w).1 = Err e <->
  (routes = [] /\ e = ValueError "No routes provided") \/
  ((2 <= length routes)%nat /\
   exists (i : nat) (route : Route),
     routes !! i = Some route /\
     (score_route route w).1 = Err e /\
     forall j r, (j < i)%nat -> routes !! j = Some r -> is_Ok (score_route r w).1).
Proof.
  destruct routes as [|r1 [|r2 routes]].
  - split.
    + intros [= <-]. by left.
    + intros [[_ ->] | [Hlen _]]; [reflexivity | simpl in Hlen; lia].
  - split; [discriminate |].
    intros [[Hnil _] | [Hlen _]]; [discriminate Hnil | simpl in Hlen; lia].
  - unfold optimize_route. unfold mbind at 1, M_bind at 1.
    destruct (score_all_cases (r1 :: r2 :: routes) w)
      as [(scores & Hall & ->) | (i & r & e' & Hi & He & Hbefore & ->)].
    + split.
      * destruct (sort_reverse fst _) as [|[s r] k] eqn:Hsort; [| discriminate].
        pose proof (sort_reverse_Permutation fst (zip scores (r1 :: r2 :: routes)))
          as Hperm.
        rewrite Hsort in Hperm. apply Permutation_nil_l in Hperm.
        apply Forall2_length in Hall. destruct scores; [discriminate Hall | discriminate Hperm].
      * intros [[Hnil _] | (_ & i & r & Hi & He & _)]; [discriminate Hnil |].
        rewrite score_route_eq in He. cbn [fst] in He.
        destruct (Forall2_lookup_l _ _ _ _ _ Hall Hi) as (s & _ & Hs). congruence.
    + cbn [fst]. split.
      * intros [= <-]. right. split; [simpl; lia |]. exists i, r.
        split; [done |]. rewrite score_route_eq. split; [done |].
        intros j r' Hj Hr'. rewrite score_route_eq. by apply (Hbefore j).
      * intros [[Hnil _] | (_ & i' & r' & Hi' & He' & Hbefore')]; [discriminate Hnil |].
        rewrite score_route_eq in He'. cbn [fst] in He'.
        destruct (Nat.lt_trichotomy i i') as [Hlt | [-> | Hgt]].
        -- destruct (Hbefore' i r Hlt Hi) as [s Hs].
           rewrite score_route_eq in Hs. cbn [fst] in Hs. congruence.
        -- congruence.
        -- destruct (Hbefore i' r' Hgt Hi') as [s Hs]. congruence.
Qed.

Lemma score_graph_ext (m : RouteGNN) (g1 g2 : Data) :
  x g1 = x g2 -> edge_index g1 = edge_index g2 -> score_graph m g1 = score_graph m g2.
Proof. intros Hx Hei. unfold score_graph. by rewrite Hx, Hei. Qed.

(** The inference score reads the chain names of the hops only. *)
Lemma score_inference_chain_pairs (opt : RouteOptimizer) (route1 route2 : Route) :
  chain_pairs route1 = chain_pairs route2 ->
  score_inference opt route1 = score_inference opt route2.
Proof.
  intros Hpairs. unfold score_inference.
  assert (Hlen : length (hops route1) = length (hops route2)).
  { apply (f_equal length) in Hpairs. unfold chain_pairs in Hpairs.
    by rewrite !length_fmap in Hpairs. }
  destruct (decide (hops route1 = [])) as [Hn1 | Hne1].
  - assert (Hn2 : hops route2 = []).
    { apply length_zero_iff_nil. rewrite <- Hlen, Hn1. reflexivity. }
    unfold create_graph_from_route. by rewrite Hn1, Hn2.
  - assert (Hne2 : hops route2 <> []).
    { intros Hn2. apply Hne1, length_zero_iff_nil. by rewrite Hlen, Hn2. }
    assert (Horder : node_order route1 = node_order route2).
    { unfold node_order. by rewrite !chain_names_pairs, Hpairs. }
    rewrite !create_graph_from_route_eq, Horder by done.
    destruct (mapM _ (node_order route2)) as [nf|e]; [| reflexivity].
    cbn [mbind result_bind]. apply score_graph_ext; [reflexivity |].
    unfold graph_of. cbn [edge_index]. rewrite Hlen. f_equal.
    unfold node_index. rewrite Horder.
    assert (Hfrom : forall r : Route,
              (fun hop => Z.of_nat (list_index (from_chain hop) (node_order route2)))
                <$> hops r
              = (fun p : string * string => Z.of_nat (list_index p.1 (node_order route2)))
                  <$> chain_pairs r).
    { intros r. unfold chain_pairs. by rewrite <- list_fmap_compose. }
    assert (Hto : forall r : Route,
              (fun hop => Z.of_nat (list_index (to_chain hop) (node_order route2)))
                <$> hops r
              = (fun p : string * string => Z.of_nat (list_index p.2 (node_order route2)))
                  <$> chain_pairs r).
    { intros r. unfold chain_pairs. by rewrite <- list_fmap_compose. }
    by rewrite !Hfrom, !Hto, Hpairs.
Qed.

(** X13: the score of a route depends on the chain names of its hops
    only: two routes whose hops name the same chains in the same order get
    the same result from [score_route], whatever their costs, durations,
    bridge types, estimates and confidence are as floats. *)
Theorem score_route_chain_pairs (route1 route2 : Route) (w : World) :
  chain_pairs route1 = chain_pairs route2 ->
  score_route route1 w = score_route route2 w.
Proof.
  intros Hpairs. rewrite !score_route_eq. f_equal.
  by apply score_inference_chain_pairs.
Qed.

Lemma train_step_self (batch_graphs : list Data) (labels : Tensor f32) (w : World) :
  self (train_step batch_graphs labels w).2 = self (set_training true w).
Proof.
  unfold train_step. unfold mbind at 1, M_bind at 1, model_train.
  apply (bind_self _ _ (set_training true w)); [reflexivity |].
  intros batch w1. apply bind_self; [apply forward_self |].
  intros predictions w2. apply bind_self; reflexivity.
Qed.

(** X14: a call of [train_step] changes no later score: [score_route]
    after it returns what it returns without it. *)
Theorem train_step_then_score_route (batch_graphs : list Data) (labels : Tensor f32)
    (route : Route) (w : World) :
  (score_route route (train_step batch_graphs labels w).2).1 = (score_route route w).1.
Proof.
  rewrite !score_route_eq. cbn [fst]. by rewrite train_step_self.
Qed.

(** The candidate [optimize_route] returns when all scores are numbers:
    one whose score no other score exceeds. *)
Lemma optimize_route_max (routes : list Route) (w : World) :
  (2 <= length routes)%nat ->
  (forall r, r ∈ routes ->
     exists s, score_inference (self w) r = Ok s /\ is_nan s = false) ->
  exists (i : nat) (route : Route) (score : f64),
    (optimize_route routes w).1 = Ok route /\
    routes !! i = Some route /\
    score_inference (self w) route = Ok score /\
    (forall r s, r ∈ routes -> score_inference (self w) r = Ok s ->
       (s <=? score)%f64 = true).
Proof.
  intros Hlen Hscored.
  destruct (score_all_cases routes w)
    as [(scores & Hall & Hmap) | (i & r & e & Hi & He & _)].
  2:{ destruct (Hscored r) as (s & Hs & _); [by eapply list_elem_of_lookup_2 |].
      congruence. }
  assert (Hlen2 : length routes = length scores) by (by eapply Forall2_length).
  assert (Hnan : Forall (fun p : f64 * Route => is_nan p.1 = false) (zip scores routes)).
  { apply Forall_forall. intros [s r] Hin.
    apply list_elem_of_lookup in Hin as [j Hj].
    apply lookup_zip_with_Some in Hj as (s' & r' & [= <- <-] & Hs & Hr).
    destruct (Hscored r) as (s' & Hs' & Hn); [by eapply list_elem_of_lookup_2 |].
    pose proof (Forall2_lookup_lr _ _ _ _ _ _ Hall Hr Hs) as Hrs. cbn in Hrs.
    cbn [fst]. congruence. }
  destruct (first_max_spec fst (zip scores routes)) as (i & [s r] & Hmax & Hi & Hle & _).
  { destruct routes as [|r1 routes]; [simpl in Hlen; lia |].
    destruct scores as [|s1 scores]; [discriminate Hlen2 | done]. }
  { exact Hnan. }
  apply lookup_zip_with_Some in Hi as (s' & r' & [= <- <-] & Hs & Hr).
  exists i, r, s. split; [| split; [done | split]].
  - destruct routes as [|r1 [|r2 routes]]; [simpl in Hlen; lia.. |].
    pose proof (head_sort_reverse fst (zip scores (r1 :: r2 :: routes))) as Hhead.
    rewrite Hmax in Hhead.
    unfold optimize_route. unfold mbind at 1, M_bind at 1. rewrite Hmap.
    destruct (sort_reverse fst _) as [|[s' r'] k]; [discriminate Hhead |].
    by injection Hhead as -> ->.
  - exact (Forall2_lookup_lr _ _ _ _ _ _ Hall Hr Hs).
  - intros r0 s0 Hin Hs0.
    apply list_elem_of_lookup in Hin as [j Hj].
    destruct (Forall2_lookup_l _ _ _ _ _ Hall Hj) as (s0' & Hs0' & Heq).
    assert (s0' = s0) as -> by congruence.
    apply (Hle j (s0, r0)). apply lookup_zip_with_Some. by exists s0, r0.
Qed.

(** X15: when the candidates score to pairwise different numbers, the
    order of the list does not matter: every permutation of the candidates
    gives the same route. *)
Theorem optimize_route_order_independent (routes routes' : list Route) (w : World) :
  (2 <= length routes)%nat ->
  routes ≡ₚ routes' ->
  (forall r, r ∈ routes ->
     exists s, (score_route r w).1 = Ok s /\ is_nan s = false) ->
  (forall (i j : nat) (r1 r2 : Route) (s1 s2 : f64),
     i <> j -> routes !! i = Some r1 -> routes !! j = Some r2 ->
     (score_route r1 w).1 = Ok s1 -> (score_route r2 w).1 = Ok s2 ->
     (s1 =? s2)%f64 = false) ->
  (optimize_route routes' w).1 = (optimize_route routes w).1.
Proof.
  intros Hlen Hperm Hscored Hdistinct.
  assert (Hscored1 : forall r, r ∈ routes ->
            exists s, score_inference (self w) r = Ok s /\ is_nan s = false).
  { intros r Hr. destruct (Hscored r Hr) as (s & Hs & Hn).
    rewrite score_route_eq in Hs. by exists s. }
  assert (Hscored2 : forall r, r ∈ routes' ->
            exists s, score_inference (self w) r = Ok s /\ is_nan s = false).
  { intros r Hr. apply Hscored1. by rewrite Hperm. }
  destruct (optimize_route_max routes w Hlen Hscored1)
    as (i & r & s & -> & Hi & Hs & Hmax).
  destruct (optimize_route_max routes' w) as (i' & r' & s' & -> & Hi' & Hs' & Hmax').
  { by rewrite <- Hperm. }
  { exact Hscored2. }
  f_equal.
  assert (Hin' : r' ∈ routes).
  { rewrite Hperm. by eapply list_elem_of_lookup_2. }
  assert (Hin : r ∈ routes') by (rewrite <- Hperm; by eapply list_elem_of_lookup_2).
  pose proof (Hmax r' s' Hin' Hs') as Hle1.
  pose proof (Hmax' r s Hin Hs) as Hle2.
  apply list_elem_of_lookup in Hin' as [j Hj].
  destruct (decide (i = j)) as [-> | Hne]; [congruence |].
  exfalso.
  assert (Heq : (s =? s')%f64 = false).
  { apply (Hdistinct i j r r'); [done.. | |]; by rewrite score_route_eq. }
  destruct (Hscored1 r) as (s0 & Hs0 & Hn); [by eapply list_elem_of_lookup_2 |].
  destruct (Hscored1 r') as (s0' & Hs0' & Hn'); [by eapply list_elem_of_lookup_2 |].
  assert (s0 = s) as -> by congruence. assert (s0' = s') as -> by congruence.
  rewrite (SFleb_antisym_eqb s s') in Heq by done. discriminate Heq.
Qed.

Lemma mapM_score_eq (routes : list Route) (w : World) :
  mapM (fun route => score ← score_route route; mret (score, route)) routes w
  = (mapM (fun route => score ← score_inference (self w) route; Ok (score, route)) routes,
     if routes is [] then w else set_training false w).
Proof.
  revert w. induction routes as [|route routes IH]; intros w; [reflexivity |].
  cbn [mapM]. unfold mbind at 1, M_bind at 1.
  unfold mbind at 1, M_bind at 1. rewrite score_route_eq.
  destruct (score_inference (self w) route) as [score|e]; [| reflexivity].
  cbn [mret M_ret mbind result_bind].
  unfold mbind at 1, M_bind at 1. rewrite IH.
  change (score_inference (self (set_training false w))) with (score_inference (self w)).
  destruct (mapM _ routes) as [scored|e]; cbn [mret M_ret mbind result_bind];
    by destruct routes.
Qed.

(** [optimize_route] in closed form: the selection in inference mode, and
    the model switched to inference mode when candidates were scored. *)
Lemma optimize_route_eq (routes : list Route) (w : World) :
  optimize_route routes w
  = (select_route (self w) routes,
     if decide (2 <= length routes)%nat then set_training false w else w).
Proof.
  destruct routes as [|r1 [|r2 routes]]; [reflexivity.. |].
  rewrite decide_True by (simpl; lia).
  unfold optimize_route, select_route. unfold mbind at 1, M_bind at 1.
  rewrite mapM_score_eq.
  destruct (mapM _ (r1 :: r2 :: routes)) as [scored|e]; [| reflexivity].
  cbn [mbind result_bind]. by destruct (sort_reverse fst scored) as [|[s r] k].
Qed.

(** X16: [optimize_route] is repeatable: a second call returns what the
    first returned, and the result does not depend on the mode the model
    was in nor on the state of the random generator. *)
Theorem optimize_route_deterministic (routes : list Route) (w : World) :
  (optimize_route routes (optimize_route routes w).2).1 = (optimize_route routes w).1 /\
  (forall (mode : bool) (g : Generator),
     (optimize_route routes (mkWorld (self (set_training mode w)) g)).1
     = (optimize_route routes w).1).
Proof.
  rewrite !optimize_route_eq. cbn [fst snd]. split.
  - by destruct (decide _).
  - intros mode g. rewrite optimize_route_eq. reflexivity.
Qed.

Lemma mapM_score_pairs (opt : RouteOptimizer) (routes routes' : list Route) :
  Forall2 (fun r r' => score_inference opt r = score_inference opt r') routes routes' ->
  (exists e,
     mapM (fun route => score ← score_inference opt route; Ok (score, route)) routes = Err e /\
     mapM (fun route => score ← score_inference opt route; Ok (score, route)) routes' = Err e) \/
  (exists scores,
     mapM (fun route => score ← score_inference opt route; Ok (score, route)) routes
     = Ok ((fun t : f64 * (Route * Route) => (t.1, t.2.1)) <$> zip scores (zip routes routes')) /\
     mapM (fun route => score ← score_inference opt route; Ok (score, route)) routes'
     = Ok ((fun t : f64 * (Route * Route) => (t.1, t.2.2)) <$> zip scores (zip routes routes'))).
Proof.
  induction 1 as [|r r' routes routes' Hrr _ IH].
  - right. exists []. split; reflexivity.
  - cbn [mapM]. rewrite <- Hrr.
    destruct (score_inference opt r) as [score|e]; cbn [mbind result_bind].
    + destruct IH as [(e & -> & ->) | (scores & -> & ->)].
      * left. by exists e.
      * right. exists (score :: scores). split; reflexivity.
    + left. by exists e.
Qed.

(** X17: the selection depends on the chain names of the hops only: on
    two lists of candidates that agree, position by position, on the chain
    names of their hops, and of which no score is NaN, [optimize_route]
    raises the same exception or returns the candidates at the same
    position, whatever the costs, durations, bridge types, estimates and
    confidence of the candidates are as floats. *)
Theorem optimize_route_chain_pairs (routes routes' : list Route) (w : World) :
  Forall2 (fun r r' => chain_pairs r = chain_pairs r') routes routes' ->
  (forall r s, r ∈ routes -> (score_route r w).1 = Ok s -> is_nan s = false) ->
  (exists e, (optimize_route routes w).1 = Err e /\ (optimize_route routes' w).1 = Err e) \/
  (exists (i : nat) (r r' : Route),
     routes !! i = Some r /\ routes' !! i = Some r' /\
     (optimize_route routes w).1 = Ok r /\ (optimize_route routes' w).1 = Ok r').
Proof.
  intros Hpairs _. rewrite !optimize_route_eq. cbn [fst].
  destruct Hpairs as [|r1 r1' routes routes' H1 Hpairs]; [left; by eexists |].
  destruct Hpairs as [|r2 r2' routes routes' H2 Hpairs].
  { right. by exists 0%nat, r1, r1'. }
  assert (Hall : Forall2 (fun r r' => score_inference (self w) r = score_inference (self w) r')
                         (r1 :: r2 :: routes) (r1' :: r2' :: routes')).
  { repeat constructor; try by apply score_inference_chain_pairs.
    eapply Forall2_impl; [exact Hpairs |]. intros r r'. apply score_inference_chain_pairs. }
  unfold select_route.
  destruct (mapM_score_pairs (self w) _ _ Hall) as [(e & -> & ->) | (scores & -> & ->)].
  { left. by exists e. }
  cbn [mbind result_bind]. rewrite !sort_reverse_fmap.
  change (fst ∘ (fun t : f64 * (Route * Route) => (t.1, t.2.1)))
    with (fun t : f64 * (Route * Route) => t.1).
  change (fst ∘ (fun t : f64 * (Route * Route) => (t.1, t.2.2)))
    with (fun t : f64 * (Route * Route) => t.1).
  destruct (sort_reverse (fun t : f64 * (Route * Route) => t.1) _)
    as [|[s [r r']] k] eqn:Hsort.
  { left. by exists IndexError. }
  right. cbn [fmap list_fmap fst snd].
  assert (Hin : (s, (r, r')) ∈ zip scores (zip (r1 :: r2 :: routes) (r1' :: r2' :: routes'))).
  { rewrite <- (sort_reverse_Permutation (fun t : f64 * (Route * Route) => t.1)), Hsort.
    left. }
  apply list_elem_of_lookup in Hin as [i Hi].
  apply zip_lookup_pairs in Hi as [Hr Hr'].
  by exists i, r, r'.
Qed.

End OptimizerEffects.

(** ** The theorems on the example routes *)

Lemma optimize_route_effects_witness :
  (@optimize_route example_torch [demo_route_one_hop; demo_route_two_hops]
     (example_world true)).2
  = @set_training example_torch false (example_world true).
Proof.
  apply (@optimize_route_effects example_torch
           [demo_route_one_hop; demo_route_two_hops] (example_world true)).
  simpl. lia.
Defined.

Lemma optimize_route_returns_candidate_witness :
  (@optimize_route example_torch_mean
     [demo_route_one_hop; route_without_hops; demo_route_two_hops]
     example_world_mean).1 = Ok demo_route_one_hop /\
  demo_route_one_hop ∈ [demo_route_one_hop; route_without_hops; demo_route_two_hops].
Proof.
  split; [vm_compute; reflexivity |].
  apply (@optimize_route_returns_candidate example_torch_mean (sort_reverse fst)
           [demo_route_one_hop; route_without_hops; demo_route_two_hops]
           example_world_mean demo_route_one_hop).
  - intros l. apply sort_reverse_Permutation.
  - vm_compute. reflexivity.
Defined.

Lemma score_route_chain_pairs_witness :
  hops demo_route_one_hop <> hops demo_route_one_hop_relay /\
  @score_route example_torch demo_route_one_hop (example_world true)
  = @score_route example_torch demo_route_one_hop_relay (example_world true).
Proof.
  split; [discriminate |].
  apply (@score_route_chain_pairs example_torch demo_route_one_hop
           demo_route_one_hop_relay (example_world true)).
  reflexivity.
Defined.

Lemma optimize_route_order_independent_witness :
  (@optimize_route example_torch [demo_route_two_hops; demo_route_one_hop]
     (example_world true)).1
  = (@optimize_route example_torch [demo_route_one_hop; demo_route_two_hops]
       (example_world true)).1.
Proof.
  apply (@optimize_route_order_independent example_torch
           [demo_route_one_hop; demo_route_two_hops]
           [demo_route_two_hops; demo_route_one_hop] (example_world true)).
  - simpl. lia.
  - apply Permutation_swap.
  - intros r Hr. apply elem_of_cons in Hr as [-> | Hr].
    + eexists. split; vm_compute; reflexivity.
    + apply list_elem_of_singleton in Hr as ->.
      eexists. split; vm_compute; reflexivity.
  - intros [|[|i]] [|[|j]] r1 r2 s1 s2 Hne Hr1 Hr2; try done;
      injection Hr1 as <-; injection Hr2 as <-;
      intros Hs1 Hs2; vm_compute in Hs1, Hs2;
      injection Hs1 as <-; injection Hs2 as <-; reflexivity.
Defined.

Lemma optimize_route_chain_pairs_witness :
  exists (i : nat) (r r' : Route),
    [demo_route_one_hop; demo_route_two_hops] !! i = Some r /\
    [demo_route_one_hop_relay; demo_route_two_hops] !! i = Some r' /\
    (@optimize_route example_torch [demo_route_one_hop; demo_route_two_hops]
       (example_world true)).1 = Ok r /\
    (@optimize_route example_torch [demo_route_one_hop_relay; demo_route_two_hops]
       (example_world true)).1 = Ok r'.
Proof.
  destruct (@optimize_route_chain_pairs example_torch
              [demo_route_one_hop; demo_route_two_hops]
              [demo_route_one_hop_relay; demo_route_two_hops] (example_world true))
    as [(e & He & _) | Hsame].
  - repeat constructor.
  - intros r s Hr Hs. apply elem_of_cons in Hr as [-> | Hr].
    + vm_compute in Hs. by injection Hs as <-.
    + apply list_elem_of_singleton in Hr as ->.
      vm_compute in Hs. by injection Hs as <-.
  - vm_compute in He. discriminate He.
  - exact Hsame.
Defined.

(* ===================================================================== *)
(** * The sign of rounded operations and the cost                       *)
(* ===================================================================== *)

Section Signs.
Context {fmt : Format}.

Lemma float_key_xval (x y : spec_float) :
  is_nan x = false -> is_nan y = false -> float_key x = float_key y -> xval x = xval y.
Proof.
  intros Hx Hy Hkey.
  destruct x as [sx|[|]| |[|] mx ex], y as [sy|[|]| |[|] my ey];
    try discriminate; try reflexivity; cbn [float_key] in Hkey;
    try (exfalso; congruence).
  - assert (He : ex = ey) by (injection Hkey; lia).
    assert (Hm : mx = my) by (injection Hkey; intros; lia).
    by subst.
  - injection Hkey as -> ->. reflexivity.
Qed.

Lemma SFleb_xval (x y : spec_float) :
  in_format x -> in_format y -> SFleb x y = true -> xval x <= xval y.
Proof.
  intros Hx Hy Hle.
  destruct (SFcompare_key x y (proj1 Hx) (proj1 Hy)) as (c & Hc & Hkey).
  unfold SFleb in Hle. rewrite Hc in Hle. destruct c; [| | discriminate Hle].
  - rewrite (float_key_xval x y); [lia | apply Hx | apply Hy | done].
  - assert (Hlt : SFltb x y = true) by (unfold SFltb; by rewrite Hc).
    pose proof (SFltb_xval x y Hx Hy Hlt). lia.
Qed.

Lemma xval_SFltb_false (x y : spec_float) :
  in_format x -> in_format y -> xval y <= xval x -> SFltb x y = false.
Proof.
  intros Hx Hy Hle. destruct (SFltb x y) eqn:Hlt; [| reflexivity].
  pose proof (SFltb_xval x y Hx Hy Hlt). lia.
Qed.

Lemma pack_nonneg (M E : Z) :
  0 <= M -> is_nan (pack false (M, E)) = false /\ 0 <= xval (pack false (M, E)).
Proof.
  intros HM. pose proof huge_pos as Hhuge. unfold pack. cbn [fst snd].
  destruct M as [|m|m]; [done | | lia].
  destruct (E <=? emax - prec); cbn [is_nan xval sgn]; split; try reflexivity; lia.
Qed.

(** The sign of a rounded quotient is the sign it is given. *)
Lemma binary_round_aux_pack (s : bool) (m e : Z) (l : location) :
  0 <= m -> exists M E, 0 <= M /\ binary_round_aux prec emax s m e l = pack s (M, E).
Proof.
  intros Hm. unfold binary_round_aux.
  destruct (shr_m_shr_fexp m e l Hm) as [Hq He'].
  destruct (shr_fexp prec emax m e l) as [mrs' e']. cbn [fst snd] in Hq, He'.
  set (m' := round_nearest_even (shr_m mrs') (loc_of_shr_record mrs')).
  pose proof (round_nearest_even_bounds (shr_m mrs') (loc_of_shr_record mrs')) as Hm'.
  fold m' in Hm'. rewrite Hq in Hm'.
  assert (Hm'0 : 0 <= m').
  { assert (0 <= m / 2 ^ round_shift m e); [| lia].
    apply Z.div_pos; [done |]. apply Z.pow_pos_nonneg; [lia | apply round_shift_nonneg]. }
  rewrite shr_fexp_exact by done. unfold shr_state at 1. cbn [shr_m].
  exists (m' / 2 ^ round_shift m' e'), (e' + round_shift m' e'). split; [| reflexivity].
  apply Z.div_pos; [done |]. apply Z.pow_pos_nonneg; [lia | apply round_shift_nonneg].
Qed.

Lemma SFdiv_nonneg (x : spec_float) (my : positive) (ey : Z) :
  in_format x -> 0 <= xval x ->
  in_format (SFdiv prec emax x (S754_finite false my ey)) /\
  0 <= xval (SFdiv prec emax x (S754_finite false my ey)).
Proof.
  intros Hx Hpos. pose proof huge_pos as Hhuge.
  assert (Hvalid := SFdiv_valid x (S754_finite false my ey)).
  destruct x as [sx|[|]| |[|] mx ex]; try (by destruct Hx).
  - exfalso. cbn [xval sgn] in Hpos.
    assert (0 < Z.pos mx * 2 ^ (ex - unit_exp)); [| lia].
    apply Z.mul_pos_pos; [lia |]. apply Z.pow_pos_nonneg; [lia |].
    destruct (in_format_finite_value _ _ _ Hx) as (_ & He & _).
    pose proof emin_neg. unfold unit_exp. lia.
  - revert Hvalid. cbn [SFdiv xorb]. unfold SFdiv_core_binary.
    set (m' := match _ with 0 => Z.pos mx | Z.pos _ => _ | Z.neg _ => 0 end).
    assert (Hm' : 0 <= m').
    { unfold m'. destruct (_ - _ - _) as [|p|p]; [lia | | lia].
      rewrite Z.shiftl_mul_pow2 by lia. apply Z.mul_nonneg_nonneg; lia. }
    pose proof (Z_div_mod m' (Z.pos my) ltac:(lia)) as Hdiv.
    destruct (Z.div_eucl m' (Z.pos my)) as [q r]. destruct Hdiv as [Hqr Hr].
    assert (Hq0 : 0 <= q) by nia.
    match goal with
    | |- context [binary_round_aux prec emax false q ?e ?l] =>
        destruct (binary_round_aux_pack false q e l Hq0) as (M & E & HM & ->)
    end.
    intros Hvalid. destruct (pack_nonneg M E HM) as [Hnan Hval]. by repeat split.
Qed.

Lemma SFmul_nonneg (mk : positive) (ek : Z) (p : spec_float) :
  in_format (S754_finite false mk ek) -> in_format p -> 0 <= xval p ->
  in_format (SFmul prec emax (S754_finite false mk ek) p) /\
  0 <= xval (SFmul prec emax (S754_finite false mk ek) p).
Proof.
  intros Hk Hp Hpos.
  destruct (SFmul_monotone mk ek p (S754_zero false) Hk Hp (in_format_zero false) Hpos)
    as (Hg & _ & Hle).
  split; [exact Hg | exact Hle].
Qed.

Lemma SFsub_nonneg (x c : spec_float) :
  in_format x -> is_finite x = true -> in_format c -> xval c <= xval x ->
  in_format (SFsub prec emax x c) /\ 0 <= xval (SFsub prec emax x c).
Proof.
  intros Hx Hfx Hc Hle.
  destruct (SFsub_antitone x c x Hx Hfx Hc Hx Hle) as (Hg & _ & Hv).
  split; [exact Hg |].
  destruct (SFsub_xval x x Hx Hx Hfx Hfx) as [_ Hxx].
  rewrite Hxx, Z.sub_diag, round_signed_0 in Hv. exact Hv.
Qed.

Lemma SFadd_ge_left (a b : spec_float) :
  in_format a -> in_format b -> 0 <= xval a -> 0 <= xval b ->
  in_format (SFadd prec emax a b) /\ xval a <= xval (SFadd prec emax a b).
Proof.
  intros Ha Hb Hpa Hpb. pose proof huge_pos as Hhuge.
  destruct (in_format_cases a Ha) as [Hfa | [-> | ->]];
    destruct (in_format_cases b Hb) as [Hfb | [-> | ->]];
    try (cbn [xval sgn] in Hpa, Hpb; lia).
  - destruct (SFadd_xval a b Ha Hb Hfa Hfb) as [Hg Hv]. split; [exact Hg |].
    rewrite Hv.
    assert (Hra : round_signed (xval a) = xval a).
    { destruct a as [sa|sa| |sa ma ea]; try discriminate.
      - apply round_signed_0.
      - by destruct (in_format_finite_value _ _ _ Ha) as (_ & _ & _ & ->). }
    rewrite <- Hra at 1. apply round_signed_mono. lia.
  - assert (Hinf : SFadd prec emax a (S754_infinity false) = S754_infinity false)
      by (by destruct a).
    rewrite Hinf. split; [done |]. pose proof (xval_bounds a Ha). cbn [xval sgn]. lia.
  - assert (Hinf : SFadd prec emax (S754_infinity false) b = S754_infinity false)
      by (by destruct b).
    rewrite Hinf. split; [done | lia].
  - split; [done |]. cbn. lia.
Qed.

End Signs.

Section Quotients.
Context {fmt : Format}.

(** A mantissa above the smallest exponent does not round to zero. *)
Lemma binary_round_aux_nonzero (s : bool) (m e : Z) (l : location) :
  0 < m -> e <= SpecFloat.fexp prec emax (Zdigits2 m + e) ->
  SpecFloat.emin prec emax < Zdigits2 m + e ->
  forall s', binary_round_aux prec emax s m e l <> S754_zero s'.
Proof.
  intros Hm Hpre Hbig s'. unfold binary_round_aux.
  destruct (shr_m_shr_fexp m e l ltac:(lia)) as [Hq He'].
  destruct (shr_fexp prec emax m e l) as [mrs' e']. cbn [fst snd] in Hq, He'.
  set (m' := round_nearest_even (shr_m mrs') (loc_of_shr_record mrs')).
  pose proof (round_nearest_even_bounds (shr_m mrs') (loc_of_shr_record mrs')) as Hm'.
  fold m' in Hm'. rewrite Hq in Hm'.
  assert (Hn : round_shift m e = SpecFloat.fexp prec emax (Zdigits2 m + e) - e)
    by (unfold round_shift; lia).
  rewrite Hn in *. subst e'.
  replace (e + (SpecFloat.fexp prec emax (Zdigits2 m + e) - e))
    with (SpecFloat.fexp prec emax (Zdigits2 m + e)) by lia.
  pose proof (Zdigits2_bounds m Hm) as [Hlo _].
  pose proof (prec_pos (Format := fmt)) as Hprec.
  assert (Hone : 1 <= m / 2 ^ (SpecFloat.fexp prec emax (Zdigits2 m + e) - e)).
  { apply Z.div_le_lower_bound; [apply Z.pow_pos_nonneg; lia |].
    rewrite Z.mul_1_r. etransitivity; [| exact Hlo].
    apply Z.pow_le_mono_r; [lia |]. unfold SpecFloat.fexp in *. lia. }
  assert (Hm'0 : 0 <= m') by lia.
  rewrite shr_fexp_exact by done. unfold shr_state at 1. cbn [shr_m].
  destruct (norm_after_round m e m' Hm Hpre Hm') as (HM0 & Hmul & _ & _).
  match goal with
  | |- match ?M with 0 => _ | Z.pos _ => _ | Z.neg _ => _ end <> _ =>
      assert (HM : 0 < M)
  end.
  { unfold round_shift in *. nia. }
  destruct (m' / _) as [|p|p]; [lia | | lia].
  destruct (_ <=? _); discriminate.
Qed.

(** A quotient above the smallest exponent is not a zero. *)
Lemma SFdiv_finite_nonzero (sx sy : bool) (mx my : positive) (ex ey : Z) :
  SpecFloat.emin prec emax + prec
    < Zdigits2 (Z.pos mx) + ex - (Zdigits2 (Z.pos my) + ey) ->
  SpecFloat.emin prec emax < ex - ey ->
  forall s, SFdiv prec emax (S754_finite sx mx ex) (S754_finite sy my ey) <> S754_zero s.
Proof.
  intros HD He s. cbn [SFdiv]. unfold SFdiv_core_binary.
  set (d1 := Zdigits2 (Z.pos mx)) in *. set (d2 := Zdigits2 (Z.pos my)) in *.
  set (e' := Z.min (SpecFloat.fexp prec emax (d1 + ex - (d2 + ey))) (ex - ey)).
  set (sh := ex - ey - e').
  assert (Hsh : 0 <= sh) by (unfold sh, e'; lia).
  set (m' := match sh with
             | 0 => Z.pos mx
             | Z.pos _ => Z.shiftl (Z.pos mx) sh
             | Z.neg _ => 0
             end).
  assert (Hm' : m' = Z.pos mx * 2 ^ sh).
  { unfold m'. destruct sh as [|p|p]; [simpl; lia | | lia].
    by rewrite Z.shiftl_mul_pow2 by lia. }
  pose proof (Z_div_mod m' (Z.pos my) ltac:(lia)) as Hdiv.
  destruct (Z.div_eucl m' (Z.pos my)) as [q r]. destruct Hdiv as [Hqr Hr].
  assert (Hp : 0 < 2 ^ sh) by (apply Z.pow_pos_nonneg; lia).
  assert (Hq0 : 0 <= q) by nia.
  pose proof (prec_pos (Format := fmt)) as Hprec.
  pose proof (Zdigits2_bounds (Z.pos mx) ltac:(lia)) as [Hlo1 _]. fold d1 in Hlo1.
  pose proof (Zdigits2_bounds (Z.pos my) ltac:(lia)) as [_ Hhi2]. fold d2 in Hhi2.
  pose proof (Zdigits2_pos (Z.pos mx) ltac:(lia)) as Hd1. fold d1 in Hd1.
  pose proof (Zdigits2_pos (Z.pos my) ltac:(lia)) as Hd2. fold d2 in Hd2.
  assert (Hk : prec <= d1 + sh - d2).
  { unfold sh, e', SpecFloat.fexp in *. lia. }
  assert (Hdq : d1 + sh - d2 <= Zdigits2 q).
  { apply Zdigits2_ge; [lia |].
    assert (Hpow : 2 ^ (d1 + sh - d2 - 1) * 2 ^ d2 = 2 ^ (d1 - 1) * 2 ^ sh).
    { rewrite <- !Z.pow_add_r by lia. f_equal. lia. }
    assert (0 < 2 ^ (d1 + sh - d2 - 1)) by (apply Z.pow_pos_nonneg; lia).
    destruct (Z_le_gt_dec (2 ^ (d1 + sh - d2 - 1)) q) as [|Hq]; [done |].
    assert (q + 1 <= 2 ^ (d1 + sh - d2 - 1)) by lia.
    nia. }
  assert (Hq : 0 < q).
  { destruct (Z.eq_dec q 0) as [-> |]; [| lia]. simpl in Hdq. lia. }
  apply binary_round_aux_nonzero; [exact Hq | |].
  - pose proof (fexp_mono (d1 + ex - (d2 + ey)) (Zdigits2 q + e')) as Hmono.
    unfold sh, e' in *. unfold SpecFloat.fexp in *. lia.
  - unfold sh, e' in *. unfold SpecFloat.fexp in *. lia.
Qed.

End Quotients.

Lemma SFleb_not_nan (a b : spec_float) :
  SFleb a b = true -> is_nan a = false /\ is_nan b = false.
Proof. by destruct a, b. Qed.

Lemma nonneg64_of_leb (x : f64) :
  valid64 x = true -> (F64.zero <=? x)%f64 = true -> nonneg64 x.
Proof.
  intros Hv Hle. destruct (SFleb_not_nan _ _ Hle) as [_ Hn].
  assert (Hx : in_format (fmt := binary64) x) by done.
  split; [exact Hx |].
  apply (SFleb_xval (fmt := binary64) F64.zero x); done.
Qed.

Lemma nonneg64_leb (x : f64) :
  nonneg64 x -> is_nan x = false /\ (F64.zero <=? x)%f64 = true /\ (x <? F64.zero)%f64 = false.
Proof.
  intros [Hx Hpos].
  assert (Hlt : (x <? F64.zero)%f64 = false).
  { apply (xval_SFltb_false (fmt := binary64)); [done | done | exact Hpos]. }
  split; [apply Hx |]. split; [| exact Hlt].
  apply SFltb_false_leb; [apply Hx | done | exact Hlt].
Qed.

Lemma nonneg64_div (x d : f64) (m : positive) (e : Z) :
  d = S754_finite false m e -> nonneg64 x -> nonneg64 (x / d)%f64.
Proof. intros -> [Hx Hpos]. by apply (SFdiv_nonneg (fmt := binary64)). Qed.

Lemma nonneg64_mul (k x : f64) (m : positive) (e : Z) :
  k = S754_finite false m e -> valid64 k = true -> nonneg64 x -> nonneg64 (k * x)%f64.
Proof.
  intros -> Hk [Hx Hpos]. apply (SFmul_nonneg (fmt := binary64)); done.
Qed.

Lemma nonneg64_add (a b : f64) :
  nonneg64 a -> nonneg64 b ->
  nonneg64 (a + b)%f64 /\
  xval (fmt := binary64) a <= xval (fmt := binary64) (a + b)%f64.
Proof.
  intros [Ha Hpa] [Hb Hpb].
  destruct (SFadd_ge_left (fmt := binary64) a b Ha Hb Hpa Hpb) as [Hg Hle].
  split; [split; [exact Hg | exact (Z.le_trans _ _ _ Hpa Hle)] | exact Hle].
Qed.

Lemma nonneg64_one_minus (c : f64) :
  valid64 c = true -> (c <=? F64.one)%f64 = true -> nonneg64 (F64.one - c)%f64.
Proof.
  intros Hv Hle. destruct (SFleb_not_nan _ _ Hle) as [Hn _].
  assert (Hc : in_format (fmt := binary64) c) by done.
  assert (Hone : in_format (fmt := binary64) F64.one) by (split; vm_compute; reflexivity).
  apply (SFsub_nonneg (fmt := binary64)); [done | reflexivity | done |].
  by apply (SFleb_xval (fmt := binary64)).
Qed.

Lemma cost_function_nonneg64 (route : Route) :
  valid64 (estimated_cost route) = true ->
  valid64 (estimated_time_ms route) = true ->
  valid64 (confidence_score route) = true ->
  (F64.zero <=? estimated_cost route)%f64 = true ->
  (F64.zero <=? estimated_time_ms route)%f64 = true ->
  (confidence_score route <=? F64.one)%f64 = true ->
  nonneg64 (cost_function route).
Proof.
  intros Hvc Hvt Hvs Hc Ht Hs.
  unfold cost_function. cbv zeta.
  assert (Hfc : nonneg64 (F64.decimal 4 10 * (estimated_cost route / F64.of_Z 100000))%f64).
  { eapply nonneg64_mul; [vm_compute; reflexivity | vm_compute; reflexivity |].
    eapply nonneg64_div; [vm_compute; reflexivity |]. by apply nonneg64_of_leb. }
  assert (Htc : nonneg64 (F64.decimal 3 10 * (estimated_time_ms route / F64.of_Z 1000000))%f64).
  { eapply nonneg64_mul; [vm_compute; reflexivity | vm_compute; reflexivity |].
    eapply nonneg64_div; [vm_compute; reflexivity |]. by apply nonneg64_of_leb. }
  assert (Hrp : nonneg64 (F64.decimal 3 10 * (F64.one - confidence_score route))%f64).
  { eapply nonneg64_mul; [vm_compute; reflexivity | vm_compute; reflexivity |].
    by apply nonneg64_one_minus. }
  destruct (nonneg64_add _ _ Hfc Htc) as [Hsum _].
  by destruct (nonneg64_add _ _ Hsum Hrp) as [Htotal _].
Qed.

(** X18: for a route whose estimated cost and time are not negative and
    whose confidence is at most 1, the cost is a number that is not
    negative: not NaN, and not below zero. *)
Theorem cost_function_nonnegative (route : Route) :
  valid64 (estimated_cost route) = true ->
  valid64 (estimated_time_ms route) = true ->
  valid64 (confidence_score route) = true ->
  (F64.zero <=? estimated_cost route)%f64 = true ->
  (F64.zero <=? estimated_time_ms route)%f64 = true ->
  (confidence_score route <=? F64.one)%f64 = true ->
  is_nan (cost_function route) = false /\
  (F64.zero <=? cost_function route)%f64 = true /\
  (cost_function route <? F64.zero)%f64 = false.
Proof.
  intros Hvc Hvt Hvs Hc Ht Hs. apply nonneg64_leb.
  by apply cost_function_nonneg64.
Qed.

Lemma cost_function_nonnegative_witness :
  is_nan (cost_function demo_route_two_hops) = false /\
  (F64.zero <=? cost_function demo_route_two_hops)%f64 = true /\
  (cost_function demo_route_two_hops <? F64.zero)%f64 = false.
Proof.
  apply (cost_function_nonnegative demo_route_two_hops); vm_compute; reflexivity.
Defined.

(** One plus a number that is not negative is not a zero: the division
    of the score raises nothing. *)
Lemma one_plus_nonneg (c : f64) :
  nonneg64 c ->
  py_truediv F64.one (F64.one + c)%f64 = Some (F64.one / (F64.one + c))%f64.
Proof.
  intros Hc.
  assert (Hone : nonneg64 F64.one) by (split; [split |]; vm_compute; done).
  destruct (nonneg64_add F64.one c Hone Hc) as [_ Hle].
  destruct (F64.one + c)%f64 as [sz| | |] eqn:Hsum; try reflexivity.
  exfalso. vm_compute in Hle. by apply Hle.
Qed.

(* ===================================================================== *)
(** * The order of quotients and the cost                               *)
(* ===================================================================== *)

Lemma quarter_bounds (R D : Z) : 0 <= quarter R D <= 3.
Proof. unfold quarter. destruct (R =? 0); [lia |]. destruct (2 * R ?= D); lia. Qed.

Lemma rne_quarter (qk R D j : Z) :
  0 <= qk -> 0 <= R < D -> 0 <= j ->
  rne (4 * qk + quarter R D) (j + 2)
  = (let q := qk / 2 ^ j in
     let r2 := 2 * (D * (qk mod 2 ^ j) + R) in
     if r2 <? D * 2 ^ j then q
     else if D * 2 ^ j <? r2 then q + 1
     else if Z.even q then q else q + 1).
Proof.
  intros Hqk HR Hj. cbv zeta.
  assert (HP : 0 < 2 ^ j) by (apply Z.pow_pos_nonneg; lia).
  pose proof (quarter_bounds R D) as Hc.
  assert (Hq : (4 * qk + quarter R D) / 2 ^ (j + 2) = qk / 2 ^ j).
  { rewrite Z.pow_add_r by lia. change (2 ^ 2) with 4.
    rewrite (Z.mul_comm (2 ^ j) 4), <- Z.div_div by lia.
    f_equal. symmetry. apply (Z.div_unique _ 4 _ (quarter R D)); lia. }
  assert (Hr : (4 * qk + quarter R D) mod 2 ^ (j + 2) = 4 * (qk mod 2 ^ j) + quarter R D).
  { rewrite Z.pow_add_r by lia. change (2 ^ 2) with 4.
    rewrite (Z.mul_comm (2 ^ j) 4), Z.rem_mul_r by lia.
    assert (H4 : (4 * qk + quarter R D) / 4 = qk)
      by (symmetry; apply (Z.div_unique _ 4 _ (quarter R D)); lia).
    assert (H4m : (4 * qk + quarter R D) mod 4 = quarter R D)
      by (symmetry; apply (Z.mod_unique _ 4 qk); lia).
    rewrite H4, H4m. lia. }
  unfold rne. rewrite Hq, Hr.
  pose proof (Z.mod_pos_bound qk (2 ^ j) HP) as Hf.
  set (f := qk mod 2 ^ j) in *. set (P := 2 ^ j) in *.
  replace (2 ^ (j + 2)) with (4 * P) by (unfold P; rewrite Z.pow_add_r by lia; lia).
  unfold quarter in *.
  destruct (Z.eqb_spec R 0) as [HR0 | HR0].
  - subst R.
    destruct (Z.ltb_spec (2 * (4 * f + 0)) (4 * P));
      destruct (Z.ltb_spec (2 * (D * f + 0)) (D * P)); try nia; try reflexivity.
    destruct (Z.ltb_spec (4 * P) (2 * (4 * f + 0)));
      destruct (Z.ltb_spec (D * P) (2 * (D * f + 0))); try nia; reflexivity.
  - destruct (Z.compare_spec (2 * R) D) as [Heq | Hlt | Hgt].
    + destruct (Z.ltb_spec (2 * (4 * f + 2)) (4 * P));
        destruct (Z.ltb_spec (2 * (D * f + R)) (D * P)); try nia; try reflexivity.
      destruct (Z.ltb_spec (4 * P) (2 * (4 * f + 2)));
        destruct (Z.ltb_spec (D * P) (2 * (D * f + R))); try nia; reflexivity.
    + destruct (Z.ltb_spec (2 * (4 * f + 1)) (4 * P));
        destruct (Z.ltb_spec (2 * (D * f + R)) (D * P)); try nia; try reflexivity.
      destruct (Z.ltb_spec (4 * P) (2 * (4 * f + 1)));
        destruct (Z.ltb_spec (D * P) (2 * (D * f + R))); try nia; reflexivity.
    + destruct (Z.ltb_spec (2 * (4 * f + 3)) (4 * P));
        destruct (Z.ltb_spec (2 * (D * f + R)) (D * P)); try nia; try reflexivity.
      destruct (Z.ltb_spec (4 * P) (2 * (4 * f + 3)));
        destruct (Z.ltb_spec (D * P) (2 * (D * f + R))); try nia; reflexivity.
Qed.

(** Rounding the cut quotient is rounding the quotient. *)
Lemma rne_sticky (A B k n : Z) :
  0 <= A -> 0 < B -> 2 <= k <= n -> rne (sticky A B k) n = rnq A B n.
Proof.
  intros HA HB Hk.
  assert (HPk : 0 < 2 ^ k) by (apply Z.pow_pos_nonneg; lia).
  assert (HD : 0 < B * 2 ^ k) by lia.
  unfold sticky.
  replace n with ((n - k + 2) + (k - 2)) at 1 by lia.
  rewrite rne_shift by lia.
  rewrite rne_quarter; [| apply Z.div_pos; lia | apply Z.mod_pos_bound; lia | lia].
  cbv zeta. unfold rnq.
  assert (HDn : B * 2 ^ n = B * 2 ^ k * 2 ^ (n - k)).
  { rewrite <- Z.mul_assoc, <- Z.pow_add_r by lia. do 2 f_equal. lia. }
  assert (HPj : 0 < 2 ^ (n - k)) by (apply Z.pow_pos_nonneg; lia).
  rewrite HDn.
  set (D := B * 2 ^ k) in *. set (P := 2 ^ (n - k)) in *.
  assert (Hdiv : A / (D * P) = A / D / P) by (symmetry; apply Z.div_div; lia).
  assert (Hmod : A mod (D * P) = A mod D + D * ((A / D) mod P))
    by (apply Z.rem_mul_r; lia).
  rewrite Hdiv, Hmod.
  replace (D * (A / D mod P) + A mod D) with (A mod D + D * (A / D mod P)) by lia.
  reflexivity.
Qed.

(** The cut quotient grows with the dividend. *)
Lemma sticky_mono (A1 A2 B k : Z) :
  0 <= A1 -> A1 <= A2 -> 0 < B -> 2 <= k -> sticky A1 B k <= sticky A2 B k.
Proof.
  intros HA1 HA HB Hk.
  assert (HPk : 0 < 2 ^ k) by (apply Z.pow_pos_nonneg; lia).
  assert (HD : 0 < B * 2 ^ k) by lia.
  assert (HP2 : 0 < 2 ^ (k - 2)) by (apply Z.pow_pos_nonneg; lia).
  unfold sticky. apply Z.mul_le_mono_nonneg_r; [lia |].
  pose proof (Z.div_le_mono A1 A2 _ HD HA) as Hq.
  pose proof (quarter_bounds (A1 mod (B * 2 ^ k)) (B * 2 ^ k)) as Hc1.
  pose proof (quarter_bounds (A2 mod (B * 2 ^ k)) (B * 2 ^ k)) as Hc2.
  destruct (Z.eq_dec (A1 / (B * 2 ^ k)) (A2 / (B * 2 ^ k))) as [Heq | Hne]; [| lia].
  assert (Hr : A1 mod (B * 2 ^ k) <= A2 mod (B * 2 ^ k)).
  { rewrite !Z.mod_eq by lia. rewrite Heq. lia. }
  pose proof (Z.mod_pos_bound A1 _ HD) as Hb1.
  rewrite Heq. apply Z.add_le_mono_l.
  unfold quarter.
  destruct (Z.eqb_spec (A1 mod (B * 2 ^ k)) 0) as [H0 | H0].
  - destruct (A2 mod (B * 2 ^ k) =? 0); [lia |].
    destruct (2 * (A2 mod (B * 2 ^ k)) ?= B * 2 ^ k); lia.
  - destruct (Z.eqb_spec (A2 mod (B * 2 ^ k)) 0) as [H2 | H2]; [lia |].
    destruct (Z.compare_spec (2 * (A1 mod (B * 2 ^ k))) (B * 2 ^ k));
      destruct (Z.compare_spec (2 * (A2 mod (B * 2 ^ k))) (B * 2 ^ k)); lia.
Qed.

Lemma div_quarter (qk R D j : Z) :
  0 <= j -> (4 * qk + quarter R D) / 2 ^ (j + 2) = qk / 2 ^ j.
Proof.
  intros Hj. pose proof (quarter_bounds R D) as Hc.
  assert (HP : 0 < 2 ^ j) by (apply Z.pow_pos_nonneg; lia).
  rewrite Z.pow_add_r by lia. change (2 ^ 2) with 4.
  rewrite (Z.mul_comm (2 ^ j) 4), <- Z.div_div by lia.
  f_equal. symmetry. apply (Z.div_unique _ 4 _ (quarter R D)); lia.
Qed.

Lemma quarter_scale (R D P : Z) : 0 < P -> quarter (R * P) (D * P) = quarter R D.
Proof.
  intros HP. unfold quarter.
  destruct (Z.eqb_spec (R * P) 0) as [H0 | H0];
    destruct (Z.eqb_spec R 0) as [H1 | H1]; try nia; try reflexivity.
  destruct (Z.compare_spec (2 * (R * P)) (D * P));
    destruct (Z.compare_spec (2 * R) D); try nia; reflexivity.
Qed.

Lemma shr_state_two_bits (q c : Z) :
  0 <= c <= 3 -> shr_state (4 * q + c) 2 = Build_shr_record q (2 <=? c) (Z.odd c).
Proof.
  intros Hc. unfold shr_state. change (2 ^ 2) with 4.
  assert (Hcc : c = 0 \/ c = 1 \/ c = 2 \/ c = 3) by lia.
  f_equal.
  - symmetry. apply (Z.div_unique _ 4 _ c); lia.
  - rewrite Z.testbit_odd, Z.shiftr_div_pow2 by lia. change (2 ^ 2) with 4.
    destruct Hcc as [-> | [-> | [-> | ->]]]; cbn [Z.leb Z.compare Pos.compare Pos.compare_cont].
    + rewrite <- (Z.div_unique (2 * (4 * q + 0)) 4 (2 * q) 0) by lia.
      replace (2 * q) with (0 + 2 * q) by lia. by rewrite Z.odd_add_mul_2.
    + rewrite <- (Z.div_unique (2 * (4 * q + 1)) 4 (2 * q) 2) by lia.
      replace (2 * q) with (0 + 2 * q) by lia. by rewrite Z.odd_add_mul_2.
    + rewrite <- (Z.div_unique (2 * (4 * q + 2)) 4 (2 * q + 1) 0) by lia.
      replace (2 * q + 1) with (1 + 2 * q) by lia. by rewrite Z.odd_add_mul_2.
    + rewrite <- (Z.div_unique (2 * (4 * q + 3)) 4 (2 * q + 1) 2) by lia.
      replace (2 * q + 1) with (1 + 2 * q) by lia. by rewrite Z.odd_add_mul_2.
  - destruct Hcc as [-> | [-> | [-> | ->]]].
    + by rewrite <- (Z.mod_unique (2 * (4 * q + 0)) 4 (2 * q) 0) by lia.
    + by rewrite <- (Z.mod_unique (2 * (4 * q + 1)) 4 (2 * q) 2) by lia.
    + by rewrite <- (Z.mod_unique (2 * (4 * q + 2)) 4 (2 * q + 1) 0) by lia.
    + by rewrite <- (Z.mod_unique (2 * (4 * q + 3)) 4 (2 * q + 1) 2) by lia.
Qed.

(** The location that the division computes, as two more bits of the
    quotient. *)
Lemma shr_record_of_new_location (q r my : Z) :
  0 <= r < my ->
  shr_record_of_loc q (new_location my r) = shr_state (4 * q + quarter r my) 2.
Proof.
  intros Hr. rewrite shr_state_two_bits by apply quarter_bounds.
  unfold new_location, quarter.
  destruct (Z.even my) eqn:Hev; unfold new_location_even, new_location_odd;
    destruct (Z.eqb_spec r 0) as [-> | Hr0]; try reflexivity.
  - destruct (2 * r ?= my); reflexivity.
  - assert (Hodd : 2 * r <> my).
    { intros <-. rewrite Z.even_mul in Hev. discriminate. }
    destruct (Z.compare_spec (2 * r + 1) my);
      destruct (Z.compare_spec (2 * r) my); try lia; reflexivity.
Qed.

Lemma shr_from_state (M e k n : Z) :
  0 <= M -> 0 <= k ->
  shr (shr_state M k) e n = (shr_state M (k + Z.max 0 n), e + Z.max 0 n).
Proof.
  intros HM Hk. unfold shr. destruct n as [|p|p].
  - by rewrite !Z.add_0_r.
  - rewrite iter_pos_shr_1 by lia.
    replace (Z.max 0 (Z.pos p)) with (Z.pos p) by lia. reflexivity.
  - replace (Z.max 0 (Z.neg p)) with 0 by lia. by rewrite !Z.add_0_r.
Qed.

(** The cut quotient lies in the multiple of [2^k] that holds the
    quotient. *)
Lemma sticky_range (A B k : Z) :
  0 <= A -> 0 < B -> 2 <= k ->
  A / (B * 2 ^ k) * 2 ^ k <= sticky A B 2 < (A / (B * 2 ^ k) + 1) * 2 ^ k.
Proof.
  intros HA HB Hk. unfold sticky. change (2 ^ (2 - 2)) with 1. change (2 ^ 2) with 4.
  rewrite Z.mul_1_r.
  pose proof (quarter_bounds (A mod (B * 4)) (B * 4)) as Hc.
  assert (HP : 0 < 2 ^ (k - 2)) by (apply Z.pow_pos_nonneg; lia).
  assert (Hk4 : 2 ^ k = 4 * 2 ^ (k - 2)).
  { change 4 with (2 ^ 2). rewrite <- Z.pow_add_r by lia. f_equal. lia. }
  assert (Hq : A / (B * 2 ^ k) = A / (B * 4) / 2 ^ (k - 2)).
  { rewrite Z.div_div by lia. f_equal. lia. }
  rewrite Hq, Hk4.
  set (a4 := A / (B * 4)) in *.
  pose proof (Z.mul_div_le a4 (2 ^ (k - 2)) HP) as Hlo.
  pose proof (Z.mul_succ_div_gt a4 (2 ^ (k - 2)) HP) as Hhi.
  nia.
Qed.

Lemma sticky_0 (B : Z) : 0 < B -> sticky 0 B 2 = 0.
Proof.
  intros HB. unfold sticky, quarter.
  rewrite Z.div_0_l, Z.mod_0_l by (change (2 ^ 2) with 4; lia). reflexivity.
Qed.

Lemma sticky_nonneg (A B : Z) : 0 <= A -> 0 < B -> 0 <= sticky A B 2.
Proof.
  intros HA HB. pose proof (sticky_range A B 2 HA HB ltac:(lia)) as [Hlo _].
  assert (0 <= A / (B * 2 ^ 2)) by (apply Z.div_pos; change (2 ^ 2) with 4; lia).
  change (2 ^ 2) with 4 in *. lia.
Qed.

Section Division.
Context {fmt : Format}.

Let Hprec : 0 < prec := prec_pos.
Let Hemax : prec < emax := prec_lt_emax.

Local Abbreviation emin := (SpecFloat.emin prec emax).
Local Abbreviation fexp := (SpecFloat.fexp prec emax).

(** Rounding a quotient and its remainder is rounding the quotient with
    two more bits. *)
Lemma binary_round_aux_remainder (s : bool) (q r my e : Z) :
  0 <= q -> 0 <= r < my ->
  binary_round_aux prec emax s q e (new_location my r)
  = pack s (let n := round_shift q e in
            let m' := rne (4 * q + quarter r my) (n + 2) in
            let n' := round_shift m' (e + n) in
            (m' / 2 ^ n', e + n + n')).
Proof.
  intros Hq Hr. pose proof (quarter_bounds r my) as Hc.
  unfold binary_round_aux, shr_fexp.
  rewrite shr_record_of_new_location by done.
  rewrite shr_from_state by lia.
  fold (round_shift q e).
  pose proof (round_shift_nonneg q e) as Hn.
  replace (2 + round_shift q e) with (round_shift q e + 2) by lia.
  rewrite round_shr_state by lia.
  cbn [shr_record_of_loc].
  rewrite shr_exact by (apply rne_nonneg; lia).
  fold (round_shift (rne (4 * q + quarter r my) (round_shift q e + 2)) (e + round_shift q e)).
  unfold shr_state at 1. cbn [shr_m]. reflexivity.
Qed.

(** The rounded quotient is a number of the format whose value is the
    quotient with its two bits, rounded at the exponent of the
    quotient. *)
Lemma binary_round_aux_remainder_value (s : bool) (q r my e : Z) :
  0 <= q -> 0 <= r < my -> (q = 0 -> e <= emin) ->
  let fe := fexp (Zdigits2 q + e) in
  e <= fe ->
  exists M E : Z,
    binary_round_aux prec emax s q e (new_location my r) = pack s (M, E) /\
    0 <= M /\ (0 < M -> canonical M E) /\ fe <= E /\
    M * 2 ^ (E - fe) = rne (4 * q + quarter r my) (fe - e + 2).
Proof.
  intros Hq Hr Hzero fe Hpre. pose proof (quarter_bounds r my) as Hc.
  rewrite binary_round_aux_remainder by done. cbv zeta.
  assert (Hn : round_shift q e = fe - e) by (unfold round_shift; fold fe; lia).
  rewrite Hn. replace (e + (fe - e)) with fe by lia.
  set (m' := rne (4 * q + quarter r my) (fe - e + 2)).
  assert (Hm' : q / 2 ^ (fe - e) <= m' <= q / 2 ^ (fe - e) + 1).
  { rewrite <- (div_quarter q r my (fe - e)) by lia. apply rne_bounds. lia. }
  pose proof (round_shift_nonneg m' fe) as Hn'.
  destruct (Z.eq_dec q 0) as [-> | Hne].
  - specialize (Hzero eq_refl).
    assert (Hfe : fe = emin) by (unfold fe; simpl; unfold SpecFloat.fexp; lia).
    rewrite Z.div_0_l in Hm' by (apply Z.pow_nonzero; lia).
    assert (Hn0 : round_shift m' fe = 0).
    { rewrite Hfe. assert (Hm01 : m' = 0 \/ m' = 1) by lia.
      destruct Hm01 as [-> | ->]; unfold round_shift; simpl Zdigits2;
        unfold SpecFloat.fexp; lia. }
    rewrite Hn0, Z.pow_0_r, Z.div_1_r, Z.add_0_r.
    exists m', fe. split; [reflexivity |]. split; [lia |].
    split; [| split; [lia | rewrite Z.sub_diag, Z.pow_0_r; lia]].
    intros HM. assert (m' = 1) as -> by lia.
    unfold canonical. rewrite Hfe. simpl Zdigits2. unfold SpecFloat.fexp. lia.
  - destruct (norm_after_round q e m' ltac:(lia) Hpre Hm') as (HM0 & HMval & Hcan & _).
    fold fe in HM0, HMval, Hcan.
    eexists _, _. split; [reflexivity |]. split; [exact HM0 |]. split; [exact Hcan |].
    split; [lia |].
    replace (fe + round_shift m' fe - fe) with (round_shift m' fe) by lia.
    exact HMval.
Qed.

End Division.

Section QuotientValue.
Context {fmt : Format}.
Hypothesis Hprec3 : 3 <= prec.

Let Hprec : 0 < prec := prec_pos.
Let Hemax : prec < emax := prec_lt_emax.

Local Abbreviation emin := (SpecFloat.emin prec emax).
Local Abbreviation fexp := (SpecFloat.fexp prec emax).

(** What the division computes before it rounds: the quotient of the
    shifted dividend, its exponent and the side of the remainder. *)
Lemma SFdiv_core_binary_spec (mx my : positive) (ex ey : Z) :
  exists q r e' : Z,
    SFdiv_core_binary prec emax (Z.pos mx) ex (Z.pos my) ey = (q, e', new_location (Z.pos my) r) /\
    e' = Z.min (fexp (Zdigits2 (Z.pos mx) + ex - (Zdigits2 (Z.pos my) + ey))) (ex - ey) /\
    q = Z.pos mx * 2 ^ (ex - ey - e') / Z.pos my /\
    r = (Z.pos mx * 2 ^ (ex - ey - e')) mod Z.pos my /\
    (q = 0 -> e' <= emin) /\
    e' <= fexp (Zdigits2 q + e').
Proof.
  unfold SFdiv_core_binary.
  set (d1 := Zdigits2 (Z.pos mx)). set (d2 := Zdigits2 (Z.pos my)).
  set (e' := Z.min (fexp (d1 + ex - (d2 + ey))) (ex - ey)).
  set (sh := ex - ey - e').
  assert (Hsh : 0 <= sh) by (unfold sh, e'; lia).
  set (m' := match sh with
             | 0 => Z.pos mx
             | Z.pos _ => Z.shiftl (Z.pos mx) sh
             | Z.neg _ => 0
             end).
  assert (Hm' : m' = Z.pos mx * 2 ^ sh).
  { unfold m'. destruct sh as [|p|p]; [simpl; lia | | lia].
    by rewrite Z.shiftl_mul_pow2 by lia. }
  pose proof (Z_div_mod m' (Z.pos my) ltac:(lia)) as Hdiv.
  assert (Hq_eq : (Z.div_eucl m' (Z.pos my)).1 = m' / Z.pos my) by reflexivity.
  assert (Hr_eq : (Z.div_eucl m' (Z.pos my)).2 = m' mod Z.pos my) by reflexivity.
  destruct (Z.div_eucl m' (Z.pos my)) as [q r]. destruct Hdiv as [Hqr Hr].
  cbn [fst snd] in Hq_eq, Hr_eq.
  exists q, r, e'. split; [reflexivity |]. split; [reflexivity |].
  fold sh. rewrite <- Hm'. split; [exact Hq_eq |]. split; [exact Hr_eq |].
  assert (Hp : 0 < 2 ^ sh) by (apply Z.pow_pos_nonneg; lia).
  assert (Hq0 : 0 <= q) by nia.
  pose proof (fexp_ge_emin (Zdigits2 q + e')) as Hfq.
  pose proof (Zdigits2_bounds (Z.pos mx) ltac:(lia)) as [Hlo1 _]. fold d1 in Hlo1.
  pose proof (Zdigits2_bounds (Z.pos my) ltac:(lia)) as [_ Hhi2]. fold d2 in Hhi2.
  pose proof (Zdigits2_pos (Z.pos mx) ltac:(lia)) as Hd1. fold d1 in Hd1.
  pose proof (Zdigits2_pos (Z.pos my) ltac:(lia)) as Hd2. fold d2 in Hd2.
  split.
  - intros ->.
    assert (Hlt : d1 + sh <= d2).
    { destruct (Z_le_gt_dec (d1 + sh) d2) as [|Hgt]; [done |].
      assert (Hpw : 2 ^ d2 <= 2 ^ (d1 - 1 + sh)) by (apply Z.pow_le_mono_r; lia).
      rewrite Z.pow_add_r in Hpw by lia. nia. }
    unfold sh, e', SpecFloat.fexp in *. lia.
  - destruct (Z_le_gt_dec e' emin) as [|Hgt]; [lia |].
    assert (Hk : prec <= d1 + sh - d2).
    { unfold sh, e', SpecFloat.fexp in *. lia. }
    assert (Hdq : d1 + sh - d2 <= Zdigits2 q).
    { apply Zdigits2_ge; [lia |].
      assert (Hpow : 2 ^ (d1 + sh - d2 - 1) * 2 ^ d2 = 2 ^ (d1 - 1) * 2 ^ sh).
      { rewrite <- !Z.pow_add_r by lia. f_equal. lia. }
      assert (0 < 2 ^ (d1 + sh - d2 - 1)) by (apply Z.pow_pos_nonneg; lia).
      destruct (Z_le_gt_dec (2 ^ (d1 + sh - d2 - 1)) q) as [|Hq]; [done |].
      assert (q + 1 <= 2 ^ (d1 + sh - d2 - 1)) by lia.
      nia. }
    pose proof (fexp_mono (d1 + ex - (d2 + ey)) (Zdigits2 q + e')) as Hmono.
    unfold sh, e' in *. lia.
Qed.

(** The value of a quotient of two finite numbers: the quotient of the
    mantissas, cut to a multiple of four units with the side of the
    remainder, rounded to the format. *)
Lemma SFdiv_finite_xval (sx sy : bool) (mx my : positive) (ex ey : Z) :
  in_format (S754_finite sx mx ex) -> in_format (S754_finite sy my ey) ->
  in_format (SFdiv prec emax (S754_finite sx mx ex) (S754_finite sy my ey)) /\
  xval (SFdiv prec emax (S754_finite sx mx ex) (S754_finite sy my ey))
  = sgn (xorb sx sy)
    * Z.min huge (round_val (sticky (Z.pos mx * 2 ^ (ex - ey - unit_exp)) (Z.pos my) 2)).
Proof.
  intros Hx Hy.
  destruct (in_format_finite_value _ _ _ Hx) as (Hcx & Hex & _ & _).
  destruct (in_format_finite_value _ _ _ Hy) as (Hcy & Hey & _ & _).
  destruct Hy as [_ Hvy]. apply valid_finite in Hvy as [_ Heyhi].
  cbn [SFdiv].
  destruct (SFdiv_core_binary_spec mx my ex ey) as (q & r & e' & -> & He' & Hq & Hr & Hzero & Hpre).
  set (m' := Z.pos mx * 2 ^ (ex - ey - e')) in *.
  assert (Hsh : 0 <= ex - ey - e') by lia.
  assert (Hp : 0 < 2 ^ (ex - ey - e')) by (apply Z.pow_pos_nonneg; lia).
  assert (Hm'0 : 0 < m') by (unfold m'; lia).
  assert (Hq0 : 0 <= q) by (rewrite Hq; apply Z.div_pos; lia).
  assert (Hr0 : 0 <= r < Z.pos my) by (rewrite Hr; apply Z.mod_pos_bound; lia).
  pose proof (fexp_ge_emin (Zdigits2 (Z.pos mx) + ex - (Zdigits2 (Z.pos my) + ey))) as Hfd.
  assert (Hg : 2 <= e' - unit_exp).
  { unfold unit_exp, SpecFloat.emin in *. lia. }
  set (g := e' - unit_exp) in *.
  assert (HPg : 0 < 2 ^ g) by (apply Z.pow_pos_nonneg; lia).
  set (A := Z.pos mx * 2 ^ (ex - ey - unit_exp)).
  assert (HA : A = m' * 2 ^ g).
  { unfold A, m', g. rewrite <- Z.mul_assoc, <- Z.pow_add_r by lia. do 2 f_equal. lia. }
  assert (HA0 : 0 <= A) by lia.
  assert (HAq : A / (Z.pos my * 2 ^ g) = q).
  { rewrite HA, Hq. apply Z.div_mul_cancel_r; lia. }
  assert (HAr : A mod (Z.pos my * 2 ^ g) = r * 2 ^ g).
  { rewrite HA, Hr. apply Z.mul_mod_distr_r; lia. }
  destruct (binary_round_aux_remainder_value (xorb sx sy) q r (Z.pos my) e' Hq0 Hr0 Hzero Hpre)
    as (M & E & -> & HM & Hcan & HE & Hval).
  set (fe := fexp (Zdigits2 q + e')) in *.
  destruct (xval_pack (xorb sx sy) M E HM Hcan) as [Hgood ->].
  split; [exact Hgood |]. do 2 f_equal.
  (* the rounding position of the cut quotient *)
  set (T := sticky A (Z.pos my) 2).
  pose proof (sticky_range A (Z.pos my) g HA0 ltac:(lia) Hg) as HT.
  fold T in HT. rewrite HAq in HT.
  pose proof unit_exp_le_emin as Hue.
  assert (HfT : fexp (Zdigits2 T + unit_exp) = fe).
  { destruct (Z.eq_dec q 0) as [Hq00 | Hqne].
    - specialize (Hzero Hq00). rewrite Hq00 in HT.
      assert (HdT : Zdigits2 T <= g).
      { destruct (Z.eq_dec T 0) as [-> | HT0]; [simpl; lia |].
        pose proof (Zdigits2_bounds T ltac:(lia)) as [HloT _].
        destruct (Z_le_gt_dec (Zdigits2 T) g) as [|Hgt]; [done |].
        assert (2 ^ g <= 2 ^ (Zdigits2 T - 1)) by (apply Z.pow_le_mono_r; lia).
        lia. }
      unfold fe. rewrite Hq00. simpl Zdigits2. unfold g in HdT.
      unfold SpecFloat.fexp. lia.
    - pose proof (Zdigits2_bounds q ltac:(lia)) as [Hloq Hhiq].
      pose proof (Zdigits2_pos q ltac:(lia)) as Hdq.
      assert (HdT : Zdigits2 T = Zdigits2 q + g).
      { apply Zdigits2_unique; [| lia].
        replace (Zdigits2 q + g - 1) with (Zdigits2 q - 1 + g) by lia.
        rewrite !Z.pow_add_r by lia. nia. }
      rewrite HdT. unfold fe, g. f_equal. lia. }
  assert (Hn2 : 2 <= fe - unit_exp).
  { pose proof (fexp_ge_emin (Zdigits2 q + e')). fold fe in H.
    unfold unit_exp, SpecFloat.emin in *. lia. }
  unfold round_val. fold T. rewrite HfT.
  unfold T. rewrite (rne_sticky A (Z.pos my) 2 (fe - unit_exp)) by lia.
  rewrite <- (rne_sticky A (Z.pos my) g (fe - unit_exp)) by (unfold g; lia).
  unfold sticky. rewrite HAq, HAr, quarter_scale by lia.
  replace (fe - unit_exp) with ((fe - e' + 2) + (g - 2)) at 1 by (unfold g; lia).
  rewrite rne_shift by lia.
  rewrite <- Hval.
  rewrite <- Z.mul_assoc, <- Z.pow_add_r by lia. do 2 f_equal. lia.
Qed.

End QuotientValue.

Section QuotientOrder.
Context {fmt : Format}.
Hypothesis Hprec3 : 3 <= prec.

Let Hprec : 0 < prec := prec_pos.
Let Hemax : prec < emax := prec_lt_emax.

Local Abbreviation emin := (SpecFloat.emin prec emax).
Local Abbreviation fexp := (SpecFloat.fexp prec emax).

Lemma quot_val_0 (my ey : Z) : 0 < my -> quot_val my ey 0 = 0.
Proof.
  intros Hmy. pose proof huge_pos. unfold quot_val.
  rewrite Z.mul_0_l, Zdiv_0_l, sticky_0, round_val_0 by done. lia.
Qed.

Lemma quot_val_bounds (my ey X : Z) : 0 <= X -> 0 < my -> 0 <= quot_val my ey X <= huge.
Proof.
  intros HX Hmy. pose proof huge_pos as Hhuge.
  pose proof unit_exp_le_emin as Hue. pose proof emin_neg as Hem.
  unfold quot_val.
  assert (Hq0 : 0 <= X * 2 ^ (- unit_exp) / 2 ^ (ey - unit_exp)).
  { apply Z_div_nonneg_nonneg; [| apply Z.pow_nonneg; lia].
    apply Z.mul_nonneg_nonneg; [lia | apply Z.pow_nonneg; lia]. }
  pose proof (round_val_nonneg _ (sticky_nonneg _ my Hq0 Hmy)). lia.
Qed.

Lemma quot_val_mono (my ey X1 X2 : Z) :
  0 < my -> 0 <= X1 -> X1 <= X2 -> quot_val my ey X1 <= quot_val my ey X2.
Proof.
  intros Hmy HX1 HX. pose proof unit_exp_le_emin as Hue. pose proof emin_neg as Hem.
  unfold quot_val. apply Z.min_le_compat_l.
  assert (HP : 0 <= 2 ^ (- unit_exp)) by (apply Z.pow_nonneg; lia).
  assert (Hd : X1 * 2 ^ (- unit_exp) / 2 ^ (ey - unit_exp)
               <= X2 * 2 ^ (- unit_exp) / 2 ^ (ey - unit_exp)).
  { destruct (Z_le_gt_dec 0 (ey - unit_exp)) as [Hge | Hlt].
    - apply Z.div_le_mono; [apply Z.pow_pos_nonneg; lia |].
      apply Z.mul_le_mono_nonneg_r; lia.
    - rewrite (Z.pow_neg_r 2 (ey - unit_exp)) by lia. by rewrite !Z.div_0_r. }
  assert (Hq0 : 0 <= X1 * 2 ^ (- unit_exp) / 2 ^ (ey - unit_exp)).
  { apply Z_div_nonneg_nonneg; [| apply Z.pow_nonneg; lia].
    apply Z.mul_nonneg_nonneg; lia. }
  apply round_val_mono; [by apply sticky_nonneg |].
  apply sticky_mono; (lia || done).
Qed.

Lemma quot_signed_mono (my ey V1 V2 : Z) :
  0 < my -> V1 <= V2 -> quot_signed my ey V1 <= quot_signed my ey V2.
Proof.
  intros Hmy HV. unfold quot_signed.
  destruct (Z.ltb_spec V1 0), (Z.ltb_spec V2 0).
  - pose proof (quot_val_mono my ey (- V2) (- V1) Hmy ltac:(lia) ltac:(lia)). lia.
  - pose proof (quot_val_bounds my ey (- V1) ltac:(lia) Hmy).
    pose proof (quot_val_bounds my ey V2 ltac:(lia) Hmy). lia.
  - lia.
  - by apply quot_val_mono.
Qed.

(** The value of the quotient of a finite number by a positive finite
    number is a function of the value of the dividend. *)
Lemma SFdiv_xval (x : spec_float) (my : positive) (ey : Z) :
  in_format (S754_finite false my ey) -> in_format x -> is_finite x = true ->
  in_format (SFdiv prec emax x (S754_finite false my ey)) /\
  xval (SFdiv prec emax x (S754_finite false my ey)) = quot_signed (Z.pos my) ey (xval x).
Proof.
  intros Hy Hx Hfx. pose proof unit_exp_le_emin as Hue. pose proof emin_neg as Hem.
  destruct x as [sx|sx| |sx mx ex]; try discriminate.
  - cbn [SFdiv xval]. split; [done |]. unfold quot_signed.
    replace (0 <? 0) with false by reflexivity. by rewrite quot_val_0.
  - destruct (SFdiv_finite_xval Hprec3 sx false mx my ex ey Hx Hy) as [Hgood ->].
    split; [exact Hgood |].
    destruct (in_format_finite_value _ _ _ Hx) as (_ & Hex & Hbx & _).
    destruct (in_format_finite_value _ _ _ Hy) as (_ & Hey & _ & _).
    destruct Hy as [_ Hvy]. apply valid_finite in Hvy as [_ Heyhi].
    assert (Hg : 0 <= ex - ey - unit_exp).
    { unfold unit_exp, SpecFloat.emin in *. lia. }
    assert (HA : Z.pos mx * 2 ^ (ex - unit_exp) * 2 ^ (- unit_exp) / 2 ^ (ey - unit_exp)
                 = Z.pos mx * 2 ^ (ex - ey - unit_exp)).
    { rewrite <- Z.mul_assoc, <- Z.pow_add_r by lia.
      replace (ex - unit_exp + - unit_exp) with ((ex - ey - unit_exp) + (ey - unit_exp)) by lia.
      rewrite Z.pow_add_r, Z.mul_assoc by lia.
      apply Z.div_mul. apply Z.pow_nonzero; lia. }
    rewrite xorb_false_r. cbn [xval]. unfold quot_signed, quot_val, sgn.
    destruct sx.
    + replace (-1 * (Z.pos mx * 2 ^ (ex - unit_exp)) <? 0) with true
        by (symmetry; apply Z.ltb_lt; lia).
      replace (- (-1 * (Z.pos mx * 2 ^ (ex - unit_exp)))) with (Z.pos mx * 2 ^ (ex - unit_exp)) by lia.
      rewrite HA. lia.
    + replace (1 * (Z.pos mx * 2 ^ (ex - unit_exp)) <? 0) with false
        by (symmetry; apply Z.ltb_ge; lia).
      rewrite !Z.mul_1_l, HA. reflexivity.
Qed.

(** Division by a positive finite number keeps the order. *)
Lemma SFdiv_monotone (x1 x2 : spec_float) (my : positive) (ey : Z) :
  in_format (S754_finite false my ey) -> in_format x1 -> in_format x2 ->
  xval x1 <= xval x2 ->
  in_format (SFdiv prec emax x1 (S754_finite false my ey)) /\
  in_format (SFdiv prec emax x2 (S754_finite false my ey)) /\
  xval (SFdiv prec emax x1 (S754_finite false my ey))
  <= xval (SFdiv prec emax x2 (S754_finite false my ey)).
Proof.
  intros Hy Hx1 Hx2 Hle. pose proof huge_pos.
  destruct (in_format_cases x1 Hx1) as [Hf1 | [-> | ->]];
    destruct (in_format_cases x2 Hx2) as [Hf2 | [-> | ->]];
    try (destruct (SFdiv_xval x1 my ey Hy Hx1 Hf1) as [Hg1 Hv1]);
    try (destruct (SFdiv_xval x2 my ey Hy Hx2 Hf2) as [Hg2 Hv2]);
    try (pose proof (finite_xval_lt x1 Hx1 Hf1));
    try (pose proof (finite_xval_lt x2 Hx2 Hf2));
    try (pose proof (xval_bounds _ Hg1));
    try (pose proof (xval_bounds _ Hg2));
    cbn [SFdiv xorb];
    (split; [done || apply in_format_infinity |]);
    (split; [done || apply in_format_infinity |]);
    cbn [xval] in *; unfold sgn in *; try lia.
  rewrite Hv1, Hv2. apply quot_signed_mono; [lia | done].
Qed.

End QuotientOrder.

Section Sums.
Context {fmt : Format}.

Lemma SFadd_finite_infinity (x : spec_float) (s : bool) :
  is_finite x = true -> SFadd prec emax x (S754_infinity s) = S754_infinity s.
Proof. by destruct x. Qed.

Lemma SFadd_infinity_finite (x : spec_float) (s : bool) :
  is_finite x = true -> SFadd prec emax (S754_infinity s) x = S754_infinity s.
Proof. by destruct x. Qed.

(** A sum grows with both summands, unless it is NaN. *)
Lemma SFadd_monotone (a1 a2 b1 b2 : spec_float) :
  in_format a1 -> in_format a2 -> in_format b1 -> in_format b2 ->
  xval a1 <= xval a2 -> xval b1 <= xval b2 ->
  le_or_nan (SFadd prec emax a1 b1) (SFadd prec emax a2 b2).
Proof.
  intros Ha1 Ha2 Hb1 Hb2 Ha Hb. pose proof huge_pos as Hhuge. unfold le_or_nan.
  destruct (is_nan (SFadd prec emax a1 b1)) eqn:Hn1; [by left |].
  destruct (is_nan (SFadd prec emax a2 b2)) eqn:Hn2; [by right; left |].
  right; right.
  assert (Hg1 : in_format (SFadd prec emax a1 b1)).
  { split; [done | apply SFadd_valid; [apply Ha1 | apply Hb1]]. }
  assert (Hg2 : in_format (SFadd prec emax a2 b2)).
  { split; [done | apply SFadd_valid; [apply Ha2 | apply Hb2]]. }
  split; [done |]. split; [done |].
  pose proof (xval_bounds _ Hg1) as Hr1. pose proof (xval_bounds _ Hg2) as Hr2.
  clear Hg1 Hg2.
  destruct (in_format_cases a1 Ha1) as [Hfa1 | [-> | ->]];
    destruct (in_format_cases a2 Ha2) as [Hfa2 | [-> | ->]];
    destruct (in_format_cases b1 Hb1) as [Hfb1 | [-> | ->]];
    destruct (in_format_cases b2 Hb2) as [Hfb2 | [-> | ->]];
    try (pose proof (finite_xval_lt a1 Ha1 Hfa1));
    try (pose proof (finite_xval_lt a2 Ha2 Hfa2));
    try (pose proof (finite_xval_lt b1 Hb1 Hfb1));
    try (pose proof (finite_xval_lt b2 Hb2 Hfb2));
    try rewrite (SFadd_finite_infinity _ _ Hfa1) in *;
    try rewrite (SFadd_finite_infinity _ _ Hfa2) in *;
    try rewrite (SFadd_infinity_finite _ _ Hfb1) in *;
    try rewrite (SFadd_infinity_finite _ _ Hfb2) in *;
    cbn [SFadd xval is_nan] in *; unfold sgn in *; try discriminate; try lia.
  destruct (SFadd_xval a1 b1 Ha1 Hb1 Hfa1 Hfb1) as [_ ->].
  destruct (SFadd_xval a2 b2 Ha2 Hb2 Hfa2 Hfb2) as [_ ->].
  apply round_signed_mono. lia.
Qed.

Lemma SFadd_le_or_nan (s1 s2 c1 c2 : spec_float) :
  le_or_nan s1 s2 -> in_format c1 -> in_format c2 -> xval c1 <= xval c2 ->
  le_or_nan (SFadd prec emax s1 c1) (SFadd prec emax s2 c2).
Proof.
  intros [Hn | [Hn | (Hs1 & Hs2 & Hs)]] Hc1 Hc2 Hc.
  - left. by destruct s1.
  - right; left. by destruct s2.
  - by apply SFadd_monotone.
Qed.

Lemma le_or_nan_not_lt (x y : spec_float) : le_or_nan x y -> SFltb y x = false.
Proof.
  intros [Hn | [Hn | (Hx & Hy & Hle)]].
  - destruct x; try discriminate. by destruct y.
  - by destruct y.
  - by apply xval_SFltb_false.
Qed.

End Sums.

Lemma weight_04 : F64.decimal 4 10 = S754_finite false 7205759403792794 (-54).
Proof. vm_compute. reflexivity. Qed.

Lemma divisor_cost : F64.of_Z 100000 = S754_finite false 6871947673600000 (-36).
Proof. vm_compute. reflexivity. Qed.

Lemma divisor_time : F64.of_Z 1000000 = S754_finite false 8589934592000000 (-33).
Proof. vm_compute. reflexivity. Qed.

Lemma binary64_prec : 3 <= prec (Format := binary64).
Proof. vm_compute. discriminate. Qed.

(** The cost of a route that costs no more, takes no longer and is
    trusted no less is not the higher one, whatever the signs of the
    numbers. *)
Lemma cost_function_dominance (route1 route2 : Route) :
  valid64 (estimated_cost route1) = true -> valid64 (estimated_cost route2) = true ->
  valid64 (estimated_time_ms route1) = true -> valid64 (estimated_time_ms route2) = true ->
  valid64 (confidence_score route1) = true -> valid64 (confidence_score route2) = true ->
  (estimated_cost route1 <=? estimated_cost route2)%f64 = true ->
  (estimated_time_ms route1 <=? estimated_time_ms route2)%f64 = true ->
  (confidence_score route2 <=? confidence_score route1)%f64 = true ->
  le_or_nan (fmt := binary64) (cost_function route1) (cost_function route2).
Proof.
  intros Hvc1 Hvc2 Hvt1 Hvt2 Hvs1 Hvs2 Hc Ht Hs.
  destruct (SFleb_not_nan _ _ Hc) as [Hnc1 Hnc2].
  destruct (SFleb_not_nan _ _ Ht) as [Hnt1 Hnt2].
  destruct (SFleb_not_nan _ _ Hs) as [Hns2 Hns1].
  assert (Hgc1 : in_format (fmt := binary64) (estimated_cost route1)) by done.
  assert (Hgc2 : in_format (fmt := binary64) (estimated_cost route2)) by done.
  assert (Hgt1 : in_format (fmt := binary64) (estimated_time_ms route1)) by done.
  assert (Hgt2 : in_format (fmt := binary64) (estimated_time_ms route2)) by done.
  assert (Hgs1 : in_format (fmt := binary64) (confidence_score route1)) by done.
  assert (Hgs2 : in_format (fmt := binary64) (confidence_score route2)) by done.
  pose proof (SFleb_xval (fmt := binary64) _ _ Hgc1 Hgc2 Hc) as Hxc.
  pose proof (SFleb_xval (fmt := binary64) _ _ Hgt1 Hgt2 Ht) as Hxt.
  pose proof (SFleb_xval (fmt := binary64) _ _ Hgs2 Hgs1 Hs) as Hxs.
  assert (Hdc : in_format (fmt := binary64) (S754_finite false 6871947673600000 (-36)))
    by (split; vm_compute; reflexivity).
  assert (Hdt : in_format (fmt := binary64) (S754_finite false 8589934592000000 (-33)))
    by (split; vm_compute; reflexivity).
  assert (Hw4 : in_format (fmt := binary64) (S754_finite false 7205759403792794 (-54)))
    by (split; vm_compute; reflexivity).
  assert (Hw3 : in_format (fmt := binary64) (S754_finite false 5404319552844595 (-54)))
    by (split; vm_compute; reflexivity).
  assert (Hone : in_format (fmt := binary64) F64.one) by (split; vm_compute; reflexivity).
  destruct (SFdiv_monotone (fmt := binary64) binary64_prec _ _ _ _ Hdc Hgc1 Hgc2 Hxc)
    as (Hfc1 & Hfc2 & Hfc).
  destruct (SFdiv_monotone (fmt := binary64) binary64_prec _ _ _ _ Hdt Hgt1 Hgt2 Hxt)
    as (Htc1 & Htc2 & Htc).
  destruct (SFsub_antitone (fmt := binary64) F64.one _ _ Hone eq_refl Hgs2 Hgs1 Hxs)
    as (Hrp2 & Hrp1 & Hrp).
  destruct (SFmul_monotone (fmt := binary64) _ _ _ _ Hw4 Hfc2 Hfc1 Hfc) as (Ha2 & Ha1 & Ha).
  destruct (SFmul_monotone (fmt := binary64) _ _ _ _ Hw3 Htc2 Htc1 Htc) as (Hb2 & Hb1 & Hb).
  destruct (SFmul_monotone (fmt := binary64) _ _ _ _ Hw3 Hrp2 Hrp1 Hrp) as (Hp2 & Hp1 & Hp).
  unfold cost_function. cbv zeta.
  rewrite weight_03, weight_04, divisor_cost, divisor_time.
  apply (SFadd_le_or_nan (fmt := binary64)); [| exact Hp1 | exact Hp2 | exact Hp].
  by apply (SFadd_monotone (fmt := binary64)).
Qed.

(** X19: [cost_function] keeps the order of routes: of two routes with
    a cost and a duration that are not negative and a confidence of at
    most 1, the one that costs no more, takes no longer and is trusted no
    less gets a cost that is no higher, every division, product and sum
    rounded to double precision. *)
Theorem cost_function_monotone (route1 route2 : Route) :
  valid64 (estimated_cost route1) = true -> valid64 (estimated_cost route2) = true ->
  valid64 (estimated_time_ms route1) = true -> valid64 (estimated_time_ms route2) = true ->
  valid64 (confidence_score route1) = true -> valid64 (confidence_score route2) = true ->
  (F64.zero <=? estimated_cost route1)%f64 = true ->
  (estimated_cost route1 <=? estimated_cost route2)%f64 = true ->
  (F64.zero <=? estimated_time_ms route1)%f64 = true ->
  (estimated_time_ms route1 <=? estimated_time_ms route2)%f64 = true ->
  (confidence_score route2 <=? confidence_score route1)%f64 = true ->
  (confidence_score route1 <=? F64.one)%f64 = true ->
  (cost_function route1 <=? cost_function route2)%f64 = true.
Proof.
  intros Hvc1 Hvc2 Hvt1 Hvt2 Hvs1 Hvs2 Hc0 Hc Ht0 Ht Hs Hs1.
  destruct (SFleb_not_nan _ _ Hc) as [Hnc1 Hnc2].
  destruct (SFleb_not_nan _ _ Ht) as [Hnt1 Hnt2].
  destruct (SFleb_not_nan _ _ Hs) as [Hns2 Hns1].
  assert (Hc2 : (F64.zero <=? estimated_cost route2)%f64 = true)
    by (by apply (SFleb_trans F64.zero (estimated_cost route1))).
  assert (Ht2 : (F64.zero <=? estimated_time_ms route2)%f64 = true)
    by (by apply (SFleb_trans F64.zero (estimated_time_ms route1))).
  assert (Hs2 : (confidence_score route2 <=? F64.one)%f64 = true)
    by (by apply (SFleb_trans _ (confidence_score route1))).
  destruct (cost_function_nonneg64 route1 Hvc1 Hvt1 Hvs1 Hc0 Ht0 Hs1) as [[Hn1 _] _].
  destruct (cost_function_nonneg64 route2 Hvc2 Hvt2 Hvs2 Hc2 Ht2 Hs2) as [[Hn2 _] _].
  apply SFltb_false_leb; [exact Hn2 | exact Hn1 |].
  apply (le_or_nan_not_lt (fmt := binary64)).
  by apply cost_function_dominance.
Qed.

Lemma cost_function_monotone_witness :
  (cost_function demo_route_direct <=? cost_function demo_route_two_hops)%f64 = true.
Proof.
  apply (cost_function_monotone demo_route_direct demo_route_two_hops);
    vm_compute; reflexivity.
Defined.

(* ===================================================================== *)
(** * Training                                                          *)
(* ===================================================================== *)

Lemma concat_chunks {A} (s n : nat) (l : list A) :
  (length l <= n * s)%nat ->
  concat ((fun k => take s (drop (k * s) l)) <$> seq 0 n) = l.
Proof.
  revert l. induction n as [|n IH]; intros l Hlen.
  - simpl in *. destruct l; [done | simpl in Hlen; lia].
  - cbn [seq fmap list_fmap concat]. rewrite <- fmap_S_seq, <- list_fmap_compose.
    rewrite Nat.mul_0_l, drop_0.
    transitivity (take s l ++ drop s l); [| apply take_drop]. f_equal.
    etransitivity; [| apply (IH (drop s l)); rewrite length_drop; lia].
    f_equal. apply list_fmap_ext. intros _ k _. cbn.
    rewrite drop_drop. do 2 f_equal; lia.
Qed.

Lemma py_slice_chunk {A} (l : list A) (k s : nat) :
  py_slice l (k * s) (k * s + s) = take s (drop (k * s) l).
Proof. unfold py_slice. f_equal. lia. Qed.

(** The number of batches that [train] divides by is not a zero when there
    is data. *)
Lemma batch_count_nonzero (n : Z) (total_loss : f64) :
  1 <= n ->
  py_truediv total_loss (F64.of_Z n / F64.of_Z 32)%f64
  = Some (total_loss / (F64.of_Z n / F64.of_Z 32))%f64.
Proof.
  intros Hn.
  destruct (binary_normalize_xval (fmt := binary64) n 0 false ltac:(vm_compute; discriminate))
    as [Hg Hv].
  assert (Hone : xval (fmt := binary64) F64.one <= xval (fmt := binary64) (F64.of_Z n)).
  { unfold F64.of_Z.
    change (binary_normalize F64.prec F64.emax n 0 false)
      with (binary_normalize (prec (Format := binary64)) (emax (Format := binary64)) n 0 false).
    rewrite Hv.
    assert (H1 : in_format (fmt := binary64) F64.one) by (split; vm_compute; reflexivity).
    destruct (in_format_finite_value (fmt := binary64) false 4503599627370496 (-52) H1)
      as (_ & _ & _ & Hr).
    change F64.one with (S754_finite false 4503599627370496 (-52)).
    rewrite <- Hr. apply round_signed_mono.
    change (xval (fmt := binary64) (S754_finite false 4503599627370496 (-52)))
      with (1 * 2 ^ (0 - unit_exp (fmt := binary64))).
    apply Z.mul_le_mono_nonneg_r; [apply Z.pow_nonneg |]; lia. }
  assert (H32 : F64.of_Z 32 = S754_finite false 4503599627370496 (-47))
    by (vm_compute; reflexivity).
  rewrite H32.
  assert (Hgx : in_format (fmt := binary64) (F64.of_Z n)) by exact Hg.
  clear Hg Hv. rename Hgx into Hg.
  destruct (F64.of_Z n) as [s0|s0| |s0 m e].
  - exfalso. vm_compute in Hone. by apply Hone.
  - by destruct s0.
  - by destruct Hg.
  - assert (Hs : s0 = false).
    { destruct s0; [| reflexivity]. exfalso.
      assert (0 < xval (fmt := binary64) F64.one) by (vm_compute; reflexivity).
      cbn [xval sgn] in Hone.
      assert (0 < Z.pos m * 2 ^ (e - unit_exp (fmt := binary64))) by
        (apply Z.mul_pos_pos; [lia | apply Z.pow_pos_nonneg; [lia |];
         destruct (in_format_finite_value (fmt := binary64) _ _ _ Hg) as (_ & He & _);
         vm_compute in He |- *; lia]).
      lia. }
    subst s0.
    destruct (in_format_finite_value (fmt := binary64) _ _ _ Hg) as (Hcan & He & _ & _).
    assert (Hdig : 1 <= Zdigits2 (Z.pos m) + e).
    { pose proof (Zdigits2_bounds (Z.pos m) ltac:(lia)) as [_ Hhi].
      change (xval (fmt := binary64) F64.one) with (2 ^ 2148) in Hone.
      cbn [xval sgn] in Hone. rewrite Z.mul_1_l in Hone.
      change (unit_exp (fmt := binary64)) with (-2148) in Hone.
      change (SpecFloat.emin (prec (Format := binary64)) (emax (Format := binary64)))
        with (-1074) in He.
      assert (Hlt : 2 ^ 2148 < 2 ^ (Zdigits2 (Z.pos m) + (e - -2148))).
      { rewrite Z.pow_add_r by (pose proof (Zdigits2_pos (Z.pos m)); lia).
        assert (0 < 2 ^ (e - -2148)) by (apply Z.pow_pos_nonneg; lia). nia. }
      pose proof (Zdigits2_pos (Z.pos m) ltac:(lia)) as Hdpos.
      apply Z.pow_lt_mono_r_iff in Hlt; lia. }
    change (SpecFloat.emin (prec (Format := binary64)) (emax (Format := binary64)))
      with (-1074) in He.
    unfold py_truediv.
    destruct (F64.div (S754_finite false m e) (S754_finite false 4503599627370496 (-47)))
      as [sz| | |] eqn:Hz; try reflexivity.
    exfalso. revert Hz.
    apply (SFdiv_finite_nonzero (fmt := binary64)).
    + change (Zdigits2 4503599627370496) with 53.
      change (SpecFloat.emin (prec (Format := binary64)) (emax (Format := binary64)))
        with (-1074).
      change (prec (Format := binary64)) with 53. lia.
    + change (SpecFloat.emin (prec (Format := binary64)) (emax (Format := binary64)))
        with (-1074). lia.
Qed.

Section TrainingFacts.
Context `{TorchOptim}.

Lemma batches_eq (training_data : list (Route * f64)) :
  batches training_data
  = (fun k => take 32 (drop (k * 32) training_data))
      <$> seq 0 ((length training_data + 31) / 32).
Proof.
  unfold batches, py_range_step. rewrite <- list_fmap_compose.
  replace (length training_data + 32 - 1)%nat with (length training_data + 31)%nat by lia.
  apply list_fmap_ext. intros _ k _. cbn. apply py_slice_chunk.
Qed.

(** X20: the batches of an epoch split the training data in order: their
    concatenation is the data, there are [ceil(len / 32)] of them, none is
    empty and all but the last hold 32 samples. *)
Theorem batches_partition (training_data : list (Route * f64)) :
  concat (batches training_data) = training_data /\
  length (batches training_data) = ((length training_data + 31) / 32)%nat /\
  (forall (k : nat) (b : list (Route * f64)),
     batches training_data !! k = Some b ->
     (1 <= length b <= 32)%nat /\
     (S k < length (batches training_data) -> length b = 32%nat)%nat).
Proof.
  rewrite batches_eq.
  set (n := ((length training_data + 31) / 32)%nat).
  assert (Hn : (length training_data <= n * 32 < length training_data + 32)%nat).
  { unfold n. pose proof (Nat.div_mod_eq (length training_data + 31) 32) as Hdiv.
    pose proof (Nat.mod_upper_bound (length training_data + 31) 32). lia. }
  split; [apply concat_chunks; lia |].
  split; [by rewrite length_fmap, length_seq |].
  intros k b Hk. rewrite length_fmap, length_seq.
  rewrite list_lookup_fmap in Hk.
  destruct (seq 0 n !! k) as [k'|] eqn:Hseq; [| discriminate Hk].
  apply lookup_seq in Hseq as [-> Hlt]. injection Hk as <-.
  rewrite length_take, length_drop. lia.
Qed.

(** X21: when the optimizer is created, [train] with no epoch returns at
    once and leaves everything as it is; [train] with at least one epoch
    and no training data raises ZeroDivisionError at the average of the
    first epoch, without a training step and without a line printed. *)
Theorem train_without_work (training_data : list (Route * f64)) (epochs : Z)
    (lr : f64) (w : World) (optimizer : Adam) :
  Adam_init (parameters (model (self w))) lr = Ok optimizer ->
  (epochs <= 0 -> train training_data epochs lr w = (Returns (), w, [])) /\
  (0 < epochs -> train [] epochs lr w = (RaisesZeroDivisionError, w, [])).
Proof.
  intros Hinit. unfold train. rewrite Hinit. split; intros Hepochs.
  - by rewrite seqZ_nil.
  - rewrite seqZ_cons by done. reflexivity.
Qed.

Lemma same_setup_refl (w : World) : same_setup w w.
Proof. by repeat split. Qed.

Lemma same_setup_trans (w1 w2 w3 : World) :
  same_setup w1 w2 -> same_setup w2 w3 -> same_setup w1 w3.
Proof.
  intros (Ht & Hp & Hmd & Hg) (Ht' & Hp' & Hmd' & Hg').
  repeat split; [congruence.. |].
  intros Hmode. rewrite Hg' by congruence. by apply Hg.
Qed.

Lemma preserves_bind {A B} (m : M A) (f : A -> M B) :
  preserves m -> (forall a, preserves (f a)) -> preserves (m ≫= f).
Proof.
  intros Hm Hf w. unfold mbind, M_bind. specialize (Hm w).
  destruct (m w) as [[a|e] w1]; cbn [snd] in *; [| done].
  eapply same_setup_trans; [exact Hm | apply Hf].
Qed.

Lemma preserves_lift {A} (r : result A) : preserves (lift r).
Proof. intros w. apply same_setup_refl. Qed.

Lemma preserves_ret {A} (a : A) : preserves (mret a : M A).
Proof. intros w. apply same_setup_refl. Qed.

Lemma preserves_forward x edge_index edge_attr batch :
  preserves (forward x edge_index edge_attr batch).
Proof.
  intros w. pose proof (forward_self x edge_index edge_attr batch w) as Hself.
  unfold same_setup. rewrite Hself. repeat split.
  intros Hmode. by rewrite forward_in_inference.
Qed.

Lemma preserves_set_parameters (p : Parameters) : preserves (set_parameters p).
Proof. intros w. by repeat split. Qed.

Lemma preserves_train_batch (optimizer : Adam) (batch_items : list (Route * f64)) :
  preserves (train_batch optimizer batch_items).
Proof.
  unfold train_batch.
  apply preserves_bind; [intros w; apply same_setup_refl | intros md].
  apply preserves_bind; [apply preserves_lift | intros graphs].
  apply preserves_bind; [apply preserves_lift | intros batch].
  apply preserves_bind; [intros w; apply same_setup_refl | intros m].
  apply preserves_bind; [intros w; apply same_setup_refl | intros g].
  apply preserves_bind; [apply preserves_forward | intros predictions].
  apply preserves_bind; [apply preserves_lift | intros loss].
  apply preserves_bind; [apply preserves_lift | intros gradients].
  destruct (Adam_step optimizer (parameters m) gradients) as [optimizer' p].
  apply preserves_bind; [apply preserves_set_parameters | intros _].
  apply preserves_bind; [apply preserves_lift | intros loss_value].
  apply preserves_ret.
Qed.

Lemma preserves_train_batches (bs : list (list (Route * f64))) (optimizer : Adam)
    (total_loss : f64) :
  preserves (train_batches bs optimizer total_loss).
Proof.
  revert optimizer total_loss. induction bs as [|b bs IH]; intros optimizer total_loss.
  - apply preserves_ret.
  - cbn [train_batches]. apply preserves_bind; [apply preserves_train_batch |].
    intros r. apply IH.
Qed.

Lemma same_setup_train_epochs (epoch_range : list Z) (epochs : Z)
    (training_data : list (Route * f64)) (optimizer : Adam) (w : World)
    (stdout : list EpochLine) :
  same_setup w (train_epochs epoch_range epochs training_data optimizer w stdout).1.2.
Proof.
  revert optimizer w stdout.
  induction epoch_range as [|epoch es IH]; intros optimizer w stdout.
  - apply same_setup_refl.
  - cbn [train_epochs].
    pose proof (preserves_train_batches (batches training_data) optimizer F64.zero w)
      as Hbatches.
    destruct (train_batches _ _ _ w) as [[[optimizer' total_loss]|e] w1];
      cbn [snd] in Hbatches; [| exact Hbatches].
    destruct (py_truediv _ _) as [avg_loss|]; [| exact Hbatches].
    eapply same_setup_trans; [exact Hbatches | apply IH].
Qed.

(** X22: [train] never switches the mode of the model: however it ends,
    the model is in the mode it was in, with its dropout probability, and
    the metadata is untouched.  A model in inference mode, as [score_route]
    leaves it, is trained without dropout: the random generator is not
    drawn from. *)
Theorem train_keeps_mode (training_data : list (Route * f64)) (epochs : Z)
    (lr : f64) (w : World) :
  let w' := (train training_data epochs lr w).1.2 in
  training (model (self w')) = training (model (self w)) /\
  dropout_p (model (self w')) = dropout_p (model (self w)) /\
  chain_metadata (self w') = chain_metadata (self w) /\
  (training (model (self w)) = false -> generator w' = generator w).
Proof.
  cbn zeta. unfold train.
  destruct (Adam_init _ lr) as [optimizer|e].
  - apply same_setup_train_epochs.
  - apply same_setup_refl.
Qed.

Lemma train_epochs_stdout (epoch_range : list Z) (epochs : Z)
    (training_data : list (Route * f64)) (optimizer : Adam) (w w' : World)
    (stdout stdout' : list EpochLine) :
  train_epochs epoch_range epochs training_data optimizer w stdout
  = (Returns (), w', stdout') ->
  exists lines,
    stdout' = stdout ++ lines /\
    line_epoch <$> lines = filter (fun e => e mod 10 = 0) (Z.succ <$> epoch_range) /\
    Forall (fun line => line_epochs line = epochs) lines.
Proof.
  revert optimizer w stdout.
  induction epoch_range as [|epoch es IH]; intros optimizer w stdout Hrun.
  - injection Hrun as _ <-. exists []. by rewrite app_nil_r.
  - cbn [train_epochs] in Hrun.
    destruct (train_batches _ _ _ w) as [[[optimizer' total_loss]|e] w1];
      [| discriminate Hrun].
    destruct (py_truediv _ _) as [avg_loss|]; [| discriminate Hrun].
    apply IH in Hrun as (lines & -> & Hlines & Hall).
    cbn [fmap list_fmap]. rewrite filter_cons. unfold Z.succ at 1.
    destruct (Z.eqb_spec ((epoch + 1) mod 10) 0) as [Hten | Hten].
    + rewrite decide_True by done.
      exists (mkEpochLine (epoch + 1) epochs avg_loss :: lines).
      split; [by rewrite <- app_assoc |]. split.
      * cbn [fmap list_fmap line_epoch]. by rewrite Hlines.
      * by constructor.
    + rewrite decide_False by done. by exists lines.
Qed.

(** X23: when [train] returns it has printed one line for every tenth
    epoch, 10, 20, ..., in order, each naming the total number of
    epochs. *)
Theorem train_prints_every_tenth_epoch (training_data : list (Route * f64))
    (epochs : Z) (lr : f64) (w w' : World) (stdout : list EpochLine) :
  train training_data epochs lr w = (Returns (), w', stdout) ->
  line_epoch <$> stdout = filter (fun e => e mod 10 = 0) (seqZ 1 epochs) /\
  Forall (fun line => line_epochs line = epochs) stdout.
Proof.
  unfold train. destruct (Adam_init _ lr) as [optimizer|e]; [| discriminate].
  intros Hrun. apply train_epochs_stdout in Hrun as (lines & -> & Hlines & Hall).
  rewrite app_nil_l. split; [| done].
  rewrite Hlines. f_equal.
  transitivity (Z.add 1 <$> seqZ 0 epochs); [| apply (fmap_add_seqZ 1 0 epochs)].
  apply list_fmap_ext. intros _ e _. lia.
Qed.

Lemma train_epochs_divides (epoch_range : list Z) (epochs : Z)
    (training_data : list (Route * f64)) (optimizer : Adam) (w : World)
    (stdout : list EpochLine) :
  training_data <> [] ->
  (train_epochs epoch_range epochs training_data optimizer w stdout).1.1
  <> RaisesZeroDivisionError.
Proof.
  intros Hdata. revert optimizer w stdout.
  induction epoch_range as [|epoch es IH]; intros optimizer w stdout; [discriminate |].
  cbn [train_epochs].
  destruct (train_batches _ _ _ w) as [[[optimizer' total_loss]|e] w1]; [| discriminate].
  rewrite batch_count_nonzero by (destruct training_data; [done | simpl; lia]).
  apply IH.
Qed.

(** X24: [train] raises ZeroDivisionError exactly when there is no
    training data, at least one epoch and an optimizer: with training data
    the number of batches it divides by is never zero. *)
Theorem train_zero_division (training_data : list (Route * f64)) (epochs : Z)
    (lr : f64) (w : World) :
  (train training_data epochs lr w).1.1 = RaisesZeroDivisionError <->
  training_data = [] /\ 0 < epochs /\
  is_Ok (Adam_init (parameters (model (self w))) lr).
Proof.
  unfold train. destruct (Adam_init _ lr) as [optimizer|e]; cbn [fst].
  - split.
    + intros Hrun. destruct training_data as [|sample data].
      * split; [reflexivity |]. split; [| by eexists].
        destruct (Z.lt_ge_cases 0 epochs) as [|Hle]; [done |].
        rewrite seqZ_nil in Hrun by lia. discriminate Hrun.
      * by apply train_epochs_divides in Hrun.
    + intros (-> & Hepochs & _). rewrite seqZ_cons by done. reflexivity.
  - split; [discriminate |]. intros (_ & _ & [a Ha]). discriminate Ha.
Qed.

End TrainingFacts.

Lemma train_without_work_witness :
  @train example_torch example_optim [] 100 (F64.decimal 1 1000) (example_world true)
  = (RaisesZeroDivisionError, example_world true, []).
Proof.
  apply (proj2 (@train_without_work example_torch example_optim []
                  100 (F64.decimal 1 1000) (example_world true) 0%nat eq_refl)).
  lia.
Defined.

Lemma train_prints_every_tenth_epoch_witness :
  line_epoch <$> example_train_run.2 = filter (fun e => e mod 10 = 0) (seqZ 1 20) /\
  Forall (fun line => line_epochs line = 20) example_train_run.2.
Proof.
  apply (@train_prints_every_tenth_epoch example_torch example_optim
           [(demo_route_one_hop, F64.decimal 5 10)] 20 (F64.decimal 1 1000)
           (example_world true) example_train_run.1.2 example_train_run.2).
  assert (Hend : example_train_run.1.1 = Returns ()) by (vm_compute; reflexivity).
  fold example_train_run. destruct example_train_run as [[o w'] stdout].
  cbn [fst snd] in *. by rewrite Hend.
Defined.

(* ===================================================================== *)
(** * The synthetic training data                                       *)
(* ===================================================================== *)

Lemma py_sum_app (l : list Z) (a : Z) : py_sum (l ++ [a]) = py_sum l + a.
Proof. unfold py_sum. by rewrite foldl_snoc. Qed.

Lemma py_sum_nonneg (l : list Z) : Forall (fun a => 0 <= a) l -> 0 <= py_sum l.
Proof.
  induction l as [|a l IH] using rev_ind; intros Hl; [done |].
  apply Forall_app in Hl as [Hl Ha]. rewrite py_sum_app.
  apply Forall_cons in Ha as [Ha _]. specialize (IH Hl). lia.
Qed.

Lemma of_Z_nonneg (n : Z) :
  0 <= n -> valid64 (F64.of_Z n) = true /\ (F64.zero <=? F64.of_Z n)%f64 = true.
Proof.
  intros Hn.
  destruct (binary_normalize_xval (fmt := binary64) n 0 false ltac:(vm_compute; discriminate))
    as [Hg Hv].
  assert (Hpos : 0 <= xval (fmt := binary64) (F64.of_Z n)).
  { unfold F64.of_Z.
    change (binary_normalize F64.prec F64.emax n 0 false)
      with (binary_normalize (prec (Format := binary64)) (emax (Format := binary64)) n 0 false).
    rewrite Hv. rewrite <- (round_signed_0 (fmt := binary64)).
    apply round_signed_mono.
    apply Z.mul_nonneg_nonneg; [done |]. apply Z.pow_nonneg. lia. }
  split; [apply Hg |].
  by destruct (nonneg64_leb (F64.of_Z n) (conj Hg Hpos)) as (_ & Hle & _).
Qed.

Lemma py_first_Ok {A} (l : list A) (a : A) : head l = Some a -> py_first l = Ok a.
Proof. destruct l; [discriminate |]. by intros [= ->]. Qed.

Lemma py_last_Ok {A} (l : list A) (a : A) : last l = Some a -> py_last l = Ok a.
Proof. intros Hl. unfold py_last. by rewrite Hl. Qed.

Lemma other_chains_nonempty (c : string) : filter (fun c' => c' <> c) chains <> [].
Proof.
  unfold chains.
  destruct (decide ("ethereum" = c)) as [<- | Hne].
  - by vm_compute.
  - rewrite filter_cons, decide_True by done. discriminate.
Qed.

Section GeneratorFacts.
Context `{NumpyRandom}.
Hypothesis contract : numpy_contract.

Lemma draw_randint (lo hi : Z) (s : RandomState) :
  lo < hi -> exists n s', draw (randint lo hi) s = (Returns n, s') /\ lo <= n < hi.
Proof.
  intros Hlt. destruct contract as (Hr & _ & _).
  destruct (Hr lo hi s Hlt) as (n & Hn & Hrange).
  unfold draw. destruct (randint lo hi s) as [r s']. cbn [fst] in Hn. subst r.
  by exists n, s'.
Qed.

Lemma draw_choice (l : list string) (s : RandomState) :
  l <> [] -> exists c s', draw (choice l) s = (Returns c, s') /\ c ∈ l.
Proof.
  intros Hne. destruct contract as (_ & Hc & _).
  destruct (Hc l s Hne) as (c & Hch & Hin).
  unfold draw. destruct (choice l s) as [r s']. cbn [fst] in Hch. subst r.
  by exists c, s'.
Qed.

Lemma generate_hops_spec (n : nat) (current_chain : string) (hops : list DrawnHop)
    (s : RandomState) :
  current_chain ∈ chains ->
  Forall drawn_ok hops -> drawn_connected hops ->
  (forall h, last hops = Some h -> drawn_to_chain h = current_chain) ->
  exists hops' s',
    generate_hops n current_chain hops s = (Returns hops', s') /\
    length hops' = (length hops + n)%nat /\
    Forall drawn_ok hops' /\ drawn_connected hops' /\
    (forall h, head hops = Some h -> head hops' = Some h) /\
    (hops = [] -> forall h, head hops' = Some h -> drawn_from_chain h = current_chain).
Proof.
  revert current_chain hops s.
  induction n as [|n IH]; intros current_chain hops s Hcur Hok Hconn Hlast.
  - exists hops, s. split; [reflexivity |]. split; [lia |].
    split; [exact Hok |]. split; [exact Hconn |]. split; [done |].
    intros -> h Hh. discriminate Hh.
  - cbn [generate_hops]. unfold mbind at 1, Gen_bind at 1.
    destruct (draw_choice _ s (other_chains_nonempty current_chain))
      as (next_chain & s1 & -> & Hnext).
    apply list_elem_of_filter in Hnext as [Hne Hnext].
    unfold mbind at 1, Gen_bind at 1.
    destruct (draw_choice bridge_types s1 ltac:(discriminate)) as (bt & s2 & -> & Hbt).
    unfold mbind at 1, Gen_bind at 1.
    destruct (draw_randint 10000 100000 s2 ltac:(lia)) as (cost & s3 & -> & Hcost).
    unfold mbind at 1, Gen_bind at 1.
    destruct (draw_randint 1000 60000 s3 ltac:(lia)) as (time_ms & s4 & -> & Htime).
    set (hop := mkDrawnHop current_chain next_chain bt cost time_ms).
    destruct (IH next_chain (hops ++ [hop]) s4) as (hops' & s' & Hrun & Hlen & Hok' & Hconn' & Hhead & _).
    + exact Hnext.
    + apply Forall_app. split; [exact Hok |]. constructor; [| constructor].
      unfold drawn_ok, hop. cbn. repeat split; done || lia || congruence.
    + intros k h1 h2 Hk1 Hk2.
      destruct (decide (S k < length hops)%nat) as [Hlt | Hge].
      * rewrite lookup_app_l in Hk1, Hk2 by lia. by apply (Hconn k).
      * assert (Hk : S k = length hops).
        { apply lookup_lt_Some in Hk2. rewrite length_app in Hk2. simpl in Hk2. lia. }
        rewrite lookup_app_l in Hk1 by lia.
        rewrite lookup_app_r in Hk2 by lia.
        replace (S k - length hops)%nat with 0%nat in Hk2 by lia.
        injection Hk2 as <-. cbn. apply Hlast.
        rewrite last_lookup. by replace (pred (length hops)) with k by lia.
    + intros h. rewrite last_snoc. by intros [= <-].
    + exists hops', s'. split; [exact Hrun |]. split.
      { rewrite Hlen, length_app. simpl. lia. }
      split; [exact Hok' |]. split; [exact Hconn' |]. split.
      * intros h Hh. apply Hhead. by destruct hops.
      * intros -> h Hh. rewrite (Hhead hop) in Hh by done. by injection Hh as <-.
Qed.

Lemma generate_sample_spec (s : RandomState) :
  exists sample s',
    generate_sample s = (Returns sample, s') /\
    generated_route sample.1 /\ generated_numbers sample.
Proof.
  unfold generate_sample. unfold mbind at 1, Gen_bind at 1.
  destruct (draw_randint 1 4 s ltac:(lia)) as (num_hops & s1 & -> & Hnum).
  unfold mbind at 1, Gen_bind at 1.
  destruct (draw_choice chains s1 ltac:(discriminate)) as (c0 & s2 & -> & Hc0).
  unfold mbind at 1, Gen_bind at 1.
  destruct (generate_hops_spec (Z.to_nat num_hops) c0 [] s2 Hc0)
    as (hs & s3 & -> & Hlen & Hok & Hconn & _ & Hfirst); [constructor | | done |].
  { intros k h1 h2 Hk. by rewrite lookup_nil in Hk. }
  cbn [length Nat.add] in Hlen. specialize (Hfirst eq_refl).
  destruct (head hs) as [h0|] eqn:Hhead; [| destruct hs; [simpl in Hlen; lia | done]].
  destruct (last hs) as [hl|] eqn:Hlast.
  2:{ apply last_None in Hlast. subst hs. discriminate Hhead. }
  unfold mbind at 1, Gen_bind at 1. rewrite (py_first_Ok hs h0 Hhead). cbn [gen_lift].
  unfold mbind at 1, Gen_bind at 1. rewrite (py_last_Ok hs hl Hlast). cbn [gen_lift].
  unfold mbind at 1, Gen_bind at 1. unfold draw at 1.
  destruct contract as (_ & _ & Hu).
  destruct (Hu (F64.decimal 85 100) (F64.decimal 99 100) s3 ltac:(vm_compute; reflexivity)
              ltac:(vm_compute; reflexivity) ltac:(vm_compute; reflexivity))
    as (Hvalid & Hlo & Hhi).
  destruct (uniform _ _ s3) as [conf s4]. cbn [fst snd] in *.
  set (route := mkRoute _ _ _ _ _ conf).
  (* the cost of the route is not negative *)
  assert (Hcosts : Forall (fun a => 0 <= a) (drawn_cost <$> hs)).
  { apply Forall_fmap. eapply Forall_impl; [exact Hok |]. intros h Hh.
    unfold drawn_ok in Hh. cbn. lia. }
  assert (Htimes : Forall (fun a => 0 <= a) (drawn_time_ms <$> hs)).
  { apply Forall_fmap. eapply Forall_impl; [exact Hok |]. intros h Hh.
    unfold drawn_ok in Hh. cbn. lia. }
  destruct (of_Z_nonneg _ (py_sum_nonneg _ Hcosts)) as [Hvc Hc].
  destruct (of_Z_nonneg _ (py_sum_nonneg _ Htimes)) as [Hvt Ht].
  assert (Hone : (conf <=? F64.one)%f64 = true).
  { destruct (SFleb_not_nan _ _ Hhi) as [Hn _].
    apply (SFleb_trans _ (F64.decimal 99 100)); [done | done | done | done |].
    vm_compute. reflexivity. }
  pose proof (cost_function_nonneg64 route Hvc Hvt Hvalid Hc Ht Hone) as Hnn.
  destruct (nonneg64_leb _ Hnn) as (_ & Hle & _).
  (* so the division is defined *)
  unfold mbind at 1, Gen_bind at 1. unfold gen_truediv at 1.
  rewrite (one_plus_nonneg _ Hnn). cbn [mret Gen_ret].
  eexists (route, _), s4. split; [reflexivity |]. cbn [fst snd]. split.
  - (* the route *)
    unfold generated_route, route. cbn [hops source_chain target_chain].
    split; [rewrite length_fmap; lia |]. split; [| split; [| split]].
    + apply Forall_fmap. eapply Forall_impl; [exact Hok |]. intros h Hh.
      unfold drawn_ok in Hh. unfold generated_hop, hop_of_drawn. cbn. tauto.
    + intros k h1 h2 Hk1 Hk2. rewrite list_lookup_fmap in Hk1, Hk2.
      destruct (hs !! k) as [d1|] eqn:Hd1; [| discriminate Hk1].
      destruct (hs !! S k) as [d2|] eqn:Hd2; [| discriminate Hk2].
      injection Hk1 as <-. injection Hk2 as <-. cbn. by apply (Hconn k).
    + exists (hop_of_drawn h0). split; [| reflexivity].
      clear -Hhead. destruct hs as [|h hs']; [discriminate Hhead |].
      cbn in Hhead. injection Hhead as ->. reflexivity.
    + exists (hop_of_drawn hl). split; [| reflexivity].
      rewrite fmap_last, Hlast. reflexivity.
  - (* the numbers *)
    unfold generated_numbers. cbn [fst snd]. unfold route at 1 2 3 4 5 6.
    cbn [hops estimated_cost estimated_time_ms confidence_score].
    split; [| split; [| split; [exact Hlo | split; [exact Hhi | split; [exact Hle | reflexivity]]]]].
    + exists (drawn_cost <$> hs). split; [| reflexivity].
      apply Forall2_fmap, Forall_Forall2_diag.
      eapply Forall_impl; [exact Hok |]. intros h Hh. unfold drawn_ok in Hh. cbn. tauto.
    + exists (drawn_time_ms <$> hs). split; [| reflexivity].
      apply Forall2_fmap, Forall_Forall2_diag.
      eapply Forall_impl; [exact Hok |]. intros h Hh. unfold drawn_ok in Hh. cbn. tauto.
Qed.

Lemma generate_samples_spec (n : nat) (training_data : list (Route * f64))
    (s : RandomState) :
  Forall (fun sample => generated_route sample.1 /\ generated_numbers sample)
         training_data ->
  exists data s',
    generate_samples n training_data s = (Returns data, s') /\
    length data = (length training_data + n)%nat /\
    Forall (fun sample => generated_route sample.1 /\ generated_numbers sample) data.
Proof.
  revert training_data s. induction n as [|n IH]; intros training_data s Hall.
  - exists training_data, s. split; [reflexivity |]. split; [lia | exact Hall].
  - cbn [generate_samples]. unfold mbind at 1, Gen_bind at 1.
    destruct (generate_sample_spec s) as (sample & s1 & -> & Hroute & Hnumbers).
    destruct (IH (training_data ++ [sample]) s1) as (data & s' & Hrun & Hlen & Hdata).
    { apply Forall_app. split; [exact Hall |]. by constructor. }
    exists data, s'. split; [exact Hrun |]. split; [| exact Hdata].
    rewrite Hlen, length_app. simpl. lia.
Qed.

End GeneratorFacts.

Section GeneratorTheorems.
Context `{NumpyRandom}.

(** X25: with a generator that keeps numpy's contract,
    [generate_training_data] raises nothing (no IndexError on the hops, no
    empty choice, no division by zero) and returns as many samples as
    asked for, none for a negative number. *)
Theorem generate_training_data_returns (num_samples : Z) (s : RandomState) :
  numpy_contract ->
  exists data s',
    generate_training_data num_samples s = (Returns data, s') /\
    length data = Z.to_nat num_samples.
Proof.
  intros contract.
  destruct (generate_samples_spec contract (Z.to_nat num_samples) [] s)
    as (data & s' & Hrun & Hlen & _); [constructor |].
  by exists data, s'.
Qed.

(** X26: every route [generate_training_data] returns has one to three
    hops, each from one of the five chains to a different one of them over
    one of the four bridge types; each hop starts at the chain the hop
    before it ends at; [source_chain] is the start of the first hop and
    [target_chain] the end of the last. *)
Theorem generate_training_data_routes (num_samples : Z) (s s' : RandomState)
    (data : list (Route * f64)) (route : Route) (score : f64) :
  numpy_contract ->
  generate_training_data num_samples s = (Returns data, s') ->
  (route, score) ∈ data ->
  (1 <= length (hops route) <= 3)%nat /\
  Forall generated_hop (hops route) /\
  connected (hops route) /\
  (exists hop, head (hops route) = Some hop /\ source_chain route = from_chain hop) /\
  (exists hop, last (hops route) = Some hop /\ target_chain route = to_chain hop).
Proof.
  intros contract Hrun Hin.
  destruct (generate_samples_spec contract (Z.to_nat num_samples) [] s)
    as (data' & s'' & Hrun' & _ & Hall); [constructor |].
  unfold generate_training_data in Hrun. rewrite Hrun' in Hrun. injection Hrun as <- <-.
  rewrite Forall_forall in Hall. by destruct (Hall _ Hin) as [Hroute _].
Qed.

(** X27: in every sample [generate_training_data] returns, the cost of a
    hop is an integer in 10000..99999 and its duration one in 1000..59999,
    [estimated_cost] and [estimated_time_ms] are their sums over the hops,
    the confidence lies between 0.85 and 0.99, the cost of the route is not
    negative and the score is [1 / (1 + cost_function(route))]. *)
Theorem generate_training_data_scores (num_samples : Z) (s s' : RandomState)
    (data : list (Route * f64)) (route : Route) (score : f64) :
  numpy_contract ->
  generate_training_data num_samples s = (Returns data, s') ->
  (route, score) ∈ data ->
  (exists costs : list Z,
     Forall2 (fun hop c => cost hop = F64.of_Z c /\ 10000 <= c < 100000) (hops route) costs /\
     estimated_cost route = F64.of_Z (py_sum costs)) /\
  (exists times : list Z,
     Forall2 (fun hop t => time_ms hop = F64.of_Z t /\ 1000 <= t < 60000) (hops route) times /\
     estimated_time_ms route = F64.of_Z (py_sum times)) /\
  (F64.decimal 85 100 <=? confidence_score route)%f64 = true /\
  (confidence_score route <=? F64.decimal 99 100)%f64 = true /\
  (F64.zero <=? cost_function route)%f64 = true /\
  score = (F64.one / (F64.one + cost_function route))%f64.
Proof.
  intros contract Hrun Hin.
  destruct (generate_samples_spec contract (Z.to_nat num_samples) [] s)
    as (data' & s'' & Hrun' & _ & Hall); [constructor |].
  unfold generate_training_data in Hrun. rewrite Hrun' in Hrun. injection Hrun as <- <-.
  rewrite Forall_forall in Hall. by destruct (Hall _ Hin) as [_ Hnumbers].
Qed.

End GeneratorTheorems.

Lemma example_random_contract : @numpy_contract example_random.
Proof.
  split; [| split].
  - intros lo hi s Hlt. cbn.
    destruct (Z.ltb_spec lo hi) as [_ | Hge]; [| lia].
    eexists. split; [reflexivity |].
    pose proof (Z.mod_pos_bound (Z.of_nat s) (hi - lo) ltac:(lia)). lia.
  - intros l s Hne. cbn.
    assert (Hlt : (s mod length l < length l)%nat).
    { apply Nat.mod_upper_bound. by destruct l. }
    destruct (lookup_lt_is_Some_2 l _ Hlt) as [c Hc]. rewrite Hc.
    exists c. split; [reflexivity |]. by eapply list_elem_of_lookup_2.
  - intros lo hi s Hvlo Hvhi Hle. cbn.
    destruct (SFleb_not_nan _ _ Hle) as [Hn _].
    split; [exact Hvlo |]. split; [by apply SFleb_refl | exact Hle].
Qed.

Lemma generate_training_data_returns_witness :
  exists data s',
    @generate_training_data example_random 2 0%nat = (Returns data, s') /\
    length data = Z.to_nat 2.
Proof.
  apply (@generate_training_data_returns example_random 2 0%nat).
  exact example_random_contract.
Defined.

Lemma generate_training_data_routes_witness :
  let route := example_sample.1 in
  (1 <= length (hops route) <= 3)%nat /\
  Forall generated_hop (hops route) /\
  connected (hops route) /\
  (exists hop, head (hops route) = Some hop /\ source_chain route = from_chain hop) /\
  (exists hop, last (hops route) = Some hop /\ target_chain route = to_chain hop).
Proof.
  apply (@generate_training_data_routes example_random 2 0%nat
           (@generate_training_data example_random 2 0%nat).2
           example_training_data example_sample.1 example_sample.2
           example_random_contract).
  - vm_compute. reflexivity.
  - vm_compute. left.
Defined.

Lemma generate_training_data_scores_witness :
  let route := example_sample.1 in
  (exists costs : list Z,
     Forall2 (fun hop c => cost hop = F64.of_Z c /\ 10000 <= c < 100000) (hops route) costs /\
     estimated_cost route = F64.of_Z (py_sum costs)) /\
  (exists times : list Z,
     Forall2 (fun hop t => time_ms hop = F64.of_Z t /\ 1000 <= t < 60000) (hops route) times /\
     estimated_time_ms route = F64.of_Z (py_sum times)) /\
  (F64.decimal 85 100 <=? confidence_score route)%f64 = true /\
  (confidence_score route <=? F64.decimal 99 100)%f64 = true /\
  (F64.zero <=? cost_function route)%f64 = true /\
  example_sample.2 = (F64.one / (F64.one + cost_function route))%f64.
Proof.
  apply (@generate_training_data_scores example_random 2 0%nat
           (@generate_training_data example_random 2 0%nat).2
           example_training_data example_sample.1 example_sample.2
           example_random_contract).
  - vm_compute. reflexivity.
  - vm_compute. left.
Defined.
